(** * reactTable: the row/column materialization utilities of [src/utils.js]

    A shallow embedding of the utilities the table pipeline is built on:
    the path resolver ([getBy], [makePathArray], [flattenDeep]), the column
    materializer ([linkColumnStructure], [assignColumnAccessor]), the
    header-group builder ([makeHeaderGroups]), the row materializer
    ([accessRowsForColumn]), the expansion walk ([expandRows]) and the
    filter auto-removal test ([shouldAutoRemoveFilter]). *)

From stdpp Require Import base option list strings gmap pretty.
From Stdlib Require Import ZArith Lia Ascii.

Set Warnings "-register-all".
Open Scope string_scope.
Open Scope list_scope.

(** ** JavaScript values *)

Module Js.

(** The values the utilities touch.  Numbers are the integers; a function is
    a handle, its identity being all [getBy] looks at. *)
Inductive value : Type :=
| VUndefined
| VNull
| VBool (b : bool)
| VNum (n : Z)
| VStr (s : string)
| VArr (items : list value)
| VObj (props : list (string * value))
| VFun (f : nat).

(** The outcome of code that may throw. *)
Inductive result (A : Type) : Type :=
| Ok (a : A)
| Throw (msg : string).
Arguments Ok {A} a.
Arguments Throw {A} msg.

Definition bind {A B} (r : result A) (k : A -> result B) : result B :=
  match r with
  | Ok a => k a
  | Throw m => Throw m
  end.

(** [!!v] *)
Definition truthy (v : value) : bool :=
  match v with
  | VUndefined | VNull => false
  | VBool b => b
  | VNum n => negb (n =? 0)%Z
  | VStr s => negb (String.eqb s "")
  | VArr _ | VObj _ | VFun _ => true
  end.

(** [typeof v === 'undefined'] *)
Definition is_undefined (v : value) : bool :=
  match v with
  | VUndefined => true
  | _ => false
  end.

(** [a || b] *)
Definition js_or (a b : value) : value := if truthy a then a else b.

(** [a && b] *)
Definition js_and (a b : value) : value := if truthy a then b else a.

(** Own property of an object literal. *)
Fixpoint own_prop (props : list (string * value)) (k : string) : option value :=
  match props with
  | [] => None
  | (k', v) :: rest => if String.eqb k' k then Some v else own_prop rest k
  end.

(** The array index a property key denotes: the [i < len] whose decimal
    rendering is the key. *)
Definition array_index (len : nat) (k : string) : option nat :=
  List.find (fun i => String.eqb (pretty i) k) (seq 0 len).

Fixpoint string_nth (s : string) (i : nat) : option string :=
  match s, i with
  | EmptyString, _ => None
  | String c _, O => Some (String c EmptyString)
  | String _ s', S i' => string_nth s' i'
  end.

(** Whether a character occurs in a string. *)
Fixpoint has_char (c : Ascii.ascii) (s : string) : bool :=
  match s with
  | EmptyString => false
  | String c' s' => Ascii.eqb c' c || has_char c s'
  end.

(** A property key as [assignColumnAccessor] hands them to [getBy]: no
    period and no bracket in it. *)
Definition plain_key (k : string) : bool :=
  negb (has_char "."%char k) && negb (has_char "["%char k)
  && negb (has_char "]"%char k).

Section Runtime.

(** What the prototype chain yields for a key that is not an own property of
    the value ([undefined] when the chain has no such member). *)
Variable inherited : value -> string -> value.

(** The source text [String(f)] of a function value. *)
Variable fn_src : nat -> string.

(** The text [String(n)] of a number: its decimal digits up to [1e21], the
    exponent form from there on. *)
Variable num_src : Z -> string.

(** [JSON.stringify], on values that are not [undefined] or functions. *)
Variable JSON_stringify : value -> string.

(** [cursor[pathPart]]: reading a property of [undefined] or [null] throws. *)
Definition get_prop (cursor : value) (k : string) : result value :=
  match cursor with
  | VUndefined => Throw "TypeError: Cannot read properties of undefined"
  | VNull => Throw "TypeError: Cannot read properties of null"
  | VObj props =>
      match own_prop props k with
      | Some v => Ok v
      | None => Ok (inherited cursor k)
      end
  | VArr items =>
      match array_index (length items) k with
      | Some i => Ok (default VUndefined (items !! i))
      | None =>
          if String.eqb k "length" then Ok (VNum (Z.of_nat (length items)))
          else Ok (inherited cursor k)
      end
  | VStr s =>
      match array_index (String.length s) k with
      | Some i => Ok (default VUndefined (VStr <$> string_nth s i))
      | None =>
          if String.eqb k "length" then Ok (VNum (Z.of_nat (String.length s)))
          else Ok (inherited cursor k)
      end
  | VBool _ | VNum _ | VFun _ => Ok (inherited cursor k)
  end.

(** [String(d)] for the parts [flattenDeep] leaves (never an array). *)
Definition to_String (d : value) : string :=
  match d with
  | VUndefined => "undefined"
  | VNull => "null"
  | VBool true => "true"
  | VBool false => "false"
  | VNum n => num_src n
  | VStr s => s
  | VArr _ => ""
  | VObj _ => "[object Object]"
  | VFun f => fn_src f
  end.

(** *** String helpers of the path parser *)

(** [s.replace('.', '_')]: a string pattern replaces the first match only. *)
Fixpoint replace_first (from to : Ascii.ascii) (s : string) : string :=
  match s with
  | EmptyString => EmptyString
  | String c s' =>
      if Ascii.eqb c from then String to s'
      else String c (replace_first from to s')
  end.

(** [s.replace(/c/g, to)] for a one-character pattern. *)
Fixpoint replace_all (from : Ascii.ascii) (to : string) (s : string) : string :=
  match s with
  | EmptyString => EmptyString
  | String c s' =>
      if Ascii.eqb c from then to +:+ replace_all from to s'
      else String c (replace_all from to s')
  end.

(** [parts.join(sep)] *)
Fixpoint join (sep : string) (parts : list string) : string :=
  match parts with
  | [] => ""
  | [p] => p
  | p :: rest => p +:+ sep +:+ join sep rest
  end.

(** [s.split(sep)] for a one-character separator: never empty. *)
Fixpoint split (sep : Ascii.ascii) (s : string) : list string :=
  match s with
  | EmptyString => [""]
  | String c s' =>
      if Ascii.eqb c sep then "" :: split sep s'
      else match split sep s' with
           | [] => [String c ""]
           | w :: ws => String c w :: ws
           end
  end.

(** [flattenDeep(arr, newArr = [])] *)
Fixpoint flattenDeep (arr : value) : list value :=
  match arr with
  | VArr items => concat (map flattenDeep items)
  | v => [v]
  end.

(** [makePathArray(obj)] *)
Definition makePathArray (obj : value) : list string :=
  split "."%char
    (replace_all "]"%char ""
       (replace_all "["%char "."
          (join "." (map (fun d => replace_first "."%char "_"%char (to_String d))
                         (flattenDeep obj))))).

(** *** getBy *)

(** Keys of [pathObjCache]: a function keys by identity, everything else by
    its JSON text. *)
Definition cache_key : Type := nat + string.

Definition cacheKey (path : value) : cache_key :=
  match path with
  | VFun f => inl f
  | _ => inr (JSON_stringify path)
  end.

(** [pathObj.reduce((cursor, pathPart) => cursor[pathPart], obj)] *)
Fixpoint resolve (pathObj : list string) (cursor : value) : result value :=
  match pathObj with
  | [] => Ok cursor
  | pathPart :: rest => bind (get_prop cursor pathPart) (resolve rest)
  end.

(** [obj[k]] where [obj] is known not to be [undefined] or [null]. *)
Definition get (obj : value) (k : string) : value :=
  match get_prop obj k with
  | Ok v => v
  | Throw _ => VUndefined
  end.

(** [getBy(obj, path, def)], threading the module-level [pathObjCache]. *)
Definition getBy (cache : gmap cache_key (list string))
    (obj path def : value) : gmap cache_key (list string) * value :=
  if negb (truthy path) then (cache, obj)
  else
    let key := cacheKey path in
    let '(cache', pathObj) :=
      match cache !! key with
      | Some pathObj => (cache, pathObj)
      | None =>
          let pathObj := makePathArray path in
          (<[key := pathObj]> cache, pathObj)
      end in
    let val :=
      match resolve pathObj obj with
      | Ok v => v
      | Throw _ => VUndefined
      end in
    (cache', if negb (is_undefined val) then val else def).

(** [shouldAutoRemoveFilter(autoRemove, value, column)] *)
Definition shouldAutoRemoveFilter {Column : Type}
    (autoRemove : option (value -> Column -> value))
    (v : value) (column : Column) : value :=
  match autoRemove with
  | Some f => f v column
  | None => VBool (is_undefined v)
  end.

(** *** What the claims compare [getBy] with *)

(** Following the parsed key sequence through the object, the default
    standing in for a failed or [undefined] resolution. *)
Definition follow_path (obj path def : value) : value :=
  match resolve (makePathArray path) obj with
  | Ok v => if is_undefined v then def else v
  | Throw _ => def
  end.

(** The value a key sequence reaches in an object: one property read for
    each key, none of them on [undefined] or [null]. *)
Inductive reaches : value -> list string -> value -> Prop :=
| reaches_end obj : reaches obj [] obj
| reaches_key obj k next keys v :
    get_prop obj k = Ok next -> reaches next keys v ->
    reaches obj (k :: keys) v.

(** The cache holds, under the key of [path], nothing but its parse. *)
Definition cache_agrees (cache : gmap cache_key (list string))
    (path : value) : Prop :=
  forall pathObj,
    cache !! cacheKey path = Some pathObj -> pathObj = makePathArray path.


Definition cache_ok (dom : value -> Prop)
    (cache : gmap cache_key (list string)) : Prop :=
  forall p, dom p -> cache_agrees cache p.

(** *** Theorems *)


Lemma getBy_truthy cache obj path def :
  truthy path = true ->
  cache_agrees cache path ->
  getBy cache obj path def =
    (match cache !! cacheKey path with
     | Some _ => cache
     | None => <[cacheKey path := makePathArray path]> cache
     end, follow_path obj path def).
Proof.
  intros Ht Hc. unfold getBy, follow_path. rewrite Ht. cbn [negb].
  destruct (cache !! cacheKey path) as [pathObj|] eqn:E.
  - rewrite (Hc pathObj E).
    destruct (resolve (makePathArray path) obj) as [v|m]; [|done].
    by destruct v.
  - destruct (resolve (makePathArray path) obj) as [v|m]; [|done].
    by destruct v.
Qed.


Lemma cache_ok_empty dom : cache_ok dom ∅.
Proof. intros p _ pathObj. by rewrite lookup_empty. Qed.

(** *** The parse of an array of plain keys is the array *)

Lemma append_nil_l s : "" +:+ s = s.
Proof. reflexivity. Qed.

Lemma append_cons c s1 s2 : String c s1 +:+ s2 = String c (s1 +:+ s2).
Proof. reflexivity. Qed.


Lemma replace_first_absent from to s :
  has_char from s = false -> replace_first from to s = s.
Proof.
  induction s as [|c s IH]; [done|]. cbn [has_char replace_first].
  destruct (Ascii.eqb c from); [done|]. cbn [orb]. intros H. by rewrite IH.
Qed.

Lemma replace_all_absent from to s :
  has_char from s = false -> replace_all from to s = s.
Proof.
  induction s as [|c s IH]; [done|]. cbn [has_char replace_all].
  destruct (Ascii.eqb c from); [done|]. cbn [orb]. intros H. by rewrite IH.
Qed.

Lemma has_char_app c s1 s2 :
  has_char c (s1 +:+ s2) = has_char c s1 || has_char c s2.
Proof.
  induction s1 as [|c' s1 IH]; [done|].
  rewrite append_cons. cbn [has_char]. rewrite IH.
  by destruct (Ascii.eqb c' c).
Qed.

Lemma has_char_join c (keys : list string) :
  Ascii.eqb "."%char c = false ->
  Forall (fun k => has_char c k = false) keys ->
  has_char c (join "." keys) = false.
Proof.
  intros Hc. induction 1 as [|k keys Hk Hks IH]; [done|].
  destruct keys as [|k' keys]; [done|].
  change (join "." (k :: k' :: keys))
    with (k +:+ "." +:+ join "." (k' :: keys)).
  rewrite !has_char_app, Hk, IH.
  change (has_char c ".") with (Ascii.eqb "."%char c || false).
  by rewrite Hc.
Qed.

Lemma split_absent sep k : has_char sep k = false -> split sep k = [k].
Proof.
  induction k as [|c k IH]; [done|]. cbn [has_char split].
  destruct (Ascii.eqb c sep); [done|]. cbn [orb]. intros H. by rewrite IH.
Qed.

Lemma split_app_sep sep k rest :
  has_char sep k = false ->
  split sep (k +:+ String sep rest) = k :: split sep rest.
Proof.
  induction k as [|c k IH].
  - intros _. rewrite append_nil_l. cbn [split]. by rewrite Ascii.eqb_refl.
  - rewrite append_cons. cbn [has_char split].
    destruct (Ascii.eqb c sep); [done|]. cbn [orb]. intros H. by rewrite IH.
Qed.

Lemma split_join (keys : list string) :
  keys <> [] ->
  Forall (fun k => has_char "."%char k = false) keys ->
  split "."%char (join "." keys) = keys.
Proof.
  intros Hne. induction 1 as [|k keys Hk Hks IH]; [done|].
  destruct keys as [|k' keys]; [by apply split_absent|].
  change (join "." (k :: k' :: keys))
    with (k +:+ String "."%char (join "." (k' :: keys))).
  rewrite split_app_sep by done. by rewrite IH.
Qed.

Lemma flattenDeep_keys (keys : list string) :
  flattenDeep (VArr (VStr <$> keys)) = VStr <$> keys.
Proof.
  cbn. induction keys as [|k keys IH]; [done|]. cbn. by rewrite IH.
Qed.

Lemma plain_key_chars k :
  plain_key k = true ->
  has_char "."%char k = false /\ has_char "["%char k = false /\
  has_char "]"%char k = false.
Proof.
  unfold plain_key. rewrite !andb_true_iff, !negb_true_iff. tauto.
Qed.

(** The path [assignColumnAccessor] builds: an array of keys with no period
    and no bracket parses to itself. *)
Lemma makePathArray_keys (keys : list string) :
  keys <> [] ->
  Forall (fun k => plain_key k = true) keys ->
  makePathArray (VArr (VStr <$> keys)) = keys.
Proof.
  intros Hne Hk. unfold makePathArray. rewrite flattenDeep_keys.
  rewrite <- list_fmap_compose.
  assert (Hid : (fun d => replace_first "."%char "_"%char (to_String d))
                  ∘ VStr <$> keys = keys).
  { clear Hne. induction Hk as [|k keys Hk _ IH]; [done|]. cbn.
    rewrite IH, replace_first_absent; [done|]. by apply plain_key_chars. }
  unfold fmap, list_fmap in Hid. unfold fmap, list_fmap.
  rewrite Hid.
  rewrite (replace_all_absent "["%char).
  2:{ apply has_char_join; [done|].
      eapply Forall_impl; [exact Hk|]. intros k Hp. by apply plain_key_chars. }
  rewrite (replace_all_absent "]"%char).
  2:{ apply has_char_join; [done|].
      eapply Forall_impl; [exact Hk|]. intros k Hp. by apply plain_key_chars. }
  apply split_join; [done|].
  eapply Forall_impl; [exact Hk|]. intros k Hp. by apply plain_key_chars.
Qed.

(** [resolve] reaches what the keys reach, and throws where they reach
    nothing. *)
Lemma resolve_reaches keys : forall obj v,
  resolve keys obj = Ok v <-> reaches obj keys v.
Proof.
  induction keys as [|k keys IH]; intros obj v; cbn [resolve].
  - split; [intros [= <-]; constructor|]. by inversion 1.
  - split.
    + destruct (get_prop obj k) as [next|msg] eqn:E; [|done]. cbn [bind].
      intros H. econstructor; [exact E|]. by apply IH.
    + inversion 1 as [|? ? next ? ? Hk Hrest]; subst. rewrite Hk. cbn [bind].
      by apply IH.
Qed.

Lemma reaches_unique keys obj v w :
  reaches obj keys v -> reaches obj keys w -> v = w.
Proof. rewrite <- !resolve_reaches. congruence. Qed.


(** C9: without a custom predicate the filter is removed exactly when its
    value is [undefined]; with one, the answer is the predicate's. *)
Theorem shouldAutoRemoveFilter_default {Column : Type}
    (v : value) (column : Column) :
  (shouldAutoRemoveFilter None v column = VBool true <-> v = VUndefined) /\
  (exists b, shouldAutoRemoveFilter None v column = VBool b) /\
  (forall autoRemove : value -> Column -> value,
     shouldAutoRemoveFilter (Some autoRemove) v column = autoRemove v column).
Proof.
  repeat split.
  - destruct v; cbn; congruence.
  - by intros ->.
  - by eexists.
Qed.

End Runtime.

(** *** Concrete runs *)

(** A runtime whose prototypes have no members. *)
Definition no_inherited : value -> string -> value := fun _ _ => VUndefined.

Definition anonymous_src : nat -> string := fun _ => "function () {}".

(** The text of the small integers of the examples. *)
Definition decimal : Z -> string := fun n => pretty n.

(** The JSON text of keys and arrays of keys that need no escaping. *)
Fixpoint json_text (v : value) : string :=
  match v with
  | VStr s => String (ascii_of_nat 34) (s +:+ String (ascii_of_nat 34) "")
  | VNum n => pretty n
  | VBool true => "true"
  | VBool false => "false"
  | VArr items => "[" +:+ join "," (map json_text items) +:+ "]"
  | VObj _ => "{}"
  | VUndefined | VNull | VFun _ => "null"
  end.

Definition nested_item : value := VObj [("a", VObj [("b", VNum 1)])].

Example makePathArray_dotted_string :
  makePathArray anonymous_src decimal (VStr "a.b.c") = ["a_b"; "c"].
Proof. reflexivity. Qed.

Example makePathArray_bracket_string :
  makePathArray anonymous_src decimal (VStr "a[0].b") = ["a"; "0_b"].
Proof. reflexivity. Qed.

Example makePathArray_empty_array :
  makePathArray anonymous_src decimal (VArr []) = [""].
Proof. reflexivity. Qed.

Example getBy_dotted_string :
  (getBy no_inherited anonymous_src decimal json_text ∅ nested_item (VStr "a.b")
     (VNum 5)).2 = VNum 5.
Proof. reflexivity. Qed.

(** Outside arrays of keys the cache key is not the parse: [[undefined]]
    and [[null]] have the JSON text [[null]], so the second of them is
    resolved with the parse of the first. *)
Example getBy_cache_key_collision :
  let obj := VObj [("undefined", VNum 1); ("null", VNum 2)] in
  let first :=
    getBy no_inherited anonymous_src decimal json_text ∅ obj (VArr [VUndefined])
      VUndefined in
  first.2 = VNum 1 /\
  (getBy no_inherited anonymous_src decimal json_text first.1 obj (VArr [VNull])
     VUndefined).2 = VNum 1 /\
  follow_path no_inherited anonymous_src decimal obj (VArr [VNull]) VUndefined
    = VNum 2.
Proof. vm_compute. by repeat split. Qed.



End Js.

(** ** Column materialization: [linkColumnStructure], [assignColumnAccessor] *)

Module Columns.
Import Js.

(** Objects live in a store and are named by their address. *)
Abbreviation loc := nat (only parsing).

(** The [accessor] of a column: what the configuration gave (a string, a
    function, nothing), or the closure [row => getBy(row, accessorPath)] that
    [assignColumnAccessor] puts in place of a string. *)
Inductive accessor_value : Type :=
| AccValue (v : value)
| AccPath (accessorPath : list string).

(** A column object.  [columns] refers to the array of nested columns,
    [parent] to the parent column object; [others] holds the properties the
    materializer only copies. *)
Record column : Type := Column {
  id : value;
  accessor : accessor_value;
  Header : value;
  columns : option loc;
  parent : option loc;
  depth : option nat;
  others : list (string * value)
}.

Inductive cell : Type :=
| CColumn (c : column)
| CArray (items : list loc).

Abbreviation heap := (list cell) (only parsing).

(** How a computation on the store ends: with a value, with an exception, or
    cut off by the bound on the nesting the walk may descend. *)
Inductive outcome (A : Type) : Type :=
| Done (a : A)
| Thrown (msg : string)
| OutOfFuel.
Arguments Done {A} a.
Arguments Thrown {A} msg.
Arguments OutOfFuel {A}.

Definition M (A : Type) : Type := heap -> heap * outcome A.

Definition ret {A} (a : A) : M A := fun h => (h, Done a).

Definition throw {A} (msg : string) : M A := fun h => (h, Thrown msg).

Definition mbind {A B} (m : M A) (k : A -> M B) : M B :=
  fun h =>
    match m h with
    | (h1, Done a) => k a h1
    | (h1, Thrown msg) => (h1, Thrown msg)
    | (h1, OutOfFuel) => (h1, OutOfFuel)
    end.

Notation "'let*' x ':=' m 'in' k" := (mbind m (fun x => k))
  (at level 10, x name, m at level 100, k at level 200).

(** A fresh object: the next free address. *)
Definition alloc (c : cell) : M loc := fun h => (h ++ [c], Done (length h)).

(** A configuration holds column objects in arrays: reading anything else
    where a column or an array is due ends the walk. *)
Definition read_column (l : loc) : M column :=
  fun h =>
    match h !! l with
    | Some (CColumn c) => (h, Done c)
    | _ => (h, Thrown "TypeError: not a column object")
    end.

Definition read_array (l : loc) : M (list loc) :=
  fun h =>
    match h !! l with
    | Some (CArray items) => (h, Done items)
    | _ => (h, Thrown "TypeError: columns.map is not a function")
    end.

Definition write (l : loc) (c : cell) : M unit :=
  fun h => (<[l := c]> h, Done tt).

Fixpoint mapM {A B} (f : A -> M B) (l : list A) : M (list B) :=
  match l with
  | [] => ret []
  | x :: rest =>
      let* y := f x in
      let* ys := mapM f rest in
      ret (y :: ys)
  end.

Definition dquote : string := String (ascii_of_nat 34) "".

Definition header_required : string :=
  "A column ID (or unique " +:+ dquote +:+ "Header" +:+ dquote
  +:+ " value) is required!".

Definition accessor_required : string :=
  "A column ID (or string accessor) is required!".

Definition is_string (v : value) : bool :=
  match v with
  | VStr _ => true
  | _ => false
  end.

(** [assignColumnAccessor(column)], on the contents of the object (the
    [console.error] before each [throw] is left out). *)
Definition assignColumnAccessor (col : column) : result column :=
  let '(id1, accessor1) :=
    match accessor col with
    | AccValue (VStr s) =>
        (js_or (id col) (VStr s), AccPath (split "."%char s))
    | a => (id col, a)
    end in
  let id2 :=
    if negb (truthy id1) && is_string (Header col) && truthy (Header col)
    then Header col else id1 in
  if negb (truthy id2) && bool_decide (is_Some (columns col))
  then Throw header_required
  else if negb (truthy id2) then Throw accessor_required
  else Ok (Column id2 accessor1 (Header col) (columns col)
             (parent col) (depth col) (others col)).

(** [{ ...column, parent, depth }] *)
Definition with_parent_depth (c : column) (p : option loc) (d : nat) : column :=
  Column (id c) (accessor c) (Header c) (columns c) p (Some d) (others c).

(** [column.columns = cols] *)
Definition set_columns (c : column) (cols : option loc) : column :=
  Column (id c) (accessor c) (Header c) cols (parent c) (depth c)
    (others c).

(** [assignColumnAccessor(column)], on the object at an address. *)
Definition assignColumnAccessor_at (l : loc) : M loc :=
  let* c := read_column l in
  match assignColumnAccessor c with
  | Ok c' => let* _ := write l (CColumn c') in ret l
  | Throw msg => throw msg
  end.

(** The callback of [columns.map] in [linkColumnStructure]; [link] is the
    recursive call. *)
Definition linkColumn (link : loc -> option loc -> nat -> M loc)
    (parent : option loc) (depth : nat) (c : loc) : M loc :=
  let* original := read_column c in
  let* column := alloc (CColumn (with_parent_depth original parent depth)) in
  let* _ := assignColumnAccessor_at column in
  let* assigned := read_column column in
  match columns assigned with
  | Some nested =>
      let* linked := link nested (Some column) (S depth) in
      let* now := read_column column in
      let* _ := write column (CColumn (set_columns now (Some linked))) in
      ret column
  | None => ret column
  end.

(** [linkColumnStructure(columns, parent, depth = 0)]: the array [map]
    returns is created before the callback runs. *)
Fixpoint linkColumnStructure (fuel : nat) (columns : loc)
    (parent : option loc) (depth : nat) : M loc :=
  match fuel with
  | O => fun h => (h, OutOfFuel)
  | S fuel' =>
      let* items := read_array columns in
      let* mapped := alloc (CArray []) in
      let* items' :=
        mapM (linkColumn (linkColumnStructure fuel') parent depth) items in
      let* _ := write mapped (CArray items') in
      ret mapped
  end.

(** *** What the materializer leaves in the store *)

(** A computation that only extends the store: it leaves the first [n]
    cells as they are, allocates past them, and its result satisfies [Q]. *)
Definition grows {A} (n : nat) (m : M A) (Q : A -> Prop) : Prop :=
  forall h, n <= length h ->
    length h <= length (m h).1 /\
    (forall l, l < n -> (m h).1 !! l = h !! l) /\
    (forall a, (m h).2 = Done a -> Q a).

(** The column [c'] of the store [h'] is the materialized copy of the
    column [c] of the configuration [h0]: the contents of [c] with [parent]
    and [depth], passed through [assignColumnAccessor], its nested columns
    replaced by their copies ([linked]).  Copies lie at or past [b]. *)
Definition LinkedColumn (linked : option loc -> nat -> loc -> loc -> Prop)
    (b : nat) (h0 h' : heap) (p : option loc) (d : nat) (c c' : loc) : Prop :=
  exists col col1,
    h0 !! c = Some (CColumn col) /\ b <= c' /\
    assignColumnAccessor (with_parent_depth col p d) = Ok col1 /\
    match columns col with
    | None => h' !! c' = Some (CColumn col1)
    | Some nested =>
        exists nested',
          h' !! c' = Some (CColumn (set_columns col1 (Some nested'))) /\
          linked (Some c') (S d) nested nested'
    end.

(** The array [cols'] of [h'] is the materialized copy of the array [cols]
    of [h0], for a configuration nested less than [n] deep. *)
Fixpoint Linked (n : nat) (b : nat) (h0 h' : heap) (p : option loc) (d : nat)
    (cols cols' : loc) : Prop :=
  match n with
  | O => False
  | S n' =>
      exists items items',
        h0 !! cols = Some (CArray items) /\ b <= cols' /\
        h' !! cols' = Some (CArray items') /\
        Forall2 (LinkedColumn (Linked n' b h0 h') b h0 h' p d) items items'
  end.

Definition resolves (col : column) : Prop :=
  exists col1, assignColumnAccessor col = Ok col1.

(** The array [cols] of [h] is a column configuration: a tree of columns,
    nested less than [n] deep, each with a resolvable id. *)
Fixpoint materializable (n : nat) (h : heap) (cols : loc) : Prop :=
  match n with
  | O => False
  | S n' =>
      exists items,
        h !! cols = Some (CArray items) /\
        Forall (fun c =>
                  exists col,
                    h !! c = Some (CColumn col) /\ resolves col /\
                    match columns col with
                    | None => True
                    | Some nested => materializable n' h nested
                    end) items
  end.

(** *** Id resolution *)

(** The column gives no usable string accessor / string label. *)
Definition no_string_accessor (col : column) : Prop :=
  forall s, accessor col = AccValue (VStr s) -> s = "".

Definition no_string_label (col : column) : Prop :=
  forall s, Header col = VStr s -> s = "".

Definition missing_id_error (col : column) : string :=
  if bool_decide (is_Some (columns col)) then header_required
  else accessor_required.

(** The column at [c], with all that is nested under it less than [n']
    deep, resolves. *)
Definition materializable_column (n' : nat) (h : heap) (c : loc) : Prop :=
  exists col,
    h !! c = Some (CColumn col) /\ resolves col /\
    match columns col with
    | None => True
    | Some nested => materializable n' h nested
    end.

(** In the array [cols] of [h], nested less than [n] deep, [bad] is the
    column the materializer comes to first among those it cannot resolve:
    the columns before it in its array resolve, with all under them, and so
    do, level by level, the columns it is nested in and the columns before
    these. *)
Fixpoint reaches_first (n : nat) (h : heap) (cols : loc) (bad : column)
  : Prop :=
  match n with
  | O => False
  | S n' =>
      exists before c after col,
        h !! cols = Some (CArray (before ++ c :: after)) /\
        Forall (materializable_column n' h) before /\
        h !! c = Some (CColumn col) /\
        (col = bad \/
         (resolves col /\
          exists nested,
            columns col = Some nested /\ reaches_first n' h nested bad))
  end.

(** The array [cols] of [h] has the shape of a configuration: an array of
    column objects, their [columns] such arrays, nested less than [n]
    deep. *)
Fixpoint configuration (n : nat) (h : heap) (cols : loc) : Prop :=
  match n with
  | O => False
  | S n' =>
      exists items,
        h !! cols = Some (CArray items) /\
        Forall (fun c =>
                  exists col,
                    h !! c = Some (CColumn col) /\
                    match columns col with
                    | None => True
                    | Some nested => configuration n' h nested
                    end) items
  end.

Lemma truthy_VStr s : s <> "" -> truthy (VStr s) = true.
Proof.
  intros Hs. cbn. apply negb_true_iff. by apply String.eqb_neq.
Qed.

Lemma assignColumnAccessor_id col :
  truthy (id col) = true ->
  exists col', assignColumnAccessor col = Ok col' /\ id col' = id col.
Proof.
  intros Hid. unfold assignColumnAccessor.
  destruct (accessor col) as [[]|]; unfold js_or; rewrite ?Hid;
    cbn [negb andb]; rewrite ?Hid; cbn [negb andb]; by eexists.
Qed.

Lemma assignColumnAccessor_string_accessor col s :
  truthy (id col) = false ->
  accessor col = AccValue (VStr s) -> s <> "" ->
  exists col', assignColumnAccessor col = Ok col' /\ id col' = VStr s /\
    accessor col' = AccPath (split "."%char s).
Proof.
  intros Hid Hacc Hs. unfold assignColumnAccessor. rewrite Hacc.
  unfold js_or. rewrite Hid, (truthy_VStr s Hs). cbn [negb andb].
  rewrite (truthy_VStr s Hs). cbn [negb andb]. by eexists.
Qed.

Lemma assignColumnAccessor_label col s :
  truthy (id col) = false -> no_string_accessor col ->
  Header col = VStr s -> s <> "" ->
  exists col', assignColumnAccessor col = Ok col' /\ id col' = VStr s.
Proof.
  intros Hid Hacc Hh Hs. unfold assignColumnAccessor.
  assert (Hid1 : truthy (match accessor col with
                         | AccValue (VStr s0) =>
                             (js_or (id col) (VStr s0),
                              AccPath (split "."%char s0))
                         | a => (id col, a)
                         end).1 = false).
  { destruct (accessor col) as [[]|] eqn:E; cbn [fst]; try done.
    rewrite (Hacc _ E). unfold js_or. by rewrite Hid. }
  destruct (match accessor col with
            | AccValue (VStr s0) => _
            | a => (id col, a)
            end) as [id1 accessor1].
  cbn [fst] in Hid1. rewrite Hid1, Hh. cbn [negb andb is_string].
  rewrite !(truthy_VStr s Hs). cbn [negb andb].
  rewrite ?(truthy_VStr s Hs). cbn [negb andb]. by eexists.
Qed.

Lemma assignColumnAccessor_missing col :
  truthy (id col) = false -> no_string_accessor col -> no_string_label col ->
  assignColumnAccessor col = Throw (missing_id_error col).
Proof.
  intros Hid Hacc Hh. unfold assignColumnAccessor, missing_id_error.
  assert (Hid1 : truthy (match accessor col with
                         | AccValue (VStr s0) =>
                             (js_or (id col) (VStr s0),
                              AccPath (split "."%char s0))
                         | a => (id col, a)
                         end).1 = false).
  { destruct (accessor col) as [[]|] eqn:E; cbn [fst]; try done.
    rewrite (Hacc _ E). unfold js_or. by rewrite Hid. }
  destruct (match accessor col with
            | AccValue (VStr s0) => _
            | a => (id col, a)
            end) as [id1 accessor1].
  cbn [fst] in Hid1.
  assert (Hlab : is_string (Header col) && truthy (Header col) = false).
  { destruct (Header col) eqn:E; try done. cbn. by rewrite (Hh _ E). }
  rewrite Hid1. cbn [negb andb]. rewrite Hlab, Hid1. cbn [negb andb].
  by destruct (bool_decide (is_Some (columns col))).
Qed.

(** The copy [{ ...column, parent, depth }] resolves as the column does. *)
Lemma assignColumnAccessor_with_parent_depth col p d :
  assignColumnAccessor (with_parent_depth col p d) =
    match assignColumnAccessor col with
    | Ok col' => Ok (with_parent_depth col' p d)
    | Throw msg => Throw msg
    end.
Proof.
  unfold assignColumnAccessor, with_parent_depth. cbn.
  destruct (accessor col) as [[]|]; cbn;
    repeat (match goal with |- context [if ?b then _ else _] => destruct b end;
            cbn); reflexivity.
Qed.

(** An unresolvable column stops the materialization where it is reached. *)
Lemma linkColumn_throws link p d c col msg h :
  h !! c = Some (CColumn col) ->
  assignColumnAccessor col = Throw msg ->
  (linkColumn link p d c h).2 = Thrown msg.
Proof.
  intros Hc Hthrow. unfold linkColumn, mbind, read_column, alloc.
  rewrite Hc. unfold assignColumnAccessor_at, mbind, read_column.
  rewrite lookup_app_r by done. rewrite Nat.sub_diag. cbn [lookup list_lookup].
  by rewrite assignColumnAccessor_with_parent_depth, Hthrow.
Qed.

(** *** Concrete columns *)

Definition configured (i : value) (a : accessor_value) (label : value)
    (nested : option loc) : column :=
  Column i a label nested None None [].

(** *** The store only grows *)

Lemma grows_ret {A} n (a : A) (Q : A -> Prop) : Q a -> grows n (ret a) Q.
Proof. intros HQ h Hn. cbn. repeat split; [done|]. by intros ? [= <-]. Qed.

Lemma grows_throw {A} n msg (Q : A -> Prop) : grows n (throw msg) Q.
Proof. intros h Hn. cbn. by repeat split. Qed.

Lemma grows_bind {A B} n (m : M A) (k : A -> M B) Q R :
  grows n m Q -> (forall a, Q a -> grows n (k a) R) -> grows n (mbind m k) R.
Proof.
  intros Hm Hk h Hn. unfold mbind.
  destruct (Hm h Hn) as (Hlen & Hsame & HQ).
  destruct (m h) as [h1 [a| |]]; cbn [fst snd] in *; try by repeat split.
  destruct (Hk a (HQ a eq_refl) h1 ltac:(lia)) as (Hlen' & Hsame' & HR).
  split; [lia|]. split; [|done].
  intros l Hl. rewrite Hsame' by done. by apply Hsame.
Qed.

Lemma grows_weaken {A} n (m : M A) (Q R : A -> Prop) :
  (forall a, Q a -> R a) -> grows n m Q -> grows n m R.
Proof.
  intros HQR Hm h Hn. destruct (Hm h Hn) as (? & ? & HQ).
  repeat split; [done..|]. intros a Ha. by apply HQR, HQ.
Qed.

Lemma grows_alloc n c : grows n (alloc c) (fun l => n <= l).
Proof.
  intros h Hn. unfold alloc. cbn [fst snd]. rewrite length_app. cbn.
  split; [lia|]. split.
  - intros l Hl. by rewrite lookup_app_l by lia.
  - by intros a [= <-].
Qed.

Lemma grows_read_column n l : grows n (read_column l) (fun _ => True).
Proof.
  intros h Hn. unfold read_column.
  destruct (h !! l) as [[]|]; cbn; by repeat split.
Qed.

Lemma grows_read_array n l : grows n (read_array l) (fun _ => True).
Proof.
  intros h Hn. unfold read_array.
  destruct (h !! l) as [[]|]; cbn; by repeat split.
Qed.

Lemma grows_write n l c : n <= l -> grows n (write l c) (fun _ => True).
Proof.
  intros Hl h Hn. unfold write. cbn [fst snd]. rewrite length_insert.
  repeat split; [done|]. intros l' Hl'.
  by rewrite list_lookup_insert_ne by lia.
Qed.

Lemma grows_mapM {A B} n (f : A -> M B) (Q : B -> Prop) (l : list A) :
  (forall x, grows n (f x) Q) -> grows n (mapM f l) (Forall Q).
Proof.
  intros Hf. induction l as [|x l IH]; cbn [mapM].
  - by apply grows_ret.
  - eapply grows_bind; [apply Hf|]. intros y Hy.
    eapply grows_bind; [apply IH|]. intros ys Hys.
    apply grows_ret. by constructor.
Qed.

Lemma grows_assignColumnAccessor_at n l :
  n <= l -> grows n (assignColumnAccessor_at l) (fun _ => True).
Proof.
  intros Hl. unfold assignColumnAccessor_at.
  eapply grows_bind; [apply grows_read_column|]. intros c _.
  destruct (assignColumnAccessor c); [|apply grows_throw].
  eapply grows_bind; [by apply grows_write|]. intros _ _. by apply grows_ret.
Qed.

Lemma grows_linkColumn n link p d c :
  (forall cols p' d', grows n (link cols p' d') (fun r => n <= r)) ->
  grows n (linkColumn link p d c) (fun r => n <= r).
Proof.
  intros Hlink. unfold linkColumn.
  eapply grows_bind; [apply grows_read_column|]. intros original _.
  eapply grows_bind; [apply grows_alloc|]. intros column Hcolumn.
  eapply grows_bind; [by apply grows_assignColumnAccessor_at|]. intros _ _.
  eapply grows_bind; [apply grows_read_column|]. intros assigned _.
  destruct (columns assigned) as [nested|]; [|by apply grows_ret].
  eapply grows_bind; [apply Hlink|]. intros linked _.
  eapply grows_bind; [apply grows_read_column|]. intros now _.
  eapply grows_bind; [by apply grows_write|]. intros _ _.
  by apply grows_ret.
Qed.

Lemma grows_linkColumnStructure fuel n cols p d :
  grows n (linkColumnStructure fuel cols p d) (fun r => n <= r).
Proof.
  revert cols p d. induction fuel as [|fuel IH]; intros cols p d.
  - intros h Hn. cbn. by repeat split.
  - cbn [linkColumnStructure].
    eapply grows_bind; [apply grows_read_array|]. intros items _.
    eapply grows_bind; [apply grows_alloc|]. intros mapped Hmapped.
    eapply grows_bind.
    { apply grows_mapM. intros c. apply grows_linkColumn, IH. }
    intros items' _.
    eapply grows_bind; [by apply grows_write|]. intros _ _.
    by apply grows_ret.
Qed.


Lemma grows_prefix {A} (m : M A) (Q : A -> Prop) h :
  grows (length h) m Q -> h `prefix_of` (m h).1.
Proof.
  intros Hm. destruct (Hm h) as (Hlen & Hsame & _); [done|].
  exists (drop (length h) (m h).1).
  rewrite <- (take_drop (length h) (m h).1) at 1. f_equal.
  apply list_eq. intros l. destruct (decide (l < length h)) as [Hl|Hl].
  - rewrite lookup_take_lt by done. by apply Hsame.
  - rewrite lookup_take_ge by lia. symmetry. apply lookup_ge_None. lia.
Qed.

(** *** Running the materializer on a configuration *)

Lemma mbind_Done {A B} (m : M A) (k : A -> M B) h h1 a :
  m h = (h1, Done a) -> mbind m k h = k a h1.
Proof. intros H. unfold mbind. by rewrite H. Qed.

Lemma read_column_Some h l c :
  h !! l = Some (CColumn c) -> read_column l h = (h, Done c).
Proof. intros H. unfold read_column. by rewrite H. Qed.

Lemma read_array_Some h l items :
  h !! l = Some (CArray items) -> read_array l h = (h, Done items).
Proof. intros H. unfold read_array. by rewrite H. Qed.

Lemma lookup_alloc (h : heap) c : (h ++ [c]) !! length h = Some c.
Proof. by rewrite lookup_app_r, Nat.sub_diag. Qed.

Lemma insert_alloc (h : heap) c c' : <[length h := c']> (h ++ [c]) = h ++ [c'].
Proof.
  rewrite insert_app_r_alt by done. by rewrite Nat.sub_diag.
Qed.

(** Facts about the copies at or past [b'] carry over from [hX] to [hY]. *)
Definition carries (b' : nat) (hX hY : heap) : Prop :=
  forall l x, b' <= l -> hX !! l = Some x -> hY !! l = Some x.

Lemma carries_prefix b' (hX hY : heap) : hX `prefix_of` hY -> carries b' hX hY.
Proof. intros Hp l x _ Hx. by eapply prefix_lookup_Some. Qed.

Lemma carries_insert b' (hX : heap) l c : l < b' -> carries b' hX (<[l := c]> hX).
Proof. intros Hl l' x Hl' Hx. by rewrite list_lookup_insert_ne by lia. Qed.

Lemma Linked_mono n : forall b b' h0 hX hY p d cols cols',
  b <= b' -> carries b' hX hY ->
  Linked n b' h0 hX p d cols cols' -> Linked n b h0 hY p d cols cols'.
Proof.
  induction n as [|n IH]; intros b b' h0 hX hY p d cols cols' Hb Hc; [done|].
  cbn [Linked]. intros (items & items' & Hcols & Hb' & Hcols' & Hall).
  exists items, items'. split; [done|]. split; [lia|].
  split; [by apply Hc|].
  eapply Forall2_impl; [exact Hall|]. intros c c'.
  intros (col & col1 & Hcol & Hbc & Hassign & Hnested).
  exists col, col1. split; [done|]. split; [lia|]. split; [done|].
  destruct (columns col) as [nested|]; [|by apply Hc].
  destruct Hnested as (nested' & Hc' & Hlinked).
  exists nested'. split; [by apply Hc|]. by eapply IH.
Qed.

Lemma LinkedColumn_mono n b b' h0 hX hY p d c c' :
  b <= b' -> carries b' hX hY ->
  LinkedColumn (Linked n b' h0 hX) b' h0 hX p d c c' ->
  LinkedColumn (Linked n b h0 hY) b h0 hY p d c c'.
Proof.
  intros Hb Hc (col & col1 & Hcol & Hbc & Hassign & Hnested).
  exists col, col1. split; [done|]. split; [lia|]. split; [done|].
  destruct (columns col) as [nested|]; [|by apply Hc].
  destruct Hnested as (nested' & Hc' & Hlinked).
  exists nested'. split; [by apply Hc|]. by eapply Linked_mono.
Qed.

Lemma assignColumnAccessor_columns col col1 :
  assignColumnAccessor col = Ok col1 -> columns col1 = columns col.
Proof.
  unfold assignColumnAccessor.
  destruct (match accessor col with
            | AccValue (VStr s) => _
            | a => (id col, a)
            end) as [id1 accessor1].
  repeat (match goal with |- context [if ?b then _ else _] => destruct b end);
    try discriminate; by intros [= <-].
Qed.

Lemma assignColumnAccessor_at_Some (h : heap) l c c' :
  h !! l = Some (CColumn c) -> assignColumnAccessor c = Ok c' ->
  assignColumnAccessor_at l h = (<[l := CColumn c']> h, Done l).
Proof.
  intros Hl Hc. unfold assignColumnAccessor_at.
  erewrite mbind_Done by (by apply read_column_Some). by rewrite Hc.
Qed.

Section Materialize.

Variables (n' fuel' : nat) (h0 : heap).

(** The nested call does its work on every configuration nested less than
    [n'] deep. *)
Hypothesis nested_call : forall (h : heap) cols p d,
  h0 `prefix_of` h -> materializable n' h0 cols ->
  exists h' root,
    linkColumnStructure fuel' cols p d h = (h', Done root) /\
    length h <= root /\
    Linked n' (length h) h0 h' p d cols root.

Lemma linkColumn_linked (h : heap) p d c col :
  h0 `prefix_of` h ->
  h0 !! c = Some (CColumn col) -> resolves col ->
  match columns col with
  | None => True
  | Some nested => materializable n' h0 nested
  end ->
  exists hA,
    linkColumn (linkColumnStructure fuel') p d c h = (hA, Done (length h)) /\
    LinkedColumn (Linked n' (length h) h0 hA) (length h) h0 hA p d c (length h).
Proof.
  intros Hpre Hc [col1' Hres] Hnested.
  assert (Hassign : assignColumnAccessor (with_parent_depth col p d)
                    = Ok (with_parent_depth col1' p d)).
  { by rewrite assignColumnAccessor_with_parent_depth, Hres. }
  set (col1 := with_parent_depth col1' p d) in *.
  assert (Hcols : columns col1 = columns col).
  { by rewrite (assignColumnAccessor_columns _ _ Hassign). }
  unfold linkColumn.
  erewrite mbind_Done
    by (apply read_column_Some; by eapply prefix_lookup_Some).
  erewrite mbind_Done by reflexivity.
  erewrite mbind_Done
    by (eapply assignColumnAccessor_at_Some; [apply lookup_alloc|exact Hassign]).
  rewrite insert_alloc.
  erewrite mbind_Done by (apply read_column_Some, lookup_alloc).
  rewrite Hcols. destruct (columns col) as [nested|] eqn:Hnest.
  - assert (Hpre2 : h0 `prefix_of` h ++ [CColumn col1]).
    { etrans; [exact Hpre|]. by apply prefix_app_r. }
    destruct (nested_call (h ++ [CColumn col1]) nested (Some (length h)) (S d)
                Hpre2 Hnested) as (h3 & nested' & Hrun & Hge & HL).
    erewrite mbind_Done by exact Hrun.
    assert (Hpre3 : h ++ [CColumn col1] `prefix_of` h3).
    { pose proof (grows_prefix _ _ (h ++ [CColumn col1])
                    (grows_linkColumnStructure fuel' _ nested
                       (Some (length h)) (S d))) as Hp.
      by rewrite Hrun in Hp. }
    assert (Hat : h3 !! length h = Some (CColumn col1)).
    { eapply prefix_lookup_Some; [apply lookup_alloc|exact Hpre3]. }
    erewrite mbind_Done by (by apply read_column_Some).
    erewrite mbind_Done by reflexivity.
    eexists. split; [reflexivity|].
    exists col, col1. split; [done|]. split; [done|]. split; [done|].
    rewrite Hnest. exists nested'. split.
    + apply list_lookup_insert_eq. by eapply lookup_lt_Some.
    + eapply Linked_mono; [| |exact HL].
      * rewrite length_app. cbn. lia.
      * apply carries_insert. rewrite length_app. cbn. lia.
  - eexists. split; [reflexivity|].
    exists col, col1. split; [done|]. split; [done|]. split; [done|].
    rewrite Hnest. apply lookup_alloc.
Qed.

Lemma mapM_linked p d items : forall h : heap,
  h0 `prefix_of` h ->
  Forall (fun c =>
            exists col,
              h0 !! c = Some (CColumn col) /\ resolves col /\
              match columns col with
              | None => True
              | Some nested => materializable n' h0 nested
              end) items ->
  exists hB items',
    mapM (linkColumn (linkColumnStructure fuel') p d) items h
      = (hB, Done items') /\
    h `prefix_of` hB /\
    Forall2 (LinkedColumn (Linked n' (length h) h0 hB) (length h) h0 hB p d)
      items items'.
Proof.
  induction items as [|c rest IH]; intros h Hpre Hall.
  - exists h, []. by repeat split.
  - apply Forall_cons in Hall as [(col & Hc & Hres & Hnested) Hrest].
    destruct (linkColumn_linked h p d c col Hpre Hc Hres Hnested)
      as (hA & Hrun & HLc).
    assert (HpreA : h `prefix_of` hA).
    { pose proof (grows_prefix _ _ h
                    (grows_linkColumn (length h) (linkColumnStructure fuel')
                       p d c (fun cols p' d' =>
                                grows_linkColumnStructure fuel' _ cols p' d')))
        as Hp.
      by rewrite Hrun in Hp. }
    destruct (IH hA ltac:(by etrans) Hrest) as (hB & ys & HrunB & HpreB & HLs).
    exists hB, (length h :: ys). cbn [mapM].
    erewrite mbind_Done by exact Hrun.
    erewrite mbind_Done by exact HrunB.
    split; [done|]. split; [by etrans|]. constructor.
    + eapply LinkedColumn_mono; [| |exact HLc]; [done|].
      by apply carries_prefix.
    + eapply Forall2_impl; [exact HLs|]. intros x y HL.
      eapply LinkedColumn_mono; [| |exact HL].
      * by apply prefix_length.
      * by intros l v _ Hv.
Qed.

End Materialize.

(** On a configuration, with fuel for its nesting, the materializer returns
    the copy of the configuration. *)
Lemma linkColumnStructure_linked n : forall fuel h0 (h : heap) cols p d,
  n <= fuel -> h0 `prefix_of` h -> materializable n h0 cols ->
  exists h' root,
    linkColumnStructure fuel cols p d h = (h', Done root) /\
    length h <= root /\
    Linked n (length h) h0 h' p d cols root.
Proof.
  induction n as [|n IH]; intros fuel h0 h cols p d Hfuel Hpre Hmat; [done|].
  destruct fuel as [|fuel]; [lia|].
  destruct Hmat as (items & Hcols & Hitems).
  cbn [linkColumnStructure].
  erewrite mbind_Done
    by (apply read_array_Some; by eapply prefix_lookup_Some).
  erewrite mbind_Done by reflexivity.
  destruct (mapM_linked n fuel h0
              (fun h cols p d => IH fuel h0 h cols p d ltac:(lia))
              p d items (h ++ [CArray []])) as (hB & items' & Hrun & HpreB & HL).
  { etrans; [exact Hpre|]. by apply prefix_app_r. }
  { exact Hitems. }
  erewrite mbind_Done by exact Hrun.
  erewrite mbind_Done by reflexivity.
  eexists _, _. split; [reflexivity|]. split; [done|].
  cbn [Linked]. exists items, items'. split; [done|]. split; [done|].
  assert (Hlt : length h < length hB).
  { apply prefix_length in HpreB. rewrite length_app in HpreB. cbn in HpreB.
    lia. }
  split; [by apply list_lookup_insert_eq|].
  eapply Forall2_impl; [exact HL|]. intros x y HLc.
  eapply LinkedColumn_mono; [| |exact HLc].
  - rewrite length_app. cbn. lia.
  - apply carries_insert. rewrite length_app. cbn. lia.
Qed.


(** [[{ Header: 'Name', columns: [{ accessor: 'firstName' },
      { id: 'ln', accessor: 'last.name' }] }, { Header: 'Age', accessor }]] *)
Definition sample_configuration : list cell :=
  [ CColumn (configured VUndefined (AccValue (VStr "firstName")) VUndefined None);
    CColumn (configured (VStr "ln") (AccValue (VStr "last.name")) VUndefined None);
    CArray [0; 1];
    CColumn (configured VUndefined (AccValue VUndefined) (VStr "Name") (Some 2));
    CColumn (configured VUndefined (AccValue (VFun 0)) (VStr "Age") None);
    CArray [3; 4] ].

Lemma sample_configuration_materializable :
  materializable 2 sample_configuration 5.
Proof.
  cbn. repeat (eexists || split || reflexivity || constructor).
Qed.


Example sample_configuration_linked :
  (linkColumnStructure 3 5 None 0 sample_configuration).2 = Done 6 /\
  (linkColumnStructure 3 5 None 0 sample_configuration).1 !! 6
    = Some (CArray [7; 11]) /\
  (linkColumnStructure 3 5 None 0 sample_configuration).1 !! 10
    = Some (CColumn (Column (VStr "ln") (AccPath ["last"; "name"]) VUndefined
                       None (Some 7) (Some 1) [])).
Proof. by repeat split. Qed.

(** *** A column without id stops the materializer, wherever it is *)

Lemma mbind_Thrown {A B} (m : M A) (k : A -> M B) h msg :
  (m h).2 = Thrown msg -> (mbind m k h).2 = Thrown msg.
Proof.
  unfold mbind. destruct (m h) as [h1 [a| |]]; cbn [snd]; congruence.
Qed.

Lemma mapM_throws_at {A B} (f : A -> M B) c after msg before :
  forall h hB ys,
    mapM f before h = (hB, Done ys) ->
    (f c hB).2 = Thrown msg ->
    (mapM f (before ++ c :: after) h).2 = Thrown msg.
Proof.
  induction before as [|x before IH]; intros h hB ys Hrun Hc.
  - injection Hrun as <- _. cbn [app mapM]. by apply mbind_Thrown.
  - cbn [mapM] in Hrun. unfold mbind at 1 in Hrun.
    destruct (f x h) as [h1 [y| |]] eqn:Ex; try discriminate.
    unfold mbind at 1 in Hrun.
    destruct (mapM f before h1) as [h2 [ys'| |]] eqn:Erest; try discriminate.
    injection Hrun as <- _. cbn [app mapM].
    erewrite mbind_Done by exact Ex. apply mbind_Thrown. by eapply IH.
Qed.

Lemma assignColumnAccessor_Throw col msg :
  assignColumnAccessor col = Throw msg -> msg = missing_id_error col.
Proof.
  unfold assignColumnAccessor, missing_id_error.
  destruct (match accessor col with
            | AccValue (VStr s) => _
            | a => (id col, a)
            end) as [id1 accessor1].
  set (id2 := if negb (truthy id1) && is_string (Header col)
                 && truthy (Header col)
              then Header col else id1).
  destruct (bool_decide (is_Some (columns col))), (negb (truthy id2));
    cbn [andb]; try discriminate; by intros [= <-].
Qed.

(** The materializer throws the error of the column without id it comes to
    first, at whatever place and depth that column lies. *)
Lemma linkColumnStructure_stops n : forall fuel h0 (h : heap) cols p d bad msg,
  n <= fuel -> h0 `prefix_of` h -> reaches_first n h0 cols bad ->
  assignColumnAccessor bad = Throw msg ->
  (linkColumnStructure fuel cols p d h).2 = Thrown msg.
Proof.
  induction n as [|n IH]; intros fuel h0 h cols p d bad msg Hfuel Hpre Hreach
    Hbad; [done|].
  destruct fuel as [|fuel]; [lia|].
  destruct Hreach as (before & c & after & col & Hcols & Hbefore & Hc & Hcase).
  cbn [linkColumnStructure].
  erewrite mbind_Done
    by (apply read_array_Some; by eapply prefix_lookup_Some).
  erewrite mbind_Done by reflexivity.
  apply mbind_Thrown.
  destruct (mapM_linked n fuel h0
              (fun h1 cols1 p1 d1 =>
                 linkColumnStructure_linked n fuel h0 h1 cols1 p1 d1
                   ltac:(lia))
              p d before (h ++ [CArray []])) as (hB & ys & Hrun & HpreB & _).
  { etrans; [exact Hpre|]. by apply prefix_app_r. }
  { exact Hbefore. }
  eapply mapM_throws_at; [exact Hrun|].
  assert (Hpre0 : h0 `prefix_of` hB).
  { etrans; [exact Hpre|]. etrans; [by apply prefix_app_r|exact HpreB]. }
  assert (HcB : hB !! c = Some (CColumn col))
    by (by eapply prefix_lookup_Some).
  destruct Hcase as [->|([col1' Hres] & nested & Hnest & Hrest)].
  { by eapply linkColumn_throws. }
  assert (Hassign : assignColumnAccessor (with_parent_depth col p d)
                    = Ok (with_parent_depth col1' p d)).
  { by rewrite assignColumnAccessor_with_parent_depth, Hres. }
  set (col1 := with_parent_depth col1' p d) in *.
  assert (Hcs : columns col1 = Some nested).
  { by rewrite (assignColumnAccessor_columns _ _ Hassign). }
  unfold linkColumn.
  erewrite mbind_Done by (by apply read_column_Some).
  erewrite mbind_Done by reflexivity.
  erewrite mbind_Done
    by (eapply assignColumnAccessor_at_Some; [apply lookup_alloc|exact Hassign]).
  rewrite insert_alloc.
  erewrite mbind_Done by (apply read_column_Some, lookup_alloc).
  rewrite Hcs. apply mbind_Thrown.
  eapply (IH fuel h0); [lia| |exact Hrest|exact Hbad].
  etrans; [exact Hpre0|]. by apply prefix_app_r.
Qed.

(** A configuration resolves throughout, or has a column without id that
    the materializer comes to first. *)
Lemma configuration_resolves_or_stops n : forall h cols,
  configuration n h cols ->
  materializable n h cols \/
  exists bad,
    reaches_first n h cols bad /\
    assignColumnAccessor bad = Throw (missing_id_error bad).
Proof.
  induction n as [|n IH]; intros h cols; [done|].
  intros (items & Hcols & Hitems).
  assert (Hlist :
    Forall (materializable_column n h) items \/
    exists before c after col bad,
      items = before ++ c :: after /\
      Forall (materializable_column n h) before /\
      h !! c = Some (CColumn col) /\
      assignColumnAccessor bad = Throw (missing_id_error bad) /\
      (col = bad \/
       (resolves col /\
        exists nested,
          columns col = Some nested /\ reaches_first n h nested bad))).
  { clear Hcols. induction Hitems as [|x items (col & Hx & Hshape) _ IHitems].
    { left. constructor. }
    destruct (assignColumnAccessor col) as [col1|msg] eqn:Eres.
    2:{ right. exists [], x, items, col, col.
        rewrite (assignColumnAccessor_Throw _ _ Eres) in Eres.
        repeat split; [constructor|done|done|by left]. }
    assert (Hres : resolves col) by (by eexists).
    assert (Hunder :
      match columns col with
      | None => True
      | Some nested => materializable n h nested
      end \/
      exists nested bad,
        columns col = Some nested /\ reaches_first n h nested bad /\
        assignColumnAccessor bad = Throw (missing_id_error bad)).
    { destruct (columns col) as [nested|]; [|by left].
      destruct (IH h nested Hshape) as [Hm|(bad & Hr & Hb)]; [by left|].
      right. by exists nested, bad. }
    destruct Hunder as [Hunder|(nested & bad & Hnest & Hr & Hb)].
    2:{ right. exists [], x, items, col, bad.
        repeat split; [constructor|done|done|]. right. split; [done|].
        by exists nested. }
    assert (Hmx : materializable_column n h x) by (by exists col).
    destruct IHitems
      as [Hall|(before & c & after & col' & bad & -> & Hb & Hc & Hbad & Hcase)].
    - left. by constructor.
    - right. exists (x :: before), c, after, col', bad.
      repeat split; [by constructor|done|done|done]. }
  destruct Hlist
    as [Hall|(before & c & after & col & bad & -> & Hb & Hc & Hbad & Hcase)].
  - left. by exists items.
  - right. exists bad. split; [|done]. by exists before, c, after, col.
Qed.

(** A configuration is materialized when every column of it resolves, and
    otherwise makes the materializer throw the error of the column without
    id it comes to first. *)
Lemma linkColumnStructure_outcome n fuel (h : heap) cols p d :
  n <= fuel -> configuration n h cols ->
  (materializable n h cols /\
   exists root, (linkColumnStructure fuel cols p d h).2 = Done root) \/
  (exists bad,
     reaches_first n h cols bad /\
     (linkColumnStructure fuel cols p d h).2 = Thrown (missing_id_error bad)).
Proof.
  intros Hfuel Hconf.
  destruct (configuration_resolves_or_stops n h cols Hconf)
    as [Hm|(bad & Hr & Hb)].
  - left. split; [done|].
    destruct (linkColumnStructure_linked n fuel h h cols p d Hfuel)
      as (h' & root & Hrun & _); [done..|].
    exists root. by rewrite Hrun.
  - right. exists bad. split; [done|].
    by eapply (linkColumnStructure_stops n fuel h h).
Qed.

(** C1 (as amended): the id is resolved in the order explicit id, string
    accessor, string label, each counting only when it is truthy (for a
    string: non-empty).  A column with a truthy [id] keeps it; one without,
    but with a non-empty string accessor, gets the accessor string; one with
    neither, but with a non-empty string [Header], gets the label; a column
    with none of the three makes [assignColumnAccessor] throw, and makes
    [linkColumnStructure] throw that error while the columns are
    materialized, at whatever place and depth of the configuration the
    column lies, when it is the first such column the materializer comes
    to. *)
Theorem column_id_resolution (col : column) :
  (truthy (id col) = true ->
     exists col', assignColumnAccessor col = Ok col' /\ id col' = id col) /\
  (forall s, truthy (id col) = false ->
     accessor col = AccValue (VStr s) -> s <> "" ->
     exists col', assignColumnAccessor col = Ok col' /\ id col' = VStr s) /\
  (forall s, truthy (id col) = false -> no_string_accessor col ->
     Header col = VStr s -> s <> "" ->
     exists col', assignColumnAccessor col = Ok col' /\ id col' = VStr s) /\
  (truthy (id col) = false -> no_string_accessor col -> no_string_label col ->
     assignColumnAccessor col = Throw (missing_id_error col) /\
     forall n fuel h cols p d,
       n <= fuel -> reaches_first n h cols col ->
       (linkColumnStructure fuel cols p d h).2
         = Thrown (missing_id_error col)).
Proof.
  split; [apply assignColumnAccessor_id|].
  split.
  { intros s Hid Hacc Hs.
    destruct (assignColumnAccessor_string_accessor col s Hid Hacc Hs)
      as (col' & ? & ? & _). eauto. }
  split; [apply assignColumnAccessor_label|].
  intros Hid Hacc Hlab.
  pose proof (assignColumnAccessor_missing col Hid Hacc Hlab) as Hmiss.
  split; [done|]. intros n fuel h cols p d Hfuel Hreach.
  by eapply (linkColumnStructure_stops n fuel h h).
Qed.

(** [[{ Header: 'Age', accessor }, { Header: 'Name',
      columns: [{ accessor: 'firstName' }, { accessor }] }]]: the last
    column, nested in the second, has no id, no string accessor and no
    label. *)
Definition unresolvable_configuration : list cell :=
  [ CColumn (configured VUndefined (AccValue (VStr "firstName")) VUndefined None);
    CColumn (configured VUndefined (AccValue (VFun 0)) VUndefined None);
    CArray [0; 1];
    CColumn (configured VUndefined (AccValue VUndefined) (VStr "Name") (Some 2));
    CColumn (configured VUndefined (AccValue (VFun 0)) (VStr "Age") None);
    CArray [4; 3] ].

Lemma unresolvable_configuration_reached :
  reaches_first 2 unresolvable_configuration 5
    (configured VUndefined (AccValue (VFun 0)) VUndefined None).
Proof.
  exists [4], 3, [], (configured VUndefined (AccValue VUndefined) (VStr "Name")
                        (Some 2)).
  split; [reflexivity|]. split.
  { constructor; [|constructor]. eexists. split; [reflexivity|].
    split; [by eexists|done]. }
  split; [reflexivity|]. right. split; [by eexists|].
  exists 2. split; [reflexivity|].
  exists [0], 1, [], (configured VUndefined (AccValue (VFun 0)) VUndefined None).
  split; [reflexivity|]. split.
  { constructor; [|constructor]. eexists. split; [reflexivity|].
    split; [by eexists|done]. }
  split; [reflexivity|]. by left.
Qed.

Lemma column_id_resolution_witness :
  (exists col',
     assignColumnAccessor
       (configured (VStr "ln") (AccValue (VStr "last.name")) VUndefined None)
       = Ok col' /\ id col' = VStr "ln") /\
  (exists col',
     assignColumnAccessor
       (configured VUndefined (AccValue (VStr "firstName")) VUndefined None)
       = Ok col' /\ id col' = VStr "firstName") /\
  (exists col',
     assignColumnAccessor
       (configured VUndefined (AccValue (VFun 0)) (VStr "Age") None)
       = Ok col' /\ id col' = VStr "Age") /\
  assignColumnAccessor
    (configured VUndefined (AccValue (VFun 0)) VUndefined None)
    = Throw accessor_required /\
  (linkColumnStructure 3 5 None 0 unresolvable_configuration).2
    = Thrown accessor_required.
Proof.
  split.
  { apply (proj1 (column_id_resolution
                    (configured (VStr "ln") (AccValue (VStr "last.name"))
                       VUndefined None))). reflexivity. }
  split.
  { apply (proj1 (proj2 (column_id_resolution
                    (configured VUndefined (AccValue (VStr "firstName"))
                       VUndefined None)))); [reflexivity|reflexivity|].
    discriminate. }
  split.
  { apply (proj1 (proj2 (proj2 (column_id_resolution
                    (configured VUndefined (AccValue (VFun 0)) (VStr "Age")
                       None))))); [reflexivity| |reflexivity|discriminate].
    intros s. discriminate. }
  assert (H : truthy (id (configured VUndefined (AccValue (VFun 0)) VUndefined
                            None)) = false ->
              no_string_accessor
                (configured VUndefined (AccValue (VFun 0)) VUndefined None) ->
              no_string_label
                (configured VUndefined (AccValue (VFun 0)) VUndefined None) ->
              _)
    by exact (proj2 (proj2 (proj2 (column_id_resolution
                (configured VUndefined (AccValue (VFun 0)) VUndefined None))))).
  destruct H as [Hthrow Hlink];
    [reflexivity|intros s; discriminate|intros s; discriminate|].
  split; [exact Hthrow|].
  apply (Hlink 2 3 unresolvable_configuration 5 None 0); [lia|].
  apply unresolvable_configuration_reached.
Defined.

(** C1 as stated fails at an explicit id that is falsy and at an empty
    string accessor: [{ id: '', accessor: 'firstName' }] is materialized with
    the id ['firstName'], and [{ accessor: '' }] throws. *)
Lemma falsy_id_is_not_kept :
  (exists col',
     assignColumnAccessor
       (configured (VStr "") (AccValue (VStr "firstName")) VUndefined None)
       = Ok col' /\ id col' = VStr "firstName" /\ id col' <> VStr "") /\
  assignColumnAccessor
    (configured VUndefined (AccValue (VStr "")) VUndefined None)
    = Throw accessor_required.
Proof.
  split; [|reflexivity]. eexists. split; [reflexivity|].
  split; [reflexivity|discriminate].
Qed.

End Columns.

(** ** Header groups: [makeHeaderGroups], [decorateColumn] *)

Module Headers.
Import Js.

(** A materialized column as the header-group builder reads it: its id (a
    string, as the template literals render it), its parent chain, and, on
    the header cells the builder makes, [originalId], [headers] and
    [placeholderOf].  [others] holds the properties that are only copied. *)
Inductive column : Type := Column {
  id : string;
  originalId : option string;
  parent : option column;
  headers : option (list column);
  placeholderOf : option column;
  others : list (string * value)
}.

Record headerGroup : Type := HeaderGroup { group_headers : list column }.

(** How the builder ends: its loop runs while the scanned columns have
    parents, and is cut off here by a bound on the rounds. *)
Inductive outcome (A : Type) : Type :=
| Done (a : A)
| Thrown (msg : string)
| OutOfFuel.
Arguments Done {A} a.
Arguments Thrown {A} msg.
Arguments OutOfFuel {A}.

(** Length of the parent chain of a column. *)
Fixpoint height (c : column) : nat :=
  match c with
  | Column _ _ (Some p) _ _ _ => S (height p)
  | Column _ _ None _ _ _ => 0
  end.

Definition max_height (cols : list column) : nat :=
  foldr (fun c m => Nat.max (height c) m) 0 cols.

(** Number of leaf columns a header covers. *)
Fixpoint span (c : column) : nat :=
  match c with
  | Column _ _ _ (Some hs) _ _ => list_sum (map span hs)
  | Column _ _ _ None _ _ => 1
  end.

Definition total_span (cols : list column) : nat := list_sum (map span cols).

Definition has_parent (c : column) : bool :=
  match parent c with
  | Some _ => true
  | None => false
  end.

Section Builder.

(** The library's [defaultColumn] (imported from [publicUtils]) and the two
    fallback renderers [decorateColumn] installs. *)
Variable defaultColumn : list (string * value).
Variables fallback_Header fallback_Footer : value.

(** [decorateColumn(column, userDefaultColumn)]: the column's own properties
    win over the user's defaults, these over the library's, these over the
    fallbacks.  A template carries rendering properties only. *)
Definition decorateColumn (col : column)
    (userDefaultColumn : option (list (string * value))) : result column :=
  match userDefaultColumn with
  | None => Throw ""
  | Some user =>
      Ok (Column (id col) (originalId col) (parent col) (headers col)
            (placeholderOf col)
            (others col ++ user ++ defaultColumn
               ++ [("Header", fallback_Header); ("Footer", fallback_Footer)]))
  end.

(** [latestParentColumn.headers.push(column)] *)
Definition push_header (latest col : column) : column :=
  Column (id latest) (originalId latest) (parent latest)
    (Some (default [] (headers latest) ++ [col]))
    (placeholderOf latest) (others latest).

(** The parent a scanned column asks for: a copy of its real parent, or a
    placeholder when it has none. [uid] is the value [getUID()] returns. *)
Definition newParent (userDefaultColumn : option (list (string * value)))
    (uid : nat) (col : column) : result column :=
  match parent col with
  | Some p =>
      Ok (Column (id p +:+ "_" +:+ pretty uid) (Some (id p)) (parent p)
            (Some [col]) (placeholderOf p) (others p))
  | None =>
      decorateColumn
        (Column (id col +:+ "_placeholder_" +:+ pretty uid)
           (Some (id col +:+ "_placeholder")) None (Some [col]) (Some col) [])
        userDefaultColumn
  end.

(** The body of [scanColumns.forEach], on [parentColumns] and the counter
    behind [getUID]. *)
Definition scanColumn (userDefaultColumn : option (list (string * value)))
    (hasParents : bool) (acc : list column * nat) (col : column)
  : result (list column * nat) :=
  let '(parentColumns, uid) := acc in
  if hasParents then
    match newParent userDefaultColumn uid col with
    | Throw msg => Throw msg
    | Ok np =>
        match last parentColumns with
        | Some latest =>
            if bool_decide (originalId latest = originalId np)
            then Ok (removelast parentColumns ++ [push_header latest col],
                     S uid)
            else Ok (parentColumns ++ [np], S uid)
        | None => Ok (parentColumns ++ [np], S uid)
        end
    end
  else Ok (parentColumns, uid).

Fixpoint scan (userDefaultColumn : option (list (string * value)))
    (hasParents : bool) (scanColumns : list column)
    (acc : list column * nat) : result (list column * nat) :=
  match scanColumns with
  | [] => Ok acc
  | col :: rest =>
      match scanColumn userDefaultColumn hasParents acc col with
      | Throw msg => Throw msg
      | Ok acc' => scan userDefaultColumn hasParents rest acc'
      end
  end.

(** The [while (scanColumns.length)] loop. *)
Fixpoint scanLevels (fuel : nat)
    (userDefaultColumn : option (list (string * value)))
    (scanColumns : list column) (uid : nat)
    (headerGroups : list headerGroup) : outcome (list headerGroup) :=
  match scanColumns with
  | [] => Done headerGroups
  | _ :: _ =>
      match fuel with
      | O => OutOfFuel
      | S fuel' =>
          let hasParents := existsb has_parent scanColumns in
          match scan userDefaultColumn hasParents scanColumns ([], uid) with
          | Throw msg => Thrown msg
          | Ok (parentColumns, uid') =>
              scanLevels fuel' userDefaultColumn parentColumns uid'
                (headerGroups ++ [HeaderGroup scanColumns])
          end
      end
  end.

(** [makeHeaderGroups(allColumns, defaultColumn)] *)
Definition makeHeaderGroups (fuel : nat) (allColumns : list column)
    (userDefaultColumn : option (list (string * value)))
  : outcome (list headerGroup) :=
  match scanLevels fuel userDefaultColumn allColumns 0 [] with
  | Done headerGroups => Done (reverse headerGroups)
  | Thrown msg => Thrown msg
  | OutOfFuel => OutOfFuel
  end.

(** *** What the claims say of the builder *)

(** The value [originalId] of the parent a column asks for: the id of its
    real parent, or its own id marked as a placeholder. *)
Definition parent_key (col : column) : string :=
  match parent col with
  | Some p => id p
  | None => id col +:+ "_placeholder"
  end.

(** Put a column in front of the runs of the columns after it: into the
    first run when that one asks for the same parent, else as a run of its
    own. *)
Definition prepend (col : column) (runs : list (string * list column))
  : list (string * list column) :=
  match runs with
  | (k, run) :: more =>
      if bool_decide (parent_key col = k) then (k, col :: run) :: more
      else (parent_key col, [col]) :: (k, run) :: more
  | [] => [(parent_key col, [col])]
  end.

(** The maximal runs of adjacent columns that ask for the same parent, each
    with the parent's key. *)
Fixpoint merge_adjacent (cols : list column) : list (string * list column) :=
  match cols with
  | [] => []
  | col :: rest => prepend col (merge_adjacent rest)
  end.

(** A header cell, as the claims look at it: the parent it stands for and
    the columns under it. *)
Definition cell_of (p : column) : option string * option (list column) :=
  (originalId p, headers p).

(** The cell a run is merged into. *)
Definition cell_of_run (kr : string * list column)
  : option string * option (list column) :=
  (Some kr.1, Some kr.2).

(** The builder's way to the runs: take the columns left to right, each
    into the last run or into a new one. *)
Definition absorb (runs : list (string * list column)) (col : column)
  : list (string * list column) :=
  match last runs with
  | Some (k, run) =>
      if bool_decide (k = parent_key col)
      then removelast runs ++ [(k, run ++ [col])]
      else runs ++ [(parent_key col, [col])]
  | None => [(parent_key col, [col])]
  end.

Definition run_of (p : column) : string * list column :=
  (default "" (originalId p), default [] (headers p)).

(** The columns the cells of a header row cover, in order. *)
Definition covered (ps : list column) : list column :=
  concat (map (fun p => default [] (headers p)) ps).

(** *** One scan *)

Lemma newParent_facts u uid col np :
  newParent u uid col = Ok np ->
  originalId np = Some (parent_key col) /\ headers np = Some [col] /\
  height np = pred (height col).
Proof.
  unfold newParent, parent_key, decorateColumn.
  destruct col as [i o [p|] hs ph ot]; cbn.
  - intros [= <-]. by destruct p as [? ? [?|] ? ? ?].
  - destruct u; [|done]. by intros [= <-].
Qed.

Lemma newParent_defined u uid col :
  is_Some u \/ has_parent col = true -> exists np, newParent u uid col = Ok np.
Proof.
  unfold newParent, has_parent, decorateColumn.
  destruct (parent col); [by eexists|].
  intros [[user ->]|?]; [by eexists|done].
Qed.

Lemma last_split {A} (l : list A) x :
  last l = Some x -> l = removelast l ++ [x].
Proof.
  intros (l' & ->)%last_Some. by rewrite removelast_last.
Qed.

Lemma height_push_header latest col :
  height (push_header latest col) = height latest.
Proof. by destruct latest as [? ? [?|] ? ? ?]. Qed.

(** What one column does to [parentColumns]. *)
Lemma scanColumn_true u ps uid col acc :
  scanColumn u true (ps, uid) col = Ok acc ->
  exists np, newParent u uid col = Ok np /\ acc.2 = S uid /\
    ((exists front latest,
        ps = front ++ [latest] /\ originalId latest = originalId np /\
        acc.1 = front ++ [push_header latest col]) \/
     ((forall latest, last ps = Some latest ->
         originalId latest <> originalId np) /\
      acc.1 = ps ++ [np])).
Proof.
  unfold scanColumn.
  destruct (newParent u uid col) as [np|msg]; [|done].
  intros H. exists np. split; [done|].
  destruct (last ps) as [latest|] eqn:Hlast.
  - case_bool_decide as Heq; injection H as <-; (split; [done|]).
    + left. exists (removelast ps), latest.
      split; [by apply last_split|]. done.
    + right. split; [|done]. by intros ? [= <-].
  - injection H as <-. split; [done|]. right. by split.
Qed.

Lemma scan_false u cols acc : scan u false cols acc = Ok acc.
Proof.
  revert acc. induction cols as [|col cols IH]; intros [ps uid]; [done|].
  cbn. apply IH.
Qed.

Lemma covered_app ps qs : covered (ps ++ qs) = covered ps ++ covered qs.
Proof. unfold covered. by rewrite map_app, concat_app. Qed.

Lemma covered_one p : covered [p] = default [] (headers p).
Proof. unfold covered. cbn. by rewrite app_nil_r. Qed.

(** Every scanned column ends under exactly one cell, in scan order; the
    parents are one level up. *)
Lemma scan_true u cols : forall ps uid ps' uid' m,
  scan u true cols (ps, uid) = Ok (ps', uid') ->
  Forall (fun p => is_Some (headers p)) ps ->
  Forall (fun p => height p <= m) ps ->
  Forall (fun c => height c <= S m) cols ->
  Forall (fun p => is_Some (headers p)) ps' /\
  Forall (fun p => height p <= m) ps' /\
  covered ps' = covered ps ++ cols /\
  uid' = uid + length cols.
Proof.
  induction cols as [|col cols IH]; intros ps uid ps' uid' m Hscan Hcells Hh Hc.
  - injection Hscan as <- <-. rewrite app_nil_r. repeat split; [done..|].
    cbn. lia.
  - cbn [scan] in Hscan.
    destruct (scanColumn u true (ps, uid) col) as [[ps1 uid1]|] eqn:Hcol;
      [|done].
    apply Forall_cons in Hc as [Hcol_h Hc].
    destruct (scanColumn_true _ _ _ _ _ Hcol) as (np & Hnp & Huid & Hcase).
    destruct (newParent_facts _ _ _ _ Hnp) as (Hkey & Hhd & Hht).
    cbn [fst snd] in *. subst uid1.
    assert (Hstep : Forall (fun p => is_Some (headers p)) ps1 /\
                    Forall (fun p => height p <= m) ps1 /\
                    covered ps1 = covered ps ++ [col]).
    { destruct Hcase as [(front & latest & -> & Heq & ->)|[_ ->]].
      - apply Forall_app in Hcells as [Hfront Hlatest].
        apply Forall_app in Hh as [Hhf Hhl].
        rewrite Forall_singleton in Hlatest. destruct Hlatest as [hs Hhs].
        rewrite Forall_singleton in Hhl.
        split; [|split].
        + apply Forall_app. split; [done|]. by apply Forall_singleton.
        + apply Forall_app. split; [done|]. apply Forall_singleton.
          by rewrite height_push_header.
        + rewrite !covered_app, !covered_one. cbn. rewrite Hhs. cbn.
          by rewrite app_assoc.
      - split; [|split].
        + apply Forall_app. split; [done|]. apply Forall_singleton.
          by rewrite Hhd.
        + apply Forall_app. split; [done|]. apply Forall_singleton. lia.
        + rewrite covered_app, covered_one. by rewrite Hhd. }
    destruct Hstep as (Hc1 & Hh1 & Hcov1).
    destruct (IH ps1 (S uid) ps' uid' m Hscan Hc1 Hh1 Hc)
      as (? & ? & Hcov & ->).
    repeat split; [done..| |cbn; lia].
    rewrite Hcov, Hcov1. by rewrite <- app_assoc.
Qed.

Lemma scan_defined u hasParents cols : forall acc,
  is_Some u \/ Forall (fun c => has_parent c = true) cols ->
  exists acc', scan u hasParents cols acc = Ok acc'.
Proof.
  induction cols as [|col cols IH]; intros [ps uid] Hu; [by eexists|].
  cbn [scan].
  assert (Hnp : exists np, newParent u uid col = Ok np).
  { apply newParent_defined. destruct Hu as [?|Hall]; [by left|right].
    by apply Forall_cons in Hall as [? _]. }
  destruct Hnp as [np Hnp].
  assert (Hrest : is_Some u \/ Forall (fun c => has_parent c = true) cols).
  { destruct Hu as [?|Hall]; [by left|right].
    by apply Forall_cons in Hall as [_ ?]. }
  unfold scanColumn. destruct hasParents; [|by apply IH].
  rewrite Hnp. destruct (last ps); [case_bool_decide|]; by apply IH.
Qed.

(** A cell spans what the columns under it span. *)
Lemma total_span_covered ps :
  Forall (fun p => is_Some (headers p)) ps ->
  total_span ps = total_span (covered ps).
Proof.
  unfold total_span. induction 1 as [|p ps [hs Hhs] _ IH]; [done|].
  change (covered (p :: ps)) with (default [] (headers p) ++ covered ps).
  rewrite map_app, list_sum_app, <- IH, Hhs. cbn [map list_sum default].
  f_equal. destruct p as [? ? ? ? ? ?]. cbn in Hhs. by subst.
Qed.

Lemma max_height_Forall cols m :
  max_height cols <= m <-> Forall (fun c => height c <= m) cols.
Proof.
  unfold max_height. induction cols as [|c cols IH]; cbn.
  - split; [by constructor|lia].
  - rewrite Forall_cons, <- IH. lia.
Qed.

Lemma no_parent_height cols :
  existsb has_parent cols = false -> Forall (fun c => height c <= 0) cols.
Proof.
  induction cols as [|c cols IH]; [by constructor|]. cbn.
  intros [Hc Hcols]%orb_false_iff. constructor; [|by apply IH].
  unfold has_parent in Hc. by destruct c as [? ? [?|] ? ? ?].
Qed.

(** *** The loop *)

Lemma scanLevels_nil fuel u uid gs : scanLevels fuel u [] uid gs = Done gs.
Proof. by destruct fuel. Qed.

Lemma scanLevels_step fuel u col cols uid gs r :
  scanLevels fuel u (col :: cols) uid gs = Done r ->
  exists fuel' ps uid',
    fuel = S fuel' /\
    scan u (existsb has_parent (col :: cols)) (col :: cols) ([], uid)
      = Ok (ps, uid') /\
    scanLevels fuel' u ps uid' (gs ++ [HeaderGroup (col :: cols)]) = Done r.
Proof.
  destruct fuel as [|fuel']; [done|]. cbn [scanLevels].
  destruct (scan u _ (col :: cols) ([], uid)) as [[ps uid']|]; [|done].
  intros H. by exists fuel', ps, uid'.
Qed.

Lemma scanLevels_extends fuel : forall u cols uid gs r,
  scanLevels fuel u cols uid gs = Done r -> exists more, r = gs ++ more.
Proof.
  induction fuel as [|fuel IH]; intros u [|col cols] uid gs r H;
    try (cbn in H; injection H as <-; exists []; by rewrite app_nil_r);
    [done|].
  apply scanLevels_step in H as (fuel' & ps & uid' & [= <-] & _ & H).
  destruct (IH _ _ _ _ _ H) as [more ->]. rewrite <- app_assoc. by eexists.
Qed.

Lemma max_height_cons c cols :
  max_height (c :: cols) = Nat.max (height c) (max_height cols).
Proof. reflexivity. Qed.

Lemma has_parent_height cols :
  existsb has_parent cols = true -> 1 <= max_height cols.
Proof.
  induction cols as [|c cols IH]; [done|]. rewrite max_height_cons.
  cbn [existsb]. intros [Hc|Hcols]%orb_true_iff; [|specialize (IH Hcols); lia].
  assert (1 <= height c); [|lia].
  unfold has_parent in Hc. destruct c as [? ? [?|] ? ? ?]; [cbn; lia|done].
Qed.

(** Every scan hands the loop parents that span what it was given. *)
Lemma scan_level_span u cols uid ps uid' :
  existsb has_parent cols = true ->
  scan u true cols ([], uid) = Ok (ps, uid') ->
  total_span ps = total_span cols /\ covered ps = cols /\
  max_height ps <= pred (max_height cols).
Proof.
  intros Hp Hscan.
  destruct (scan_true u cols [] uid ps uid' (pred (max_height cols)) Hscan)
    as (Hcells & Hh & Hcov & _); [by constructor..| |].
  { apply max_height_Forall. apply has_parent_height in Hp. lia. }
  cbn in Hcov. split; [|split; [done|by apply max_height_Forall]].
  by rewrite total_span_covered, Hcov.
Qed.

Lemma scanLevels_spans fuel : forall u cols uid gs r T,
  scanLevels fuel u cols uid gs = Done r ->
  Forall (fun g => total_span (group_headers g) = T) gs ->
  total_span cols = T ->
  Forall (fun g => total_span (group_headers g) = T) r.
Proof.
  induction fuel as [|fuel IH]; intros u [|col cols] uid gs r T H Hgs HT;
    try (cbn in H; by injection H as <-); [done|].
  apply scanLevels_step in H as (fuel' & ps & uid' & [= <-] & Hscan & H).
  assert (Hgs' : Forall (fun g => total_span (group_headers g) = T)
                   (gs ++ [HeaderGroup (col :: cols)])).
  { apply Forall_app. split; [done|]. by apply Forall_singleton. }
  destruct (existsb has_parent (col :: cols)) eqn:Hp.
  - destruct (scan_level_span _ _ _ _ _ Hp Hscan) as (Hspan & _ & _).
    eapply IH; [exact H|done|]. by rewrite Hspan.
  - rewrite scan_false in Hscan. injection Hscan as <- <-.
    rewrite scanLevels_nil in H. by injection H as <-.
Qed.

Lemma scanLevels_defined fuel : forall u cols uid gs,
  is_Some u -> max_height cols < fuel ->
  exists r, scanLevels fuel u cols uid gs = Done r.
Proof.
  induction fuel as [|fuel IH]; intros u [|col cols] uid gs Hu Hfuel;
    try (by eexists); [lia|].
  cbn [scanLevels].
  destruct (scan_defined u (existsb has_parent (col :: cols)) (col :: cols)
              ([], uid)) as [[ps uid'] Hscan]; [by left|].
  rewrite Hscan. destruct (existsb has_parent (col :: cols)) eqn:Hp.
  - destruct (scan_level_span _ _ _ _ _ Hp Hscan) as (_ & _ & Hh).
    apply IH; [done|]. apply has_parent_height in Hp. lia.
  - rewrite scan_false in Hscan. injection Hscan as <- <-.
    rewrite scanLevels_nil. by eexists.
Qed.

(** The groups come out leaf row first; the last one built has no parents
    left to scan. *)
Lemma scanLevels_shape fuel : forall u col cols uid gs r,
  scanLevels fuel u (col :: cols) uid gs = Done r ->
  exists upper root,
    r = gs ++ HeaderGroup (col :: cols) :: upper /\
    last (HeaderGroup (col :: cols) :: upper) = Some root /\
    existsb has_parent (group_headers root) = false.
Proof.
  induction fuel as [|fuel IH]; intros u col cols uid gs r H; [done|].
  apply scanLevels_step in H as (fuel' & ps & uid' & [= <-] & Hscan & H).
  destruct ps as [|p ps].
  - rewrite scanLevels_nil in H. injection H as <-.
    exists [], (HeaderGroup (col :: cols)). split; [done|]. split; [done|].
    destruct (existsb has_parent (col :: cols)) eqn:Hp; [|done].
    by destruct (scan_level_span _ _ _ _ _ Hp Hscan) as (_ & ? & _).
  - destruct (IH _ _ _ _ _ _ H) as (upper & root & -> & Hlast & Hroot).
    exists (HeaderGroup (p :: ps) :: upper), root.
    split; [by rewrite <- app_assoc|]. split; [|done].
    by rewrite last_cons, Hlast.
Qed.

(** C3: every header group [makeHeaderGroups] returns spans what the
    columns it was given span, which for leaf columns is their number; and
    with a default column and fuel for the deepest parent chain it does
    return. *)
Theorem header_groups_rectangular fuel allColumns u :
  (forall groups, makeHeaderGroups fuel allColumns u = Done groups ->
     Forall (fun g => total_span (group_headers g) = total_span allColumns)
       groups) /\
  (Forall (fun c => headers c = None) allColumns ->
     total_span allColumns = length allColumns) /\
  (is_Some u -> max_height allColumns < fuel ->
     exists groups, makeHeaderGroups fuel allColumns u = Done groups).
Proof.
  unfold makeHeaderGroups. split; [|split].
  - intros groups.
    destruct (scanLevels fuel u allColumns 0 []) as [r| |] eqn:H; [|done..].
    intros [= <-]. apply Forall_reverse.
    by eapply scanLevels_spans; [exact H|constructor|].
  - unfold total_span. induction 1 as [|c cols Hc _ IH]; [done|].
    change (list_sum (map span (c :: cols)))
      with (span c + list_sum (map span cols)).
    rewrite IH. assert (span c = 1) as ->; [|done].
    destruct c as [? ? ? ? ? ?]. cbn in Hc. by subst.
  - intros Hu Hfuel.
    destruct (scanLevels_defined fuel u allColumns 0 [] Hu Hfuel) as [r ->].
    by eexists.
Qed.

(** *** Merging adjacent parents *)

Lemma absorb_nil c : absorb [] c = [(parent_key c, [c])].
Proof. reflexivity. Qed.

Lemma absorb_cons x y l c : absorb (x :: y :: l) c = x :: absorb (y :: l) c.
Proof.
  unfold absorb. rewrite last_cons_cons.
  destruct (last (y :: l)) as [[k run]|] eqn:Hl.
  - case_bool_decide; [|done].
    change (removelast (x :: y :: l)) with (x :: removelast (y :: l)). done.
  - by apply last_None in Hl.
Qed.

Lemma prepend_absorb a runs c :
  prepend a (absorb runs c) = absorb (prepend a runs) c.
Proof.
  destruct runs as [|[k run] [|y l]].
  - cbn. unfold absorb. cbn. repeat case_bool_decide; congruence.
  - unfold absorb at 1. cbn [last removelast app prepend].
    case_bool_decide as Hk; cbn [prepend];
      case_bool_decide as Ha; unfold absorb; cbn;
      repeat case_bool_decide; congruence.
  - rewrite absorb_cons. cbn [prepend].
    case_bool_decide; by rewrite !absorb_cons.
Qed.

Lemma merge_adjacent_snoc cols c :
  merge_adjacent (cols ++ [c]) = absorb (merge_adjacent cols) c.
Proof.
  induction cols as [|a cols IH]; [done|].
  cbn [app merge_adjacent]. by rewrite IH, prepend_absorb.
Qed.

Lemma fold_absorb cols : forall pre,
  fold_left absorb cols (merge_adjacent pre) = merge_adjacent (pre ++ cols).
Proof.
  induction cols as [|c cols IH]; intros pre; [by rewrite app_nil_r|].
  cbn [fold_left]. rewrite <- merge_adjacent_snoc, IH.
  by rewrite <- app_assoc.
Qed.

Definition is_cell (p : column) : Prop :=
  is_Some (originalId p) /\ is_Some (headers p).

Lemma cell_of_run_of p : is_cell p -> cell_of p = cell_of_run (run_of p).
Proof.
  intros [[k Hk] [hs Hhs]]. unfold cell_of, cell_of_run, run_of.
  by rewrite Hk, Hhs.
Qed.

(** One scan takes the columns into runs as [absorb] does. *)
Lemma scan_runs u cols : forall ps uid ps' uid',
  scan u true cols (ps, uid) = Ok (ps', uid') ->
  Forall is_cell ps ->
  Forall is_cell ps' /\
  run_of <$> ps' = fold_left absorb cols (run_of <$> ps).
Proof.
  induction cols as [|col cols IH]; intros ps uid ps' uid' Hscan Hcells.
  - by injection Hscan as <- <-.
  - cbn [scan] in Hscan.
    destruct (scanColumn u true (ps, uid) col) as [[ps1 uid1]|] eqn:Hcol;
      [|done].
    destruct (scanColumn_true _ _ _ _ _ Hcol) as (np & Hnp & _ & Hcase).
    destruct (newParent_facts _ _ _ _ Hnp) as (Hkey & Hhd & _).
    cbn [fst snd] in Hcase.
    assert (Hstep : Forall is_cell ps1 /\
                    run_of <$> ps1 = absorb (run_of <$> ps) col).
    { destruct Hcase as [(front & latest & -> & Heq & ->)|[Hne ->]].
      - apply Forall_app in Hcells as [Hfront Hlatest].
        rewrite Forall_singleton in Hlatest.
        destruct Hlatest as [[k Hk] [hs Hhs]]. split.
        + apply Forall_app. split; [done|]. apply Forall_singleton.
          split; [by exists k|by eexists].
        + rewrite !fmap_app. cbn [fmap list_fmap]. unfold absorb.
          rewrite last_snoc, removelast_last.
          assert (Hrl : run_of latest = (k, hs)).
          { unfold run_of. by rewrite Hk, Hhs. }
          assert (Hrp : run_of (push_header latest col) = (k, hs ++ [col])).
          { unfold run_of, push_header. cbn. by rewrite Hk, Hhs. }
          rewrite Hrl, Hrp. by rewrite bool_decide_true by congruence.
      - split.
        + apply Forall_app. split; [done|]. apply Forall_singleton.
          split; [by rewrite Hkey|by rewrite Hhd].
        + rewrite fmap_app. cbn [fmap list_fmap]. unfold absorb.
          rewrite fmap_last.
          assert (Hnew : run_of np = (parent_key col, [col])).
          { unfold run_of. by rewrite Hkey, Hhd. }
          destruct (last ps) as [latest|] eqn:Hlast; cbn [fmap option_fmap option_map].
          * pose proof (Hne latest eq_refl) as Hne'.
            assert (Hlc : is_cell latest).
            { apply last_Some in Hlast as [front ->].
              apply Forall_app in Hcells as [_ Hl].
              by rewrite Forall_singleton in Hl. }
            destruct Hlc as [[k Hk] [hs Hhs]].
            assert (Hrl : run_of latest = (k, hs)).
            { unfold run_of. by rewrite Hk, Hhs. }
            rewrite Hrl, Hnew. by rewrite bool_decide_false by congruence.
          * apply last_None in Hlast as ->. by rewrite Hnew. }
    destruct Hstep as [Hc1 Hr1].
    destruct (IH _ _ _ _ Hscan Hc1) as [? Hr]. split; [done|].
    cbn [fold_left]. by rewrite Hr, Hr1.
Qed.

Lemma scan_merge_adjacent u cols uid ps uid' :
  scan u true cols ([], uid) = Ok (ps, uid') ->
  cell_of <$> ps = cell_of_run <$> merge_adjacent cols.
Proof.
  intros Hscan.
  destruct (scan_runs u cols [] uid ps uid' Hscan) as [Hcells Hruns];
    [by constructor|].
  change (run_of <$> []) with (merge_adjacent []) in Hruns.
  rewrite fold_absorb in Hruns. cbn [app] in Hruns. rewrite <- Hruns.
  rewrite <- list_fmap_compose. apply Forall_fmap_ext.
  eapply Forall_impl; [exact Hcells|]. intros p Hp. by apply cell_of_run_of.
Qed.

Lemma merge_adjacent_head cols c :
  head cols = Some c ->
  exists run more, merge_adjacent cols = (parent_key c, run) :: more.
Proof.
  destruct cols as [|c' rest]; [done|]. intros [= ->]. cbn [merge_adjacent].
  unfold prepend. destruct (merge_adjacent rest) as [|[k run] more];
    [by eexists _, _|].
  case_bool_decide as Hk; [subst k|]; by eexists _, _.
Qed.

Lemma merge_adjacent_run k run post :
  run <> [] -> Forall (fun c => parent_key c = k) run ->
  (forall c, head post = Some c -> parent_key c <> k) ->
  merge_adjacent (run ++ post) = (k, run) :: merge_adjacent post.
Proof.
  induction run as [|c run IH]; [done|]. intros _ Hall Hpost.
  apply Forall_cons in Hall as [Hc Hall]. destruct run as [|c' run'].
  - cbn [app merge_adjacent]. destruct post as [|d post'].
    + cbn. by rewrite Hc.
    + destruct (merge_adjacent_head (d :: post') d eq_refl)
        as (r & more & Hm).
      rewrite Hm. unfold prepend.
      rewrite bool_decide_false; [by rewrite Hc|].
      rewrite Hc. intros Heq. by apply (Hpost d).
  - change (merge_adjacent ((c :: c' :: run') ++ post))
      with (prepend c (merge_adjacent ((c' :: run') ++ post))).
    rewrite IH by done. unfold prepend. by rewrite bool_decide_true.
Qed.

Lemma prepend_app a X Y : X <> [] -> prepend a (X ++ Y) = prepend a X ++ Y.
Proof.
  destruct X as [|[k r] X']; [done|]. intros _. cbn. by case_bool_decide.
Qed.

Lemma prepend_nonempty a X : prepend a X <> [].
Proof. destruct X as [|[k r] X']; cbn; [done|]. by case_bool_decide. Qed.

Lemma merge_adjacent_app pre L k :
  (forall c, last pre = Some c -> parent_key c <> k) ->
  (exists run more, merge_adjacent L = (k, run) :: more) ->
  merge_adjacent (pre ++ L) = merge_adjacent pre ++ merge_adjacent L.
Proof.
  induction pre as [|a pre IH]; [done|]. intros Hlast HL.
  destruct pre as [|a' pre'].
  - cbn [app merge_adjacent]. destruct HL as (run & more & ->).
    unfold prepend. rewrite bool_decide_false; [done|]. by apply Hlast.
  - change (merge_adjacent ((a :: a' :: pre') ++ L))
      with (prepend a (merge_adjacent ((a' :: pre') ++ L))).
    rewrite IH; [|by intros c Hc; apply Hlast; rewrite last_cons_cons|done].
    rewrite prepend_app; [done|]. apply prepend_nonempty.
Qed.

(** A block of adjacent columns that ask for one parent, between neighbours
    that ask for another, is one run. *)
Lemma merge_adjacent_block pre run post k :
  run <> [] -> Forall (fun c => parent_key c = k) run ->
  (forall c, last pre = Some c -> parent_key c <> k) ->
  (forall c, head post = Some c -> parent_key c <> k) ->
  merge_adjacent (pre ++ run ++ post)
    = merge_adjacent pre ++ (k, run) :: merge_adjacent post.
Proof.
  intros Hne Hall Hpre Hpost.
  pose proof (merge_adjacent_run k run post Hne Hall Hpost) as Hrun.
  rewrite (merge_adjacent_app pre (run ++ post) k Hpre); [by rewrite Hrun|].
  rewrite Hrun. by eexists _, _.
Qed.

(** C7 (as amended): [makeHeaderGroups] builds the header groups from the
    given columns upward and reverses the sequence itself before returning
    it: the group returned last is the group of exactly the given columns,
    the group returned first is the outermost one, whose headers have no
    parent. *)
Theorem header_groups_leaf_row_last fuel allColumns u :
  allColumns <> [] ->
  (is_Some u -> max_height allColumns < fuel ->
     exists groups, makeHeaderGroups fuel allColumns u = Done groups) /\
  (forall groups, makeHeaderGroups fuel allColumns u = Done groups ->
     last groups = Some (HeaderGroup allColumns) /\
     exists root, head groups = Some root /\
       existsb has_parent (group_headers root) = false).
Proof.
  intros Hne. split.
  - intros Hu Hfuel. unfold makeHeaderGroups.
    destruct (scanLevels_defined fuel u allColumns 0 [] Hu Hfuel) as [r ->].
    by eexists.
  - intros groups. unfold makeHeaderGroups.
    destruct (scanLevels fuel u allColumns 0 []) as [r| |] eqn:H; [|done..].
    intros [= <-]. destruct allColumns as [|col cols]; [done|].
    destruct (scanLevels_shape _ _ _ _ _ _ _ H) as (upper & root & -> & Hl & Hr).
    cbn [app]. split; [by rewrite last_reverse|].
    exists root. by rewrite head_reverse.
Qed.

(** C8: the header group above the given columns has one cell for each
    maximal run of adjacent columns that ask for the same parent (the same
    [originalId]), the cell's [headers] being the run in order; so adjacent
    columns with one parent share one cell, and columns that are not
    adjacent, or ask for different parents, get cells of their own. *)
Theorem adjacent_parents_merged fuel allColumns u :
  existsb has_parent allColumns = true ->
  (is_Some u -> max_height allColumns < fuel ->
     exists groups, makeHeaderGroups fuel allColumns u = Done groups) /\
  (forall groups, makeHeaderGroups fuel allColumns u = Done groups ->
     exists upper next,
       groups = upper ++ [next; HeaderGroup allColumns] /\
       cell_of <$> group_headers next
         = cell_of_run <$> merge_adjacent allColumns) /\
  (forall pre run post k,
     allColumns = pre ++ run ++ post ->
     run <> [] -> Forall (fun c => parent_key c = k) run ->
     (forall c, last pre = Some c -> parent_key c <> k) ->
     (forall c, head post = Some c -> parent_key c <> k) ->
     merge_adjacent allColumns
       = merge_adjacent pre ++ (k, run) :: merge_adjacent post).
Proof.
  intros Hp. split; [|split].
  - intros Hu Hfuel. unfold makeHeaderGroups.
    destruct (scanLevels_defined fuel u allColumns 0 [] Hu Hfuel) as [r ->].
    by eexists.
  - intros groups. unfold makeHeaderGroups.
    destruct (scanLevels fuel u allColumns 0 []) as [r| |] eqn:H; [|done..].
    intros [= <-]. destruct allColumns as [|col cols]; [done|].
    apply scanLevels_step in H as (fuel' & ps & uid' & -> & Hscan & H).
    rewrite Hp in Hscan.
    pose proof (scan_merge_adjacent _ _ _ _ _ Hscan) as Hcells.
    destruct ps as [|p ps].
    { destruct (scan_level_span _ _ _ _ _ Hp Hscan) as (_ & ? & _). done. }
    destruct (scanLevels_shape _ _ _ _ _ _ _ H) as (upper & root & -> & _).
    exists (reverse upper), (HeaderGroup (p :: ps)). split; [|done].
    cbn [app]. by rewrite !reverse_cons, <- !app_assoc.
  - intros pre run post k -> Hne Hall Hpre Hpost.
    by apply merge_adjacent_block.
Qed.

End Builder.

(** *** Concrete header groups *)

Definition leaf (i : string) (p : option column) : column :=
  Column i None p None None [].

Definition info_column : column := leaf "Info" None.
Definition name_column : column := leaf "Name" (Some info_column).

(** [firstName] and [lastName] under [Name] under [Info], [age] under
    [Info], [visits] at the top. *)
Definition sample_columns : list column :=
  [leaf "firstName" (Some name_column); leaf "lastName" (Some name_column);
   leaf "age" (Some info_column); leaf "visits" None].

Definition sample_groups : outcome (list headerGroup) :=
  makeHeaderGroups [] (VFun 0) (VFun 1) 3 sample_columns (Some []).

Example sample_groups_ids :
  match sample_groups with
  | Done groups => map (fun g => map id (group_headers g)) groups
  | _ => []
  end =
  [["Info_4"; "Info_2_placeholder_5"; "visits_placeholder_3_placeholder_6"];
   ["Name_0"; "Info_2"; "visits_placeholder_3"];
   ["firstName"; "lastName"; "age"; "visits"]].
Proof. reflexivity. Qed.

Lemma header_groups_rectangular_witness :
  exists groups,
    sample_groups = Done groups /\
    Forall (fun g => total_span (group_headers g) = 4) groups.
Proof.
  destruct (header_groups_rectangular [] (VFun 0) (VFun 1) 3 sample_columns
              (Some [])) as (Hspans & _ & Hdef).
  destruct Hdef as [groups Hg]; [by eexists|cbn; lia|].
  exists groups. split; [exact Hg|]. exact (Hspans groups Hg).
Defined.

Lemma header_groups_leaf_row_last_witness :
  sample_columns <> [] /\
  exists groups,
    sample_groups = Done groups /\
    last groups = Some (HeaderGroup sample_columns).
Proof.
  assert (Hne : sample_columns <> []) by discriminate.
  split; [exact Hne|].
  destruct (header_groups_leaf_row_last [] (VFun 0) (VFun 1) 3 sample_columns
              (Some []) Hne) as [Hdef Hlast].
  destruct Hdef as [groups Hg]; [by eexists|cbn; lia|].
  exists groups. split; [exact Hg|]. exact (proj1 (Hlast groups Hg)).
Defined.

(** C7 as stated fails where there is more than one group: for
    [firstName] under [Name] the sequence returned is the [Name] group, then
    the [firstName] group; the outermost group is first, not last. *)
Lemma outermost_group_is_returned_first :
  exists outermost leaves,
    makeHeaderGroups [] (VFun 0) (VFun 1) 2
      [leaf "firstName" (Some (leaf "Name" None))] None
      = Done [outermost; leaves] /\
    map id (group_headers outermost) = ["Name_0"] /\
    existsb has_parent (group_headers outermost) = false /\
    map id (group_headers leaves) = ["firstName"] /\
    existsb has_parent (group_headers leaves) = true /\
    last [outermost; leaves] = Some leaves /\
    last [outermost; leaves] <> Some outermost.
Proof.
  eexists _, _. split; [reflexivity|]. repeat split. discriminate.
Qed.

Lemma adjacent_parents_merged_witness :
  existsb has_parent sample_columns = true /\
  exists groups upper next,
    sample_groups = Done groups /\
    groups = upper ++ [next; HeaderGroup sample_columns] /\
    cell_of <$> group_headers next
      = [(Some "Name", Some [leaf "firstName" (Some name_column);
                             leaf "lastName" (Some name_column)]);
         (Some "Info", Some [leaf "age" (Some info_column)]);
         (Some "visits_placeholder", Some [leaf "visits" None])].
Proof.
  assert (Hp : existsb has_parent sample_columns = true) by reflexivity.
  split; [exact Hp|].
  destruct (adjacent_parents_merged [] (VFun 0) (VFun 1) 3 sample_columns
              (Some []) Hp) as (Hdef & Hcells & _).
  destruct Hdef as [groups Hg]; [by eexists|cbn; lia|].
  destruct (Hcells groups Hg) as (upper & next & Hgroups & Hnext).
  exists groups, upper, next. split; [exact Hg|]. split; [exact Hgroups|].
  exact Hnext.
Defined.

End Headers.

(** ** Expansion: [expandRows] *)

Module Expansion.
Import Js.

(** A row as [expandRows] reads and marks it.  The rows form a tree; the
    marks a walk leaves on a row and on the rows under it are the row the
    walk hands back. *)
Inductive row : Type := Row {
  id : string;
  original : value;
  subRows : option (list row);
  isExpanded : value;
  canExpand : value
}.

(** Induction over the tree of rows. *)
Lemma row_tree_ind (P : row -> Prop)
    (step : forall i o subs e c,
        match subs with
        | Some l => Forall P l
        | None => True
        end -> P (Row i o subs e c)) :
  forall r, P r.
Proof.
  fix IH 1. intros [i o subs e c]. apply step.
  destruct subs as [l|]; [|exact I].
  induction l as [|x xs IHl]; constructor; [apply IH|exact IHl].
Qed.

Section Walk.

Variable inherited : value -> string -> value.

(** The options of [expandRows]: [expanded] is the state object, given by
    its properties; [expandSubRows] is [true] when the caller leaves it
    out. *)
Variable manualExpandedKey : string.
Variable expanded : list (string * value).
Variable expandSubRows : bool.

(** [(row.original && row.original[manualExpandedKey]) || expanded[row.id]] *)
Definition expanded_mark (i : string) (o : value) : value :=
  js_or (js_and o (get inherited o manualExpandedKey))
        (get inherited (VObj expanded) i).

(** [row.subRows && !!row.subRows.length] *)
Definition expandable_mark (subs : option (list row)) : value :=
  match subs with
  | Some l => VBool (negb (Nat.eqb (length l) 0))
  | None => VUndefined
  end.

(** [expandSubRows && row.subRows && row.subRows.length && row.isExpanded] *)
Definition descends (i : string) (o : value) (subs : option (list row)) : bool :=
  expandSubRows
  && match subs with
     | Some l => negb (Nat.eqb (length l) 0)
     | None => false
     end
  && truthy (expanded_mark i o).

(** [handleRow(row)]: the row as the walk leaves it, and the rows pushed on
    [expandedRows], the row first. *)
Fixpoint handleRow (r : row) : row * list row :=
  match r with
  | Row i o subs _ _ =>
      let marked subs' := Row i o subs' (expanded_mark i o) (expandable_mark subs) in
      if descends i o subs then
        match subs with
        | Some l =>
            let walked := map handleRow l in
            let row' := marked (Some (map fst walked)) in
            (row', row' :: concat (map snd walked))
        | None => (marked subs, [marked subs])
        end
      else (marked subs, [marked subs])
  end.

(** [expandRows(rows, { manualExpandedKey, expanded, expandSubRows })]: the
    rows as the walk leaves them, and the sequence returned. *)
Definition expandRows (rows : list row) : list row * list row :=
  let walked := map handleRow rows in
  (map fst walked, concat (map snd walked)).

(** *** What the claims say of the walk *)

(** The row is expanded: the manual key of its raw item or its entry in the
    expansion state is truthy. *)
Definition is_expanded (r : row) : bool :=
  (truthy (original r) && truthy (get inherited (original r) manualExpandedKey))
  || truthy (get inherited (VObj expanded) (id r)).

Definition has_subRows (r : row) : bool :=
  match subRows r with
  | Some (_ :: _) => true
  | _ => false
  end.

(** All rows of a tree in pre-order, each with whether every row above it
    is expanded. *)
Fixpoint preorder (above_expanded : bool) (r : row) : list (bool * row) :=
  (above_expanded, r) ::
  match r with
  | Row _ _ (Some l) _ _ =>
      concat (map (preorder (above_expanded && is_expanded r)) l)
  | Row _ _ None _ _ => []
  end.

(** The rows to show: those under expanded rows only. *)
Definition shown (r : row) : list row :=
  map snd (filter (fun br => fst br = true) (preorder true r)).

(** The row as the walk leaves it. *)
Definition marked (r : row) : row := (handleRow r).1.

(** *** Theorems *)

Lemma truthy_js_or a b : truthy (js_or a b) = truthy a || truthy b.
Proof. unfold js_or. by destruct (truthy a) eqn:E; rewrite ?E. Qed.

Lemma truthy_js_and a b : truthy (js_and a b) = truthy a && truthy b.
Proof. unfold js_and. by destruct (truthy a) eqn:E; rewrite ?E. Qed.

Lemma truthy_expanded_mark r :
  truthy (expanded_mark (id r) (original r)) = is_expanded r.
Proof.
  unfold expanded_mark, is_expanded. by rewrite truthy_js_or, truthy_js_and.
Qed.

Lemma filter_concat {A} (P : A -> Prop) `{forall x, Decision (P x)}
    (ls : list (list A)) :
  filter P (concat ls) = concat (map (filter P) ls).
Proof.
  induction ls as [|l ls IH]; [done|]. cbn. by rewrite filter_app, IH.
Qed.

Lemma concat_nils {A B} (f : A -> list B) (l : list A) :
  Forall (fun x => f x = []) l -> concat (map f l) = [].
Proof. induction 1 as [|x l Hx _ IH]; [done|]. cbn. by rewrite Hx, IH. Qed.

(** Under a collapsed row nothing is shown. *)
Lemma preorder_collapsed r :
  filter (fun br => fst br = true) (preorder false r) = [].
Proof.
  induction r as [i o subs e c IH] using row_tree_ind.
  cbn [preorder]. rewrite filter_cons_False by done.
  destruct subs as [l|]; [|done]. cbn [andb].
  rewrite filter_concat, map_map. by apply concat_nils.
Qed.

(** A row is shown, followed by what its sub-rows show when it is expanded
    and by nothing when it is collapsed. *)
Lemma shown_unfold r :
  shown r =
    r :: match subRows r with
         | Some l => if is_expanded r then concat (map shown l) else []
         | None => []
         end.
Proof.
  destruct r as [i o subs e c]. unfold shown at 1. cbn [preorder subRows].
  rewrite filter_cons_True by done. cbn [map snd]. f_equal.
  destruct subs as [l|]; [|done]. cbn [andb].
  destruct (is_expanded _).
  - rewrite filter_concat, concat_map, !map_map. done.
  - rewrite filter_concat, map_map, concat_nils; [done|].
    apply Forall_forall. intros x _. apply preorder_collapsed.
Qed.

Lemma descends_spec i o subs e c :
  descends i o subs =
    expandSubRows && has_subRows (Row i o subs e c)
    && is_expanded (Row i o subs e c).
Proof.
  unfold descends. rewrite <- truthy_expanded_mark. cbn [id original].
  unfold has_subRows. cbn [subRows]. by destruct subs as [[|x l]|].
Qed.

Lemma marked_fields r :
  id (marked r) = id r /\ original (marked r) = original r /\
  isExpanded (marked r) = expanded_mark (id r) (original r) /\
  canExpand (marked r) = expandable_mark (subRows r) /\
  has_subRows (marked r) = has_subRows r.
Proof.
  destruct r as [i o subs e c]. unfold marked. cbn [handleRow].
  destruct (descends i o subs); [|done].
  destruct subs as [l|]; [|done]. cbn. repeat split.
  unfold has_subRows. cbn. by destruct l.
Qed.

Lemma handleRow_shown r :
  expandSubRows = true -> (handleRow r).2 = map marked (shown r).
Proof.
  intros Hsub.
  induction r as [i o subs e c IH] using row_tree_ind.
  rewrite shown_unfold. cbn [map subRows].
  change (marked (Row i o subs e c)) with (handleRow (Row i o subs e c)).1.
  cbn [handleRow]. rewrite (descends_spec i o subs e c), Hsub. cbn [andb].
  destruct (is_expanded (Row i o subs e c)).
  - destruct subs as [[|x l]|]; [done| |done].
    unfold has_subRows. cbn [subRows andb snd fst]. f_equal.
    rewrite concat_map, !map_map. f_equal.
    apply map_ext_Forall. exact IH.
  - rewrite andb_false_r. cbn [snd fst]. by destruct subs.
Qed.

Lemma handleRow_collapsed_walk r :
  expandSubRows = false -> (handleRow r).2 = [marked r].
Proof.
  intros Hsub. destruct r as [i o subs e c]. unfold marked.
  cbn [handleRow]. unfold descends. by rewrite Hsub.
Qed.

Lemma mark_facts r :
  isExpanded (marked r) = expanded_mark (id (marked r)) (original (marked r))
  /\ truthy (isExpanded (marked r)) = is_expanded (marked r)
  /\ (canExpand (marked r) = VBool true <-> has_subRows (marked r) = true).
Proof.
  destruct (marked_fields r) as (Hid & Horig & Hexp & Hcan & Hsub).
  rewrite Hid, Horig. split; [done|]. split.
  - rewrite Hexp. rewrite <- (truthy_expanded_mark (marked r)).
    by rewrite Hid, Horig.
  - rewrite Hcan, Hsub. unfold has_subRows, expandable_mark.
    destruct (subRows r) as [[|x l]|]; cbn; split; congruence.
Qed.

(** C6 (as amended): with [expandSubRows] true, as it is when the caller
    leaves it out, [expandRows] returns the rows in pre-order, a row
    followed at once by what its sub-rows show when it is expanded, and
    nothing under a collapsed row.  Every row returned is marked:
    [isExpanded] is the manual flag of its raw item or else its entry in
    the expansion state, truthy exactly when one of them is; [canExpand] is
    [true] exactly when [subRows] is a non-empty list. *)
Theorem expandRows_preorder (rows : list row) :
  expandSubRows = true ->
  (expandRows rows).2 = map marked (concat (map shown rows)) /\
  (expandRows rows).1 = map marked rows /\
  Forall (fun r =>
            isExpanded r = expanded_mark (id r) (original r) /\
            truthy (isExpanded r) = is_expanded r /\
            (canExpand r = VBool true <-> has_subRows r = true))
    (expandRows rows).2.
Proof.
  intros Hsub.
  assert (Hseq : (expandRows rows).2 = map marked (concat (map shown rows))).
  { unfold expandRows. cbn [snd]. rewrite concat_map, !map_map. f_equal.
    apply map_ext. intros r. by apply handleRow_shown. }
  split; [exact Hseq|]. split.
  - unfold expandRows. cbn [fst]. by rewrite map_map.
  - rewrite Hseq. apply Forall_forall. intros r' Hin.
    apply list_elem_of_In, in_map_iff in Hin as (r & <- & _).
    apply mark_facts.
Qed.

End Walk.

(** *** A concrete walk *)

Definition fresh_row (i : string) (o : value) (subs : option (list row)) : row :=
  Row i o subs VUndefined VUndefined.

(** Row [0] is expanded by the state, its sub-row [0.0] is collapsed, row
    [1] is collapsed, row [2] is expanded by its raw item. *)
Definition sample_rows : list row :=
  [ fresh_row "0" (VObj [])
      (Some [ fresh_row "0.0" (VObj [])
                (Some [fresh_row "0.0.0" (VObj []) None]);
              fresh_row "0.1" (VObj []) (Some []) ]);
    fresh_row "1" (VObj []) (Some [fresh_row "1.0" (VObj []) None]);
    fresh_row "2" (VObj [("expanded", VBool true)])
      (Some [fresh_row "2.0" (VObj []) None]) ].

Definition sample_expandRows : list row * list row :=
  expandRows no_inherited "expanded" [("0", VBool true)] true sample_rows.

Lemma expandRows_preorder_witness :
  sample_expandRows.2
    = map (marked no_inherited "expanded" [("0", VBool true)] true)
        (concat (map (shown no_inherited "expanded" [("0", VBool true)])
                   sample_rows)) /\
  map id sample_expandRows.2 = ["0"; "0.0"; "0.1"; "1"; "2"; "2.0"] /\
  map isExpanded sample_expandRows.2
    = [VBool true; VUndefined; VUndefined; VUndefined; VBool true; VUndefined]
  /\
  map canExpand sample_expandRows.2
    = [VBool true; VBool true; VBool false; VBool true; VBool true;
       VUndefined].
Proof.
  split; [|by repeat split].
  exact (proj1 (expandRows_preorder no_inherited "expanded"
                  [("0", VBool true)] true sample_rows eq_refl)).
Defined.

(** C6 as stated fails when the caller passes [expandSubRows: false]: row
    [0] is marked expanded and has sub-rows, yet the row returned after it is
    row [1]; no sub-row is returned. *)
Lemma expandSubRows_false_returns_no_descendants :
  exists r0 r1 rest,
    (expandRows no_inherited "expanded" [("0", VBool true)] false
       sample_rows).2 = r0 :: r1 :: rest /\
    id r0 = "0" /\ isExpanded r0 = VBool true /\
    option_map (map id) (subRows r0) = Some ["0.0"; "0.1"] /\
    id r1 = "1" /\
    map id (r0 :: r1 :: rest) = ["0"; "1"; "2"].
Proof. eexists _, _, _. by repeat split. Qed.

End Expansion.

(** ** Row materialization: [accessRowsForColumn] *)

Module Rows.
Import Js.

Abbreviation loc := nat (only parsing).

(** The functions a cell collection answers with. *)
Inductive method : Type :=
| NativeMethod
| UnpreparedAccessWarning.

Definition unprepared_message : string :=
  "React-Table: You have not called prepareRow(row) one or more rows you are attempting to render.".

(** Calling a method: [unpreparedAccessWarning()] throws. *)
Definition call (m : method) : result value :=
  match m with
  | NativeMethod => Ok VUndefined
  | UnpreparedAccessWarning => Throw unprepared_message
  end.

(** A cell: [getCellProps] is absent on the cells nobody prepared. *)
Record cell : Type := Cell { getCellProps : option method }.

(** The [cells] array of a row with its [map], [filter] and [forEach]. *)
Record cell_array : Type := CellArray {
  items : list cell;
  map_method : method;
  filter_method : method;
  forEach_method : method
}.

(** [cells: [{}]] with the four overrides of [accessRow]. *)
Definition unprepared_cells : cell_array :=
  CellArray [Cell (Some UnpreparedAccessWarning)]
    UnpreparedAccessWarning UnpreparedAccessWarning UnpreparedAccessWarning.

(** [row.cells[0].getCellProps()] *)
Definition call_getCellProps (cs : cell_array) : result value :=
  match items cs !! 0 with
  | Some c =>
      match getCellProps c with
      | Some m => call m
      | None => Throw "TypeError: getCellProps is not a function"
      end
  | None => Throw "TypeError: Cannot read properties of undefined"
  end.

(** A row object; [subRows] are addresses of row objects. *)
Record row : Type := Row {
  id : string;
  original : value;
  index : nat;
  depth : nat;
  cells : cell_array;
  values : gmap string value;
  originalSubRows : option (list value);
  subRows : option (list loc)
}.

(** The store of row objects with the two collections that name them;
    the [rows] and [subRows] arrays are passed along as [parentRows]. *)
Record state : Type := State {
  heap : list row;
  flatRows : list loc;
  rowsById : gmap string loc
}.

Definition empty_state : state := State [] [] ∅.

(** How a pass ends.  [OutOfFuel]: the recursion went deeper than the
    bound the pass was given.  A pass that is cut off under every bound is,
    in the program, a recursion without end, which the engine ends with a
    [RangeError] when the stack is full. *)
Inductive status : Type :=
| Returned
| Threw (msg : string)
| OutOfFuel.

(** A leaf column as the row materializer reads it. *)
Record column : Type := Column {
  column_id : string;
  accessor : option (value -> nat -> row -> value)
}.

Definition set_originalSubRows (osr : option (list value)) (r : row) : row :=
  Row (id r) (original r) (index r) (depth r) (cells r) (values r) osr
    (subRows r).

Definition set_subRows (subs : option (list loc)) (r : row) : row :=
  Row (id r) (original r) (index r) (depth r) (cells r) (values r)
    (originalSubRows r) subs.

Definition set_values (vs : gmap string value) (r : row) : row :=
  Row (id r) (original r) (index r) (depth r) (cells r) vs
    (originalSubRows r) (subRows r).

Definition update_row (l : loc) (f : row -> row) (s : state) : state :=
  State (alter f l (heap s)) (flatRows s) (rowsById s).

(** Modelled from the spec: [reduceHooks] of [publicUtils], which the
    sources do not include: every hook runs over the value in registration
    order, each seeing what the one before it returned. *)
Definition reduceHooks {Meta : Type} (hooks : list (value -> Meta -> value))
    (initial : value) (meta : Meta) : value :=
  fold_left (fun prev hook => hook prev meta) hooks initial.

(** [arr.forEach((d, i) => f(d, i))] for a callback that may throw, from
    index [i] on. *)
Fixpoint forEach
    (f : value -> nat -> option (list loc) -> state
         -> status * state * option (list loc))
    (ds : list value) (i : nat) (parentRows : option (list loc)) (s : state)
  : status * state * option (list loc) :=
  match ds with
  | [] => (Returned, s, parentRows)
  | d :: rest =>
      match f d i parentRows s with
      | (Returned, s', parentRows') => forEach f rest (S i) parentRows' s'
      | failed => failed
      end
  end.

Section Access.

(** The options [getRowId] and [getSubRows]. *)
Variable getRowId : value -> nat -> option row -> string.
Variable getSubRows : value -> nat -> option (list value).

(** Whether the prototype chain of the object [rowsById] answers the key,
    as that of a plain object does for [constructor], [toString] and the
    like.  What it answers is no row: it is truthy, and has neither
    [subRows] nor [values]. *)
Variable inherited_key : string -> bool.

(** *** What the claims say of the materializer *)

(** Two states of one row object: all but [values] and [subRows] agree. *)
Definition same_identity (r r' : row) : Prop :=
  id r = id r' /\ original r = original r' /\ index r = index r' /\
  depth r = depth r' /\ cells r = cells r' /\
  originalSubRows r = originalSubRows r'.










(** Re-entry: no row object, no entry of [flatRows] or [rowsById] is added,
    and on every row only [values[cid]] may differ. *)
Definition only_values (cid : string) (s s' : state) : Prop :=
  flatRows s' = flatRows s /\ rowsById s' = rowsById s /\
  length (heap s') = length (heap s) /\
  (forall l r, heap s !! l = Some r ->
     exists r', heap s' !! l = Some r' /\ same_identity r r' /\
       subRows r' = subRows r /\
       forall k, k <> cid -> values r' !! k = values r !! k).

(** From [s] to [s'] the rows kept their cells, and the rows that came
    have the cells [accessRow] gives a new row. *)
Definition cells_kept (s s' : state) : Prop :=
  length (heap s) <= length (heap s') /\
  forall l r', heap s' !! l = Some r' ->
    match heap s !! l with
    | Some r => cells r' = cells r
    | None => cells r' = unprepared_cells
    end.

(** A row nobody prepared: reading its cells throws. *)
Definition unprepared (r : row) : Prop :=
  (exists msg, call (map_method (cells r)) = Throw msg) /\
  (exists msg, call (filter_method (cells r)) = Throw msg) /\
  (exists msg, call (forEach_method (cells r)) = Throw msg) /\
  (exists msg, call_getCellProps (cells r) = Throw msg).

Section Pass.

(** The column of this pass and the [accessValueHooks], which see the value
    and the row. *)
Variable col : column.
Variable accessValueHooks : list (value -> row -> value).

(** The end of [accessRow]: the value of the column on the row. *)
Definition assign_value (originalRow : value) (rowIndex : nat) (l : loc)
    (s : state) : state :=
  match heap s !! l with
  | Some r =>
      let r1 :=
        match accessor col with
        | Some f =>
            set_values (<[column_id col := f originalRow rowIndex r]> (values r)) r
        | None => r
        end in
      let v :=
        reduceHooks accessValueHooks
          (default VUndefined (values r1 !! column_id col)) r1 in
      update_row l (fun _ => set_values (<[column_id col := v]> (values r1)) r1) s
  | None => s
  end.

(** [accessRow(originalRow, rowIndex, depth = 0, parent, parentRows)] *)
Fixpoint accessRow (fuel : nat) (originalRow : value) (rowIndex : nat)
    (depth : nat) (parent : option loc) (parentRows : option (list loc))
    (s : state) : status * state * option (list loc) :=
  match fuel with
  | O => (OutOfFuel, s, parentRows)
  | S fuel' =>
      let id := getRowId originalRow rowIndex (parent ≫= fun p => heap s !! p) in
      match rowsById s !! id with
      | None =>
          if inherited_key id then
            (Threw "TypeError: Cannot read properties of undefined (reading 'values')",
             s, parentRows)
          else
          let l := length (heap s) in
          let s1 :=
            State (heap s ++ [Row id originalRow rowIndex depth unprepared_cells
                                ∅ None None])
              (flatRows s) (rowsById s) in
          match parentRows with
          | None =>
              (Threw "TypeError: Cannot read properties of undefined (reading 'push')",
               s1, parentRows)
          | Some rows =>
              let parentRows1 := Some (rows ++ [l]) in
              let s2 :=
                State (heap s1) (flatRows s1 ++ [l]) (<[id := l]> (rowsById s1)) in
              let s3 :=
                update_row l (set_originalSubRows (getSubRows originalRow rowIndex))
                  s2 in
              match getSubRows originalRow rowIndex with
              | Some ds =>
                  match forEach
                          (fun d i => accessRow fuel' d i (S depth) (Some l))
                          ds 0 (Some []) s3 with
                  | (Returned, s4, subRows) =>
                      (Returned,
                       assign_value originalRow rowIndex l
                         (update_row l (set_subRows subRows) s4),
                       parentRows1)
                  | (failed, s4, _) => (failed, s4, parentRows1)
                  end
              | None =>
                  (Returned, assign_value originalRow rowIndex l s3, parentRows1)
              end
          end
      | Some l =>
          match heap s !! l with
          | Some r =>
              match subRows r with
              | Some _ =>
                  match originalSubRows r with
                  | Some ds =>
                      match forEach
                              (fun d i => accessRow fuel' d i (S depth) (Some l))
                              ds 0 None s with
                      | (Returned, s4, _) =>
                          (Returned, assign_value originalRow rowIndex l s4,
                           parentRows)
                      | (failed, s4, _) => (failed, s4, parentRows)
                      end
                  | None =>
                      (Threw "TypeError: Cannot read properties of undefined (reading 'forEach')",
                       s, parentRows)
                  end
              | None =>
                  (Returned, assign_value originalRow rowIndex l s, parentRows)
              end
          | None => (Threw "TypeError: no such object", s, parentRows)
          end
      end
  end.

(** [accessRowsForColumn({ data, rows, flatRows, rowsById, column, ... })] *)
Definition accessRowsForColumn (fuel : nat) (data : list value)
    (rows : list loc) (s : state) : status * state * option (list loc) :=
  forEach (fun d i => accessRow fuel d i 0 None) data 0 (Some rows) s.

(** *** Row objects keep their identity *)

Lemma same_identity_refl r : same_identity r r.
Proof. by repeat split. Qed.

Lemma same_identity_sym r r' : same_identity r r' -> same_identity r' r.
Proof. intros (? & ? & ? & ? & ? & ?). by repeat split. Qed.

Lemma same_identity_trans r1 r2 r3 :
  same_identity r1 r2 -> same_identity r2 r3 -> same_identity r1 r3.
Proof.
  intros (? & ? & ? & ? & ? & ?) (? & ? & ? & ? & ? & ?).
  repeat split; congruence.
Qed.




Lemma only_values_refl cid s : only_values cid s s.
Proof.
  repeat split. intros l r Hr. exists r. split; [done|].
  split; [apply same_identity_refl|]. by split.
Qed.







Lemma alter_alloc (h : list row) f x :
  alter f (length h) (h ++ [x]) = h ++ [f x].
Proof.
  apply list_eq. intros j. destruct (decide (j = length h)) as [->|Hne].
  - rewrite list_lookup_alter_eq, !lookup_app_r by done.
    rewrite Nat.sub_diag. reflexivity.
  - rewrite list_lookup_alter_ne by done.
    destruct (decide (j < length h)) as [Hlt|Hge].
    + by rewrite !lookup_app_l by done.
    + rewrite !lookup_app_r by lia.
      destruct (j - length h) as [|n] eqn:E; [lia|done].
Qed.

(** The end of [accessRow] touches one value of one row. *)
Lemma only_values_assign d i l s :
  only_values (column_id col) s (assign_value d i l s).
Proof.
  unfold assign_value. destruct (heap s !! l) as [r|] eqn:Hr;
    [|apply only_values_refl].
  set (r1 := match accessor col with Some f => _ | None => r end).
  assert (H1 : same_identity r r1 /\ subRows r1 = subRows r /\
               forall k, k <> column_id col -> values r1 !! k = values r !! k).
  { subst r1. destruct (accessor col); [|by repeat split].
    split; [by repeat split|]. split; [done|].
    intros k Hk. cbn. by rewrite lookup_insert_ne. }
  destruct H1 as (Hid & Hsub & Hval).
  unfold update_row, only_values. cbn [heap flatRows rowsById].
  repeat split; [by rewrite length_alter|].
  intros l' r' Hr'. destruct (decide (l' = l)) as [->|Hne].
  - rewrite list_lookup_alter_eq, Hr. cbn. eexists. split; [done|].
    assert (r' = r) as -> by congruence.
    split; [|split; [done|]].
    + destruct Hid as (? & ? & ? & ? & ? & ?). by repeat split.
    + intros k Hk. cbn. rewrite lookup_insert_ne by done. by apply Hval.
  - rewrite list_lookup_alter_ne by done. exists r'. split; [done|].
    split; [apply same_identity_refl|]. by split.
Qed.

(** *** A pass leaves a consistent state *)

Lemma update_row_alloc (h : list row) f x fl m :
  update_row (length h) f (State (h ++ [x]) fl m) = State (h ++ [f x]) fl m.
Proof. unfold update_row. cbn. by rewrite alter_alloc. Qed.






(** *** Re-entry *)




(** *** New rows are unprepared *)

Lemma cells_kept_refl s : cells_kept s s.
Proof. split; [done|]. intros l r Hr. by rewrite Hr. Qed.

Lemma cells_kept_trans s1 s2 s3 :
  cells_kept s1 s2 -> cells_kept s2 s3 -> cells_kept s1 s3.
Proof.
  intros [Hl1 H1] [Hl2 H2]. split; [lia|]. intros l r3 Hr3.
  specialize (H2 l r3 Hr3). destruct (heap s2 !! l) as [r2|] eqn:Hr2.
  - specialize (H1 l r2 Hr2). destruct (heap s1 !! l); congruence.
  - apply lookup_ge_None in Hr2.
    rewrite (proj2 (lookup_ge_None (heap s1) l)) by lia. done.
Qed.

Lemma cells_kept_only_values cid s s' : only_values cid s s' -> cells_kept s s'.
Proof.
  intros (_ & _ & Hl & Hh). split; [lia|]. intros l r' Hr'.
  destruct (heap s !! l) as [r|] eqn:Hr.
  - destruct (Hh l r Hr) as (r2 & Hr2 & (_ & _ & _ & _ & Hcells & _) & _).
    congruence.
  - apply lookup_ge_None in Hr. apply lookup_lt_Some in Hr'. lia.
Qed.

Lemma cells_kept_update_row l f s :
  (forall r, cells (f r) = cells r) -> cells_kept s (update_row l f s).
Proof.
  intros Hf. unfold update_row. split; cbn [heap]; [by rewrite length_alter|].
  intros l' r' Hr'. destruct (decide (l' = l)) as [->|Hne].
  - rewrite list_lookup_alter_eq in Hr'.
    destruct (heap s !! l) as [r|]; [|done]. injection Hr' as <-. apply Hf.
  - rewrite list_lookup_alter_ne in Hr' by done. by rewrite Hr'.
Qed.

Lemma cells_kept_created s r0 fl m :
  cells r0 = unprepared_cells -> cells_kept s (State (heap s ++ [r0]) fl m).
Proof.
  intros Hr0. split; cbn [heap]; [rewrite length_app; lia|].
  intros l r' Hr'. destruct (decide (l < length (heap s))) as [Hlt|Hge].
  - rewrite lookup_app_l in Hr' by done. by rewrite Hr'.
  - rewrite (proj2 (lookup_ge_None (heap s) l)) by lia.
    rewrite lookup_app_r in Hr' by lia.
    destruct (l - length (heap s)) as [|n]; [|done]. by injection Hr' as <-.
Qed.

Lemma forEach_cells_kept f :
  (forall d i pr s st s' pr', f d i pr s = (st, s', pr') -> cells_kept s s') ->
  forall ds from pr s st s' pr',
    forEach f ds from pr s = (st, s', pr') -> cells_kept s s'.
Proof.
  intros Hf. induction ds as [|d rest IH]; intros from pr s st s' pr' Hrun.
  - injection Hrun as <- <- <-. apply cells_kept_refl.
  - cbn [forEach] in Hrun.
    destruct (f d from pr s) as [[st1 s1] pr1] eqn:Hcall.
    pose proof (Hf _ _ _ _ _ _ _ Hcall) as H1.
    destruct st1; try (by injection Hrun as <- <- <-).
    eapply cells_kept_trans; [exact H1|]. by eapply IH.
Qed.

Lemma accessRow_cells_kept fuel :
  forall d i depth parent pr s st s' pr',
    accessRow fuel d i depth parent pr s = (st, s', pr') -> cells_kept s s'.
Proof.
  induction fuel as [|fuel IH]; intros d i depth parent pr s st s' pr' Hrun.
  { injection Hrun as <- <- <-. apply cells_kept_refl. }
  cbn [accessRow] in Hrun.
  set (rid := getRowId d i (parent ≫= fun p => heap s !! p)) in *.
  pose proof (fun l s0 => cells_kept_only_values _ _ _
                (only_values_assign d i l s0)) as Hassign.
  destruct (rowsById s !! rid) as [l|] eqn:Hlook.
  - destruct (heap s !! l) as [r|] eqn:Hr.
    2:{ injection Hrun as <- <- <-. apply cells_kept_refl. }
    destruct (subRows r) as [subs|].
    + destruct (originalSubRows r) as [ds|].
      2:{ injection Hrun as <- <- <-. apply cells_kept_refl. }
      destruct (forEach _ ds 0 None s) as [[st4 s4] pr4] eqn:Hfe.
      pose proof (forEach_cells_kept _
                    (fun d1 i1 pr1 sa st1 sb pr1' =>
                       IH d1 i1 (S depth) (Some l) pr1 sa st1 sb pr1')
                    _ _ _ _ _ _ _ Hfe) as H4.
      destruct st4; injection Hrun as <- <- <-; try done.
      eapply cells_kept_trans; [exact H4|apply Hassign].
    + injection Hrun as <- <- <-. apply Hassign.
  - destruct (inherited_key rid).
    { injection Hrun as <- <- <-. apply cells_kept_refl. }
    cbn [heap flatRows rowsById] in Hrun.
    destruct pr as [rows|].
    2:{ injection Hrun as <- <- <-. by apply cells_kept_created. }
    rewrite update_row_alloc in Hrun.
    set (r0 := set_originalSubRows (getSubRows d i)
                 (Row rid d i depth unprepared_cells ∅ None None)) in *.
    set (s3 := State (heap s ++ [r0]) (flatRows s ++ [length (heap s)])
                 (<[rid := length (heap s)]> (rowsById s))) in *.
    assert (H3 : cells_kept s s3) by (by apply cells_kept_created).
    destruct (getSubRows d i) as [ds|].
    + destruct (forEach _ ds 0 (Some []) s3) as [[st4 s4] pr4] eqn:Hfe.
      pose proof (forEach_cells_kept _
                    (fun d1 i1 pr1 sa st1 sb pr1' =>
                       IH d1 i1 (S depth) (Some (length (heap s))) pr1 sa st1
                         sb pr1')
                    _ _ _ _ _ _ _ Hfe) as H4.
      destruct st4; injection Hrun as <- <- <-;
        try (by eapply cells_kept_trans).
      eapply cells_kept_trans; [exact H3|].
      eapply cells_kept_trans; [exact H4|].
      eapply cells_kept_trans; [|apply Hassign].
      by apply (cells_kept_update_row (length (heap s)) (set_subRows pr4) s4).
    + injection Hrun as <- <- <-.
      eapply cells_kept_trans; [exact H3|apply Hassign].
Qed.

Lemma unprepared_cells_throw r :
  cells r = unprepared_cells -> unprepared r.
Proof. intros Hc. unfold unprepared. rewrite Hc. by repeat split; eexists. Qed.

(** C5: the rows a pass creates are unprepared: calling [map], [filter] or
    [forEach] of their [cells], or [getCellProps] of the cell in it, throws;
    and the pass leaves the cells of the rows that were there alone. *)
Theorem new_rows_are_unprepared (fuel : nat) (data : list value)
    (rows : list loc) (s : state) (l : loc) (r : row) :
  length (heap s) <= l ->
  heap (accessRowsForColumn fuel data rows s).1.2 !! l = Some r ->
  call (map_method (cells r)) = Throw unprepared_message /\
  call (filter_method (cells r)) = Throw unprepared_message /\
  call (forEach_method (cells r)) = Throw unprepared_message /\
  call_getCellProps (cells r) = Throw unprepared_message.
Proof.
  intros Hl Hr.
  destruct (accessRowsForColumn fuel data rows s) as [[st s'] pr'] eqn:Hrun.
  unfold accessRowsForColumn in Hrun.
  pose proof (forEach_cells_kept _
                (fun d1 i1 pr1 sa st1 sb pr1' =>
                   accessRow_cells_kept fuel d1 i1 0 None pr1 sa st1 sb pr1')
                _ _ _ _ _ _ _ Hrun) as [_ Hkept].
  cbn [fst snd] in Hr. specialize (Hkept l r Hr).
  rewrite (proj2 (lookup_ge_None (heap s) l)) in Hkept by lia.
  by rewrite Hkept.
Qed.

(** *** Re-entry returns *)




End Pass.


End Access.

(** *** A concrete materialization *)

(** The members of [Object.prototype]: the keys a plain object answers
    without having them. *)
Definition prototype_key (k : string) : bool :=
  existsb (String.eqb k)
    ["constructor"; "hasOwnProperty"; "isPrototypeOf"; "propertyIsEnumerable";
     "toLocaleString"; "toString"; "valueOf"; "__proto__";
     "__defineGetter__"; "__defineSetter__"; "__lookupGetter__";
     "__lookupSetter__"].

(** The identity function of the table: the path of indices to the row. *)
Definition pathId (d : value) (i : nat) (p : option row) : string :=
  match p with
  | Some r => id r +:+ "." +:+ pretty i
  | None => pretty i
  end.

(** [row => row.subRows] *)
Definition subRowsKey (d : value) (i : nat) : option (list value) :=
  match d with
  | VObj props =>
      match own_prop props "subRows" with
      | Some (VArr l) => Some l
      | _ => None
      end
  | _ => None
  end.

Definition person (name : string) (subs : list value) : value :=
  VObj ([("name", VStr name)]
          ++ match subs with
             | [] => []
             | _ => [("subRows", VArr subs)]
             end).

Definition sample_data : list value :=
  [person "a" [person "a0" []; person "a1" [person "a10" []]]; person "b" []].

Definition name_column : column :=
  Column "name"
    (Some (fun d _ _ =>
             match d with
             | VObj props => default VUndefined (own_prop props "name")
             | _ => VUndefined
             end)).

Definition index_column : column :=
  Column "index" (Some (fun _ i _ => VNum (Z.of_nat i))).

Definition pass1 : status * state * option (list nat) :=
  accessRowsForColumn pathId subRowsKey prototype_key name_column [] 5 sample_data []
    empty_state.





Lemma pass1_returned :
  pass1 = (Returned, pass1.1.2, Some (default [] pass1.2)).
Proof. vm_compute. reflexivity. Qed.



Example pass1_rows :
  map id (heap pass1.1.2) = ["0"; "0.0"; "0.1"; "0.1.0"; "1"] /\
  pass1.2 = Some [0; 4] /\ flatRows pass1.1.2 = [0; 1; 2; 3; 4] /\
  map subRows (heap pass1.1.2) = [Some [1; 2]; None; Some [3]; None; None].
Proof. vm_compute. by repeat split. Qed.


(** An identity function that looks at the sub-rows of the parent, which a
    pass fills in. *)
Definition unstableId (d : value) (i : nat) (p : option row) : string :=
  match p with
  | Some r =>
      id r +:+ "." +:+ pretty i
      +:+ match subRows r with
          | Some _ => "x"
          | None => ""
          end
  | None => pretty i
  end.

(** What the theorem asks of the identity function is needed: with this
    one the first pass over one item with one sub-row makes two rows; the
    second pass finds the sub-row under another id, creates a third row
    object and throws, its [parentRows] being [undefined]. *)
Example unstable_ids_reentry_creates_a_row :
  exists s1 rows1 msg s2 rows2,
    accessRowsForColumn unstableId subRowsKey prototype_key name_column [] 5
      [person "a" [person "a0" []]] [] empty_state
      = (Returned, s1, Some rows1) /\
    map id (heap s1) = ["0"; "0.0"] /\
    accessRowsForColumn unstableId subRowsKey prototype_key index_column [] 5
      [person "a" [person "a0" []]] rows1 s1 = (Threw msg, s2, rows2) /\
    map id (heap s2) = ["0"; "0.0"; "0.0x"] /\
    length (heap s2) <> length (heap s1).
Proof.
  eexists _, _, _, _, _. split; [vm_compute; reflexivity|].
  split; [vm_compute; reflexivity|]. split; [vm_compute; reflexivity|].
  split; [vm_compute; reflexivity|]. vm_compute. discriminate.
Qed.

(** The identity function [row => row.name]: the same for the same raw
    item, whatever the passes do. *)
Definition nameId (d : value) (i : nat) (p : option row) : string :=
  match d with
  | VObj props =>
      match own_prop props "name" with
      | Some (VStr s) => s
      | _ => "undefined"
      end
  | _ => "undefined"
  end.









(** A row named like a member of [Object.prototype] is never made: the
    lookup in [rowsById] finds the member, and the pass throws where it
    reads its [values]. *)
Example prototype_id_throws :
  exists msg,
    accessRowsForColumn nameId subRowsKey prototype_key name_column [] 3
      [person "constructor" []] [] empty_state
    = (Threw msg, empty_state, Some []).
Proof. eexists. vm_compute. reflexivity. Qed.

Lemma new_rows_are_unprepared_witness :
  exists r,
    heap pass1.1.2 !! 3 = Some r /\ id r = "0.1.0" /\
    call (map_method (cells r)) = Throw unprepared_message /\
    call (filter_method (cells r)) = Throw unprepared_message /\
    call (forEach_method (cells r)) = Throw unprepared_message /\
    call_getCellProps (cells r) = Throw unprepared_message.
Proof.
  eexists. split; [vm_compute; reflexivity|]. split; [reflexivity|].
  apply (new_rows_are_unprepared pathId subRowsKey prototype_key name_column [] 5
           sample_data [] empty_state 3); [apply Nat.le_0_l|].
  vm_compute. reflexivity.
Defined.

End Rows.

(** ** More on the path resolver *)

Module PathFacts.
Import Js.

Section Resolver.

Variable inherited : value -> string -> value.
Variable fn_src : nat -> string.
Variable num_src : Z -> string.
Variable JSON_stringify : value -> string.

(** The closure [row => getBy(row, accessorPath)] that
    [assignColumnAccessor] builds from a string accessor. *)
Definition accessor_closure (accessorPath : list string)
    (cache : gmap cache_key (list string)) (row : value)
  : gmap cache_key (list string) * value :=
  getBy inherited fn_src num_src JSON_stringify cache row
    (VArr (VStr <$> accessorPath)) VUndefined.

(** The keys a string accessor names: its brackets read as periods. *)
Definition accessor_keys (s : string) : list string :=
  split "."%char (replace_all "]"%char "" (replace_all "["%char "." s)).

(** *** Theorems *)

Lemma split_nonempty sep s : split sep s <> [].
Proof.
  destruct s as [|c s]; [done|]. cbn [split].
  destruct (Ascii.eqb c sep); [done|]. by destruct (split sep s).
Qed.

Lemma split_parts_absent c sep s :
  has_char c s = false ->
  Forall (fun k => has_char c k = false) (split sep s).
Proof.
  induction s as [|a s IH]; [by repeat constructor|].
  cbn [has_char split]. intros [Ha Hs]%orb_false_iff. specialize (IH Hs).
  destruct (Ascii.eqb a sep).
  - by constructor.
  - destruct (split sep s) as [|w ws]; [by repeat constructor; cbn; rewrite Ha|].
    apply Forall_cons in IH as [Hw Hws]. constructor; [|done].
    cbn [has_char]. by rewrite Ha, Hw.
Qed.

Lemma split_parts_no_sep sep s :
  Forall (fun k => has_char sep k = false) (split sep s).
Proof.
  induction s as [|a s IH]; [by repeat constructor|].
  cbn [split]. destruct (Ascii.eqb a sep) eqn:Ha.
  - by constructor.
  - destruct (split sep s) as [|w ws]; [by repeat constructor; cbn; rewrite Ha|].
    apply Forall_cons in IH as [Hw Hws]. constructor; [|done].
    cbn [has_char]. by rewrite Ha, Hw.
Qed.

Lemma replace_all_absent_after c from to s :
  has_char c to = false ->
  (has_char c s = false \/ c = from) ->
  has_char c (replace_all from to s) = false.
Proof.
  intros Hto. induction s as [|a s IH]; [done|].
  cbn [has_char replace_all]. intros Hs.
  assert (Hrest : has_char c s = false \/ c = from).
  { destruct Hs as [Hs|Hs]; [|by right].
    apply orb_false_iff in Hs as [_ Hs]. by left. }
  specialize (IH Hrest). destruct (Ascii.eqb a from) eqn:Ha.
  - by rewrite has_char_app, Hto, IH.
  - cbn [has_char]. rewrite IH, orb_false_r.
    destruct Hs as [Hs|Hs].
    + by apply orb_false_iff in Hs as [Hac _].
    + by subst c.
Qed.

Lemma makePathArray_parts (path : value) :
  makePathArray fn_src num_src path <> [] /\
  Forall (fun k => plain_key k = true) (makePathArray fn_src num_src path).
Proof.
  unfold makePathArray. split; [apply split_nonempty|].
  set (joined := join "." _).
  assert (Hopen : has_char "["%char (replace_all "["%char "." joined) = false).
  { apply replace_all_absent_after; [done|by right]. }
  assert (Hopen' : has_char "["%char
                     (replace_all "]"%char "" (replace_all "["%char "." joined))
                   = false).
  { apply replace_all_absent_after; [done|by left]. }
  assert (Hclose : has_char "]"%char
                     (replace_all "]"%char "" (replace_all "["%char "." joined))
                   = false).
  { apply replace_all_absent_after; [done|by right]. }
  pose proof (split_parts_no_sep "."%char
                (replace_all "]"%char "" (replace_all "["%char "." joined))) as H1.
  pose proof (split_parts_absent "["%char "."%char _ Hopen') as H2.
  pose proof (split_parts_absent "]"%char "."%char _ Hclose) as H3.
  revert H1 H2 H3. generalize (split "."%char
    (replace_all "]"%char "" (replace_all "["%char "." joined))).
  intros l H1. induction H1 as [|k l Hk _ IH]; [by constructor|].
  intros [Hk2 H2]%Forall_cons [Hk3 H3]%Forall_cons.
  constructor; [|by apply IH]. unfold plain_key. by rewrite Hk, Hk2, Hk3.
Qed.

(** X1: whatever the path, its parse is not empty and no key of it holds a
    period or a bracket. *)
Theorem makePathArray_plain (path : value) :
  makePathArray fn_src num_src path <> [] /\
  Forall (fun k => plain_key k = true) (makePathArray fn_src num_src path).
Proof. apply makePathArray_parts. Qed.

(** X2: parsing is idempotent: the parse of the array of parsed keys is the
    parse. *)
Theorem makePathArray_idempotent (path : value) :
  makePathArray fn_src num_src (VArr (VStr <$> makePathArray fn_src num_src path))
    = makePathArray fn_src num_src path.
Proof.
  destruct (makePathArray_parts path) as [Hne Hplain].
  by apply makePathArray_keys.
Qed.

Lemma join_cons_cons sep p q r :
  join sep (p :: q :: r) = p +:+ sep +:+ join sep (q :: r).
Proof. reflexivity. Qed.

(** Joining what [split] gave with the separator gives the string back. *)
Lemma join_split sep s : join (String sep "") (split sep s) = s.
Proof.
  induction s as [|c s IH]; [done|]. cbn [split].
  destruct (Ascii.eqb c sep) eqn:Hc.
  - apply Ascii.eqb_eq in Hc as ->.
    destruct (split sep s) as [|w ws] eqn:Hs; [by apply split_nonempty in Hs|].
    rewrite join_cons_cons, IH. reflexivity.
  - destruct (split sep s) as [|w ws] eqn:Hs; [by apply split_nonempty in Hs|].
    rewrite <- IH. destruct ws as [|w' ws']; [done|].
    by rewrite !join_cons_cons.
Qed.

(** The path [assignColumnAccessor] makes of a string accessor parses to
    the keys between its periods and brackets. *)
Lemma makePathArray_accessor (s : string) :
  makePathArray fn_src num_src (VArr (VStr <$> split "."%char s)) = accessor_keys s.
Proof.
  unfold makePathArray, accessor_keys. rewrite flattenDeep_keys.
  assert (Hid : map (fun d => replace_first "."%char "_"%char (to_String fn_src num_src d))
                  (VStr <$> split "."%char s) = split "."%char s).
  { pose proof (split_parts_no_sep "."%char s) as Hparts.
    induction Hparts as [|k l Hk _ IH]; [done|]. cbn.
    by rewrite IH, replace_first_absent. }
  rewrite Hid.
  change "." with (String "."%char "") at 1. by rewrite join_split.
Qed.

(** X3: a string accessor with periods and brackets reads the nested value:
    the closure built from [accessor.split('.')] follows the keys of the
    accessor through the row, and gives [undefined] where they do not resolve. *)
Theorem accessor_closure_reads_nested (s : string) cache (row : value) :
  cache_agrees fn_src num_src JSON_stringify cache (VArr (VStr <$> split "."%char s)) ->
  (accessor_closure (split "."%char s) cache row).2 =
    match resolve inherited (accessor_keys s) row with
    | Ok v => v
    | Throw _ => VUndefined
    end.
Proof.
  intros Hc. unfold accessor_closure.
  rewrite (getBy_truthy inherited fn_src num_src JSON_stringify cache row
             (VArr (VStr <$> split "."%char s)) VUndefined eq_refl Hc).
  cbn [snd]. unfold follow_path. rewrite makePathArray_accessor.
  destruct (resolve inherited (accessor_keys s) row) as [v|]; [|done].
  by destruct v.
Qed.

Lemma resolve_nullish keys obj :
  keys <> [] -> obj = VUndefined \/ obj = VNull ->
  exists msg, resolve inherited keys obj = Throw msg.
Proof.
  destruct keys as [|k keys]; [done|]. intros _ [-> | ->]; by eexists.
Qed.

(** Every entry of the cache is the parse of some path: so it is in every
    cache [getBy] can have left, whatever the paths of the calls before and
    whether their keys collide or not. *)
Definition cache_parsed (cache : gmap cache_key (list string)) : Prop :=
  forall key pathObj,
    cache !! key = Some pathObj ->
    exists p, pathObj = makePathArray fn_src num_src p.

Lemma cache_parsed_empty : cache_parsed ∅.
Proof. intros key pathObj. by rewrite lookup_empty. Qed.

Lemma getBy_cache_parsed cache obj path def :
  cache_parsed cache ->
  cache_parsed (getBy inherited fn_src num_src JSON_stringify cache obj path
                  def).1.
Proof.
  intros Hc. unfold getBy. destruct (truthy path); cbn [negb]; [|done].
  destruct (cache !! cacheKey JSON_stringify path) as [pathObj|] eqn:E;
    cbn [fst]; [done|].
  intros key pathObj.
  destruct (decide (key = cacheKey JSON_stringify path)) as [->|Hne].
  - rewrite lookup_insert_eq. intros [= <-]. by eexists.
  - rewrite lookup_insert_ne by done. apply Hc.
Qed.

(** X4: in every state of the cache that calls of [getBy] can have left
    (each entry the parse of some path), every non-empty path gives the
    default against [undefined] or [null], and the call leaves the cache in
    such a state. *)
Theorem getBy_nullish_object cache obj path def :
  cache_parsed cache ->
  truthy path = true ->
  obj = VUndefined \/ obj = VNull ->
  (getBy inherited fn_src num_src JSON_stringify cache obj path def).2 = def /\
  cache_parsed
    (getBy inherited fn_src num_src JSON_stringify cache obj path def).1.
Proof.
  intros Hc Ht Hobj. split; [|by apply getBy_cache_parsed].
  unfold getBy. rewrite Ht. cbn [negb].
  assert (Hthrow : forall pathObj,
            (exists p, pathObj = makePathArray fn_src num_src p) ->
            exists msg, resolve inherited pathObj obj = Throw msg).
  { intros pathObj [p ->]. apply resolve_nullish; [|done].
    apply makePathArray_parts. }
  destruct (cache !! cacheKey JSON_stringify path) as [pathObj|] eqn:E;
    cbn [snd].
  - destruct (Hthrow pathObj (Hc _ _ E)) as [msg ->]. done.
  - destruct (Hthrow (makePathArray fn_src num_src path)) as [msg ->];
      [by eexists|done].
Qed.

(** X5: the path cache only grows: a call keeps every entry, adds at most the
    entry of its path, and a second call with that path leaves the cache as it
    is. *)
Theorem getBy_cache_append_only cache obj path def :
  cache ⊆ (getBy inherited fn_src num_src JSON_stringify cache obj path def).1 /\
  (forall k, k <> cacheKey JSON_stringify path ->
     (getBy inherited fn_src num_src JSON_stringify cache obj path def).1 !! k
       = cache !! k) /\
  (forall obj' def',
     (getBy inherited fn_src num_src JSON_stringify
        (getBy inherited fn_src num_src JSON_stringify cache obj path def).1
        obj' path def').1
       = (getBy inherited fn_src num_src JSON_stringify cache obj path def).1).
Proof.
  unfold getBy. destruct (truthy path); cbn [negb]; [|by repeat split].
  destruct (cache !! cacheKey JSON_stringify path) as [pathObj|] eqn:E;
    cbn [fst].
  - repeat split; [done|]. intros obj' def'. by rewrite E.
  - split; [by apply insert_subseteq|]. split.
    + intros k Hk. by rewrite lookup_insert_ne.
    + intros obj' def'. by rewrite lookup_insert_eq.
Qed.

End Resolver.

(** *** Concrete runs *)

Lemma accessor_closure_reads_nested_witness :
  (accessor_closure no_inherited anonymous_src decimal json_text
     (split "."%char "friends[1].name") ∅
     (VObj [("friends",
             VArr [VObj [("name", VStr "Kent")];
                   VObj [("name", VStr "Ryan")]])])).2 = VStr "Ryan".
Proof.
  assert (H : cache_agrees anonymous_src decimal json_text ∅
                (VArr (VStr <$> split "."%char "friends[1].name"))).
  { intros pathObj. rewrite lookup_empty. discriminate. }
  exact (accessor_closure_reads_nested no_inherited anonymous_src decimal json_text
           "friends[1].name" ∅ _ H).
Defined.

(** The cache after [getBy(obj, [undefined])] answers the key of [[null]]
    with the parse of [[undefined]]; the default still comes back. *)
Definition collided_cache : gmap cache_key (list string) :=
  (getBy no_inherited anonymous_src decimal json_text ∅ (VObj [])
     (VArr [VUndefined]) VUndefined).1.

Lemma collided_cache_entry :
  collided_cache !! cacheKey json_text (VArr [VNull]) = Some ["undefined"].
Proof. vm_compute. reflexivity. Qed.

Lemma getBy_nullish_object_witness :
  cache_parsed anonymous_src decimal collided_cache /\
  (getBy no_inherited anonymous_src decimal json_text collided_cache VNull
     (VArr [VNull]) (VStr "none")).2 = VStr "none".
Proof.
  assert (H : cache_parsed anonymous_src decimal collided_cache).
  { apply getBy_cache_parsed, cache_parsed_empty. }
  split; [exact H|].
  apply (getBy_nullish_object no_inherited anonymous_src decimal json_text
           collided_cache VNull (VArr [VNull]) (VStr "none") H);
    [reflexivity|by right].
Defined.

End PathFacts.

(** ** Small helpers: [getFirstDefined], [isFunction], [getFilterMethod],
    [dedupeBy] *)

Module Helpers.
Import Js.

(** [getFirstDefined(...args)]: falling off the loop returns [undefined]. *)
Fixpoint getFirstDefined (args : list value) : value :=
  match args with
  | [] => VUndefined
  | a :: rest => if negb (is_undefined a) then a else getFirstDefined rest
  end.

(** [isFunction(a)] *)
Definition isFunction (a : value) : value :=
  match a with
  | VFun _ => a
  | _ => VUndefined
  end.

(** [v === undefined || v === null]: the values no property can be read
    of. *)
Definition nullish (v : value) : bool :=
  match v with
  | VUndefined | VNull => true
  | _ => false
  end.

Section Filters.

Variable inherited : value -> string -> value.
Variable fn_src : nat -> string.
Variable num_src : Z -> string.

(** The property key [obj[v]] reads: [String(v)], an array being its items
    joined by commas, [undefined] and [null] items left empty. *)
Fixpoint property_key (v : value) : string :=
  match v with
  | VArr items =>
      join ","
        (map (fun d => match d with
                       | VUndefined | VNull => ""
                       | _ => property_key d
                       end) items)
  | _ => to_String fn_src num_src v
  end.

(** [getFilterMethod(filter, userFilterTypes, filterTypes)]: [||] evaluates
    its right operand only when the left one is falsy. *)
Definition getFilterMethod (filter userFilterTypes filterTypes : value)
  : result value :=
  if truthy (isFunction filter) then Ok (isFunction filter)
  else
    bind (get_prop inherited userFilterTypes (property_key filter)) (fun user =>
    if truthy user then Ok user
    else
      bind (get_prop inherited filterTypes (property_key filter)) (fun builtin =>
      if truthy builtin then Ok builtin
      else get_prop inherited filterTypes "text")).

Lemma get_prop_nullish cursor k :
  (exists msg, get_prop inherited cursor k = Throw msg) <-> nullish cursor = true.
Proof.
  split.
  - intros [msg H]. destruct cursor; cbn in *; try done;
      repeat (match goal with
              | H : context [match ?x with _ => _ end] |- _ => destruct x
              end); done.
  - destruct cursor; try done; intros _; by eexists.
Qed.

Lemma get_prop_defined cursor k :
  nullish cursor = false ->
  get_prop inherited cursor k = Ok (get inherited cursor k).
Proof.
  intros Hn. unfold get.
  destruct (get_prop inherited cursor k) as [v|msg] eqn:E; [done|].
  assert (nullish cursor = true) by (apply (get_prop_nullish cursor k); eauto).
  congruence.
Qed.

(** A filter given as a function is the filter method: neither registry is
    read, so neither needs to exist. *)
Lemma getFilterMethod_function f userFilterTypes filterTypes :
  getFilterMethod (VFun f) userFilterTypes filterTypes = Ok (VFun f).
Proof. reflexivity. Qed.

(** X6: when [getFilterMethod] throws: the filter is no function, and a
    registry that has to be read is [undefined] or [null] (the built-in one
    has to be read when the user's has nothing truthy under the filter's
    name). *)
Theorem getFilterMethod_throws filter userFilterTypes filterTypes :
  (exists msg,
     getFilterMethod filter userFilterTypes filterTypes = Throw msg) <->
  isFunction filter = VUndefined /\
  (nullish userFilterTypes = true \/
   (truthy (get inherited userFilterTypes (property_key filter)) = false /\
    nullish filterTypes = true)).
Proof.
  unfold getFilterMethod.
  destruct (truthy (isFunction filter)) eqn:Hf.
  { split; [by intros [msg ?]|]. intros [Hu _]. rewrite Hu in Hf. done. }
  assert (Hfu : isFunction filter = VUndefined) by (by destruct filter).
  destruct (nullish userFilterTypes) eqn:Hu.
  { split; [by auto|]. intros _.
    destruct (proj2 (get_prop_nullish userFilterTypes (property_key filter)) Hu)
      as [msg ->]. by eexists. }
  rewrite (get_prop_defined userFilterTypes) by done. cbn [bind].
  destruct (truthy (get inherited userFilterTypes (property_key filter))) eqn:Hg.
  { split; [by intros [msg ?]|]. by intros [_ [?|[? _]]]. }
  destruct (nullish filterTypes) eqn:Hb.
  { split; [by auto|]. intros _.
    destruct (proj2 (get_prop_nullish filterTypes (property_key filter)) Hb)
      as [msg ->]. by eexists. }
  rewrite !(get_prop_defined filterTypes) by done. cbn [bind].
  split; [|by intros [_ [?|[_ ?]]]].
  intros [msg H]. by destruct (truthy (get inherited filterTypes _)).
Qed.

End Filters.

(** X7: [getFirstDefined] returns the first argument that is not [undefined],
    whatever comes after it; with no such argument it returns [undefined]. *)
Theorem getFirstDefined_first (args : list value) :
  (Forall (fun a => is_undefined a = true) args /\
   getFirstDefined args = VUndefined) \/
  (exists skipped rest,
     args = skipped ++ getFirstDefined args :: rest /\
     Forall (fun a => is_undefined a = true) skipped /\
     is_undefined (getFirstDefined args) = false).
Proof.
  induction args as [|a args IH]; [by left|]. cbn [getFirstDefined].
  destruct (is_undefined a) eqn:Ha; cbn [negb].
  - destruct IH as [[Hall Hu]|(skipped & rest & Heq & Hall & Hd)].
    + left. by split; [constructor|].
    + right. exists (a :: skipped), rest. split; [by rewrite Heq at 1|].
      by split; [constructor|].
  - right. by exists [], args.
Qed.

(** Searching an argument list is searching its front, then its back. *)
Lemma getFirstDefined_app (xs ys : list value) :
  getFirstDefined (xs ++ ys) =
    getFirstDefined [getFirstDefined xs; getFirstDefined ys].
Proof.
  induction xs as [|a xs IH]; cbn [getFirstDefined app].
  - by destruct (is_undefined (getFirstDefined ys)) eqn:E;
      [destruct (getFirstDefined ys)|].
  - destruct (is_undefined a) eqn:Ha; cbn [negb]; [exact IH|].
    by rewrite Ha.
Qed.

(** *** dedupeBy *)

Section Dedupe.

Context {A K : Type}.

(** [a === b] on keys.  It need not hold of a key and itself: [NaN] is a
    key that equals no key. *)
Variable strict_eq : K -> K -> bool.

(** The key function. *)
Variable fn : A -> K.

(** [all.findIndex(p)], [None] standing for [-1]. *)
Fixpoint findIndex (p : A -> bool) (all : list A) : option nat :=
  match all with
  | [] => None
  | d :: rest => if p d then Some 0 else S <$> findIndex p rest
  end.

(** [all.filter(p)], from index [i] on: the predicate is given the item,
    its index and the whole array. *)
Fixpoint filter_from (p : A -> nat -> list A -> bool) (all : list A)
    (i : nat) (l : list A) : list A :=
  match l with
  | [] => []
  | d :: rest =>
      if p d i all then d :: filter_from p all (S i) rest
      else filter_from p all (S i) rest
  end.

Definition js_filter (p : A -> nat -> list A -> bool) (all : list A) : list A :=
  filter_from p all 0 all.

(** [dedupeBy(arr, fn)] *)
Definition dedupeBy (arr : list A) : list A :=
  reverse
    (js_filter
       (fun d i all =>
          bool_decide
            (findIndex (fun dd => strict_eq (fn dd) (fn d)) all = Some i))
       (reverse arr)).

(** What [dedupeBy] is compared with: an item stays when its key equals
    itself and the key of no item after it. *)
Definition stays (d : A) (others : list A) : bool :=
  strict_eq (fn d) (fn d)
  && negb (existsb (fun dd => strict_eq (fn dd) (fn d)) others).

Fixpoint keep_last (arr : list A) : list A :=
  match arr with
  | [] => []
  | d :: rest => if stays d rest then d :: keep_last rest else keep_last rest
  end.

(** The filter seen from the items before the current one. *)
Fixpoint keep_unseen (seen l : list A) : list A :=
  match l with
  | [] => []
  | d :: rest =>
      if stays d seen then d :: keep_unseen (seen ++ [d]) rest
      else keep_unseen (seen ++ [d]) rest
  end.

Lemma findIndex_first (p : A -> bool) pre d post :
  findIndex p (pre ++ d :: post) = Some (length pre) <->
  p d = true /\ existsb p pre = false.
Proof.
  induction pre as [|x pre IH]; cbn [findIndex app length existsb].
  - destruct (p d); [done|]. split; [|by intros [? _]].
    by destruct (findIndex p post).
  - destruct (p x) eqn:Hx; cbn [orb].
    + split; [done|]. by intros [_ ?].
    + rewrite <- IH. destruct (findIndex p (pre ++ d :: post)); cbn;
        split; congruence.
Qed.

Lemma filter_from_unseen l : forall seen,
  filter_from
    (fun d i all =>
       bool_decide
         (findIndex (fun dd => strict_eq (fn dd) (fn d)) all = Some i))
    (seen ++ l) (length seen) l
  = keep_unseen seen l.
Proof.
  induction l as [|d l IH]; intros seen; [done|].
  cbn [filter_from keep_unseen].
  specialize (IH (seen ++ [d])).
  rewrite <- app_assoc, length_app, Nat.add_1_r in IH. cbn [app] in IH.
  rewrite IH.
  assert (Htest :
    bool_decide
      (findIndex (fun dd => strict_eq (fn dd) (fn d)) (seen ++ d :: l)
         = Some (length seen)) = stays d seen).
  { unfold stays. destruct (strict_eq (fn d) (fn d)) eqn:Hd;
      destruct (existsb (fun dd => strict_eq (fn dd) (fn d)) seen) eqn:Hs;
      cbn [andb negb];
      (apply bool_decide_eq_true; apply findIndex_first; done)
      || (apply bool_decide_eq_false; rewrite findIndex_first;
          intros [? ?]; congruence). }
  by rewrite Htest.
Qed.

Lemma stays_app d l1 l2 :
  stays d (l1 ++ l2) = stays d l1 && stays d l2.
Proof.
  unfold stays. rewrite existsb_app.
  destruct (strict_eq (fn d) (fn d)), (existsb _ l1), (existsb _ l2); done.
Qed.

Lemma existsb_reverse (p : A -> bool) l : existsb p (reverse l) = existsb p l.
Proof.
  induction l as [|x l IH]; [done|].
  rewrite reverse_cons, existsb_app, IH. cbn [existsb].
  by destruct (p x), (existsb p l).
Qed.

Lemma stays_reverse d l : stays d (reverse l) = stays d l.
Proof. unfold stays. by rewrite existsb_reverse. Qed.

Lemma keep_unseen_snoc l : forall seen x,
  keep_unseen seen (l ++ [x]) =
    keep_unseen seen l ++ (if stays x (seen ++ l) then [x] else []).
Proof.
  induction l as [|d l IH]; intros seen x; cbn [keep_unseen app].
  - rewrite app_nil_r. by destruct (stays x seen).
  - rewrite IH, <- app_assoc. cbn [app]. by destruct (stays d seen).
Qed.

Lemma dedupeBy_unseen arr :
  dedupeBy arr = reverse (keep_unseen [] (reverse arr)).
Proof.
  unfold dedupeBy, js_filter. f_equal.
  exact (filter_from_unseen (reverse arr) []).
Qed.

Lemma dedupeBy_keep_last arr : dedupeBy arr = keep_last arr.
Proof.
  rewrite dedupeBy_unseen.
  induction arr as [|d arr IH]; [done|].
  rewrite reverse_cons, keep_unseen_snoc, reverse_app, IH. cbn [app keep_last].
  rewrite stays_reverse. by destruct (stays d arr).
Qed.

Lemma keep_last_sublist arr : sublist (keep_last arr) arr.
Proof.
  induction arr as [|d arr IH]; [constructor|]. cbn [keep_last].
  destruct (stays d arr); by constructor.
Qed.

Lemma stays_sublist d l1 l2 :
  sublist l1 l2 -> stays d l2 = true -> stays d l1 = true.
Proof.
  unfold stays. intros Hsub. rewrite !andb_true_iff, !negb_true_iff.
  intros [Hd Hnone]. split; [done|].
  destruct (existsb (fun dd => strict_eq (fn dd) (fn d)) l1) eqn:E; [|done].
  apply existsb_exists in E as (x & Hx & Hxd).
  assert (existsb (fun dd => strict_eq (fn dd) (fn d)) l2 = true);
    [|congruence].
  apply existsb_exists. exists x. split; [|done].
  apply list_elem_of_In. eapply elem_of_sublist; [|exact Hsub].
  by apply list_elem_of_In.
Qed.

(** Every item that stayed would stay among the items that stayed. *)
Lemma keep_last_stays arr :
  forall pre d post,
    keep_last arr = pre ++ d :: post -> stays d post = true.
Proof.
  induction arr as [|x arr IH]; intros pre d post Heq.
  { by destruct pre. }
  cbn [keep_last] in Heq. destruct (stays x arr) eqn:Hx; [|by eapply IH].
  destruct pre as [|y pre]; cbn [app] in Heq.
  - injection Heq as <- Hpost. eapply stays_sublist; [|exact Hx].
    rewrite <- Hpost. apply keep_last_sublist.
  - injection Heq as _ Hrest. by eapply IH.
Qed.

Lemma keep_last_fixed l :
  (forall pre d post, l = pre ++ d :: post -> stays d post = true) ->
  keep_last l = l.
Proof.
  induction l as [|d l IH]; intros Hl; [done|]. cbn [keep_last].
  rewrite (Hl [] d l eq_refl). f_equal. apply IH.
  intros pre e post ->. by apply (Hl (d :: pre) e post).
Qed.

(** X8: [dedupeBy] keeps, of the items with one key, the last one, and
    drops every item whose key does not equal itself: an item stays
    exactly when its key is [===] to itself and to the key of no item after
    it. *)
Theorem dedupeBy_last_wins (arr : list A) :
  dedupeBy arr = keep_last arr.
Proof. apply dedupeBy_keep_last. Qed.

(** X9: where [===] is symmetric and transitive on the keys, the result is
    made of items of the input in the order of the input; their keys equal
    themselves and are different from each other; and every key of the
    input that equals itself is the key of an item of the result. *)
Theorem dedupeBy_keys (arr : list A) :
  (forall a b, strict_eq a b = strict_eq b a) ->
  (forall a b c,
     strict_eq a b = true -> strict_eq b c = true -> strict_eq a c = true) ->
  sublist (dedupeBy arr) arr /\
  Forall (fun d => strict_eq (fn d) (fn d) = true) (dedupeBy arr) /\
  (forall pre d post e,
     dedupeBy arr = pre ++ d :: post -> e ∈ post ->
     strict_eq (fn d) (fn e) = false /\ strict_eq (fn e) (fn d) = false) /\
  (forall d,
     d ∈ arr -> strict_eq (fn d) (fn d) = true ->
     exists e, e ∈ dedupeBy arr /\ strict_eq (fn e) (fn d) = true).
Proof.
  intros Hsym Htrans. rewrite dedupeBy_keep_last.
  split; [apply keep_last_sublist|]. split; [|split].
  - apply Forall_forall. intros d Hd.
    apply list_elem_of_split in Hd as (pre & post & Heq).
    pose proof (keep_last_stays arr pre d post Heq) as Hs.
    unfold stays in Hs. by apply andb_true_iff in Hs as [? _].
  - intros pre d post e Heq He.
    pose proof (keep_last_stays arr pre d post Heq) as Hs.
    unfold stays in Hs. apply andb_true_iff in Hs as [_ Hs].
    apply negb_true_iff in Hs.
    assert (Hed : strict_eq (fn e) (fn d) = false).
    { destruct (strict_eq (fn e) (fn d)) eqn:E; [|done].
      assert (existsb (fun dd => strict_eq (fn dd) (fn d)) post = true);
        [|congruence].
      apply existsb_exists. exists e. split; [by apply list_elem_of_In|done]. }
    split; [by rewrite Hsym|done].
  - induction arr as [|x arr IH]; intros d Hd Hself.
    { by apply elem_of_nil in Hd. }
    assert (Hrest : forall d', d' ∈ arr -> strict_eq (fn d') (fn d') = true ->
              exists e, e ∈ keep_last (x :: arr) /\
                strict_eq (fn e) (fn d') = true).
    { intros d' Hd' Hself'. destruct (IH d' Hd' Hself') as (e & He & Heq).
      exists e. split; [|done]. cbn [keep_last].
      destruct (stays x arr); [by right|done]. }
    apply elem_of_cons in Hd as [->|Hd]; [|by apply Hrest].
    cbn [keep_last]. destruct (stays x arr) eqn:Hx.
    { exists x. split; [by left|done]. }
    unfold stays in Hx. rewrite Hself in Hx. cbn [andb] in Hx.
    apply negb_false_iff, existsb_exists in Hx as (y & Hy & Hyx).
    apply list_elem_of_In in Hy.
    assert (Hyy : strict_eq (fn y) (fn y) = true).
    { eapply Htrans; [exact Hyx|]. by rewrite Hsym. }
    destruct (IH y Hy Hyy) as (e & He & Hey).
    exists e. split; [done|]. by eapply Htrans.
Qed.

(** X10: deduplicating twice is deduplicating once. *)
Theorem dedupeBy_idempotent (arr : list A) :
  dedupeBy (dedupeBy arr) = dedupeBy arr.
Proof.
  rewrite !dedupeBy_keep_last. apply keep_last_fixed, keep_last_stays.
Qed.

End Dedupe.

(** [getFirstDefined(undefined, null, 1)] is [null]: only [undefined] is
    skipped. *)
Example getFirstDefined_null :
  getFirstDefined [VUndefined; VNull; VNum 1] = VNull.
Proof. reflexivity. Qed.

(** Keys that are strings, or [NaN]. *)
Inductive sample_key : Type :=
| KNaN
| KStr (s : string).

(** [a === b] on them. *)
Definition sample_key_eq (a b : sample_key) : bool :=
  match a, b with
  | KStr x, KStr y => String.eqb x y
  | _, _ => false
  end.

Lemma sample_key_eq_sym a b : sample_key_eq a b = sample_key_eq b a.
Proof. destruct a, b; cbn; try done. apply String.eqb_sym. Qed.

Lemma sample_key_eq_trans a b c :
  sample_key_eq a b = true -> sample_key_eq b c = true ->
  sample_key_eq a c = true.
Proof.
  destruct a, b, c; cbn; try done.
  rewrite !String.eqb_eq. congruence.
Qed.

(** Two columns with the id [a]: the later one stays, in its place; the
    column whose key is [NaN] is dropped. *)
Example dedupeBy_sample :
  dedupeBy sample_key_eq fst
    [(KStr "a", 1); (KStr "b", 2); (KNaN, 3); (KStr "a", 4); (KStr "c", 5)]
    = [(KStr "b", 2); (KStr "a", 4); (KStr "c", 5)].
Proof. reflexivity. Qed.

Lemma dedupeBy_keys_witness :
  sublist
    (dedupeBy sample_key_eq fst [(KStr "a", 1); (KNaN, 2); (KStr "a", 3)])
    [(KStr "a", 1); (KNaN, 2); (KStr "a", 3)] /\
  Forall (fun d => sample_key_eq (fst d) (fst d) = true)
    (dedupeBy sample_key_eq fst [(KStr "a", 1); (KNaN, 2); (KStr "a", 3)]) /\
  dedupeBy sample_key_eq fst [(KStr "a", 1); (KNaN, 2); (KStr "a", 3)]
    = [(KStr "a", 3)].
Proof.
  destruct (dedupeBy_keys sample_key_eq fst
              [(KStr "a", 1); (KNaN, 2); (KStr "a", 3)]
              sample_key_eq_sym sample_key_eq_trans) as (Hsub & Hself & _).
  split; [exact Hsub|]. split; [exact Hself|]. reflexivity.
Defined.

End Helpers.

(** ** Nested columns: [flattenBy], [flattenColumns], [findMaxDepth] *)

Module ColumnTree.
Import Js.

(** A column as the walks down a configuration read it.  [columns] is
    [None] where the property is falsy (a leaf) and the nested array where
    it is set; [others] holds what the walks do not look at. *)
Inductive column : Type := Column {
  id : string;
  columns : option (list column);
  others : list (string * value)
}.

(** Induction over the tree of columns. *)
Lemma column_tree_ind (P : column -> Prop)
    (step : forall i cols o,
        match cols with
        | Some l => Forall P l
        | None => True
        end -> P (Column i cols o)) :
  forall c, P c.
Proof.
  fix IH 1. intros [i cols o]. apply step.
  destruct cols as [l|]; [|exact I].
  induction l as [|x xs IHl]; constructor; [apply IH|exact IHl].
Qed.

(** The callback of [arr.forEach] in [flattenBy] for [key = 'columns'],
    on the array [flat] it pushes to. *)
Fixpoint recurse_item (d : column) (flat : list column) {struct d}
  : list column :=
  match d with
  | Column _ None _ => flat ++ [d]
  | Column _ (Some arr) _ =>
      (fix recurse (arr : list column) (flat : list column) : list column :=
         match arr with
         | [] => flat
         | d' :: rest => recurse rest (recurse_item d' flat)
         end) arr flat
  end.

(** [recurse(arr)] *)
Definition recurse (arr : list column) (flat : list column) : list column :=
  foldl (fun flat d => recurse_item d flat) flat arr.

(** [flattenBy(arr, 'columns')] *)
Definition flattenBy (arr : list column) : list column := recurse arr [].

(** [flattenColumns(columns)] *)
Definition flattenColumns (columns : list column) : list column :=
  flattenBy columns.

(** The reducer of [findMaxDepth]: a leaf answers [depth], whatever [prev]
    was. *)
Fixpoint findMaxDepth_step (depth : nat) (prev : nat) (curr : column)
    {struct curr} : nat :=
  match curr with
  | Column _ (Some cols) _ =>
      Nat.max prev
        ((fix reduce (cols : list column) (prev' : nat) : nat :=
            match cols with
            | [] => prev'
            | c :: rest => reduce rest (findMaxDepth_step (S depth) prev' c)
            end) cols 0)
  | Column _ None _ => depth
  end.

(** [findMaxDepth(columns, depth = 0)] *)
Definition findMaxDepth (columns : list column) (depth : nat) : nat :=
  foldl (findMaxDepth_step depth) 0 columns.

(** *** What the walks are compared with *)

(** The leaves under a column, left to right. *)
Fixpoint leaves (d : column) : list column :=
  match d with
  | Column _ None _ => [d]
  | Column _ (Some arr) _ => concat (map leaves arr)
  end.

Definition is_leaf (d : column) : bool :=
  match columns d with
  | None => true
  | Some _ => false
  end.

(** The nesting depths of the leaves under a column that lies at
    [depth]. *)
Fixpoint leaf_depths (depth : nat) (d : column) : list nat :=
  match d with
  | Column _ None _ => [depth]
  | Column _ (Some arr) _ => concat (map (leaf_depths (S depth)) arr)
  end.

Definition maximum (ns : list nat) : nat := foldr Nat.max 0 ns.

(** The depth of the deepest leaf of columns that lie at [depth]. *)
Definition deepest (cols : list column) (depth : nat) : nat :=
  maximum (concat (map (leaf_depths depth) cols)).

(** In the array no leaf comes after a group ([seen_group]: a group came
    before the array's first item). *)
Fixpoint leaves_before_groups (seen_group : bool) (arr : list column) : bool :=
  match arr with
  | [] => true
  | d :: rest =>
      if is_leaf d then negb seen_group && leaves_before_groups seen_group rest
      else leaves_before_groups true rest
  end.

(** The same in every array under the column. *)
Fixpoint leaves_lead (d : column) : bool :=
  match d with
  | Column _ None _ => true
  | Column _ (Some arr) _ =>
      leaves_before_groups false arr && forallb leaves_lead arr
  end.

(** *** flattenBy *)

Lemma recurse_item_unfold d flat :
  recurse_item d flat =
    match columns d with
    | None => flat ++ [d]
    | Some arr => recurse arr flat
    end.
Proof.
  destruct d as [i [arr|] o]; [|done]. cbn [recurse_item columns].
  unfold recurse. revert flat. induction arr as [|x arr IH]; intros flat; [done|].
  cbn [foldl]. apply IH.
Qed.

Lemma recurse_cons d arr flat :
  recurse (d :: arr) flat = recurse arr (recurse_item d flat).
Proof. reflexivity. Qed.

Lemma recurse_item_leaves : forall d flat,
  recurse_item d flat = flat ++ leaves d.
Proof.
  induction d as [i cols o IH] using column_tree_ind. intros flat.
  rewrite recurse_item_unfold. cbn [columns leaves].
  destruct cols as [arr|]; [|done].
  revert flat. induction arr as [|x arr IHarr]; intros flat.
  - by rewrite app_nil_r.
  - apply Forall_cons in IH as [Hx Harr].
    rewrite recurse_cons, IHarr, Hx by done. cbn [map concat].
    by rewrite app_assoc.
Qed.

Lemma recurse_leaves arr : forall flat,
  recurse arr flat = flat ++ concat (map leaves arr).
Proof.
  induction arr as [|x arr IH]; intros flat.
  - by rewrite app_nil_r.
  - rewrite recurse_cons, IH, recurse_item_leaves. cbn [map concat].
    by rewrite app_assoc.
Qed.

Lemma leaves_are_leaves : forall d, Forall (fun c => is_leaf c = true) (leaves d).
Proof.
  induction d as [i cols o IH] using column_tree_ind. cbn [leaves].
  destruct cols as [arr|]; [|by constructor].
  induction arr as [|x arr IHarr]; [constructor|].
  apply Forall_cons in IH as [Hx Harr]. cbn [map concat].
  apply Forall_app. split; [done|]. by apply IHarr.
Qed.

Lemma leaves_of_leaf d : is_leaf d = true -> leaves d = [d].
Proof. by destruct d as [i [arr|] o]. Qed.

Lemma leaves_of_leaves cols :
  Forall (fun c => is_leaf c = true) cols -> concat (map leaves cols) = cols.
Proof.
  induction 1 as [|x cols Hx _ IH]; [done|]. cbn [map concat].
  by rewrite leaves_of_leaf, IH.
Qed.

Lemma flattenColumns_concat (cols : list column) :
  flattenColumns cols = concat (map leaves cols) /\
  Forall (fun c => is_leaf c = true) (flattenColumns cols).
Proof.
  unfold flattenColumns, flattenBy. rewrite recurse_leaves. cbn [app].
  split; [done|]. apply Forall_concat, Forall_forall.
  intros l (d & -> & _)%list_elem_of_fmap. apply leaves_are_leaves.
Qed.

(** X11: [flattenColumns] returns the leaves of the configuration in reading
    order: the columns without nested columns, each group replaced by what is
    under it. *)
Theorem flattenColumns_leaves (cols : list column) :
  flattenColumns cols = concat (map leaves cols) /\
  Forall (fun c => is_leaf c = true) (flattenColumns cols).
Proof. apply flattenColumns_concat. Qed.

(** X12: flattening what is flat changes nothing: [flattenColumns] returns a
    list of leaves as it is, its own result among them. *)
Theorem flattenColumns_idempotent (cols : list column) :
  flattenColumns (flattenColumns cols) = flattenColumns cols.
Proof.
  destruct (flattenColumns_concat cols) as [_ Hleaf].
  destruct (flattenColumns_concat (flattenColumns cols)) as [-> _].
  by apply leaves_of_leaves.
Qed.

(** X13: a group whose [columns] is an empty array is no leaf and has none: it
    leaves no trace in the flat columns. *)
Theorem flattenColumns_empty_group i o (before after : list column) :
  flattenColumns (before ++ Column i (Some []) o :: after)
    = flattenColumns before ++ flattenColumns after.
Proof.
  destruct (flattenColumns_concat (before ++ Column i (Some []) o :: after))
    as [-> _].
  destruct (flattenColumns_concat before) as [-> _].
  destruct (flattenColumns_concat after) as [-> _].
  by rewrite map_app, concat_app.
Qed.

(** *** findMaxDepth *)

Lemma findMaxDepth_step_unfold depth prev curr :
  findMaxDepth_step depth prev curr =
    match columns curr with
    | Some cols => Nat.max prev (findMaxDepth cols (S depth))
    | None => depth
    end.
Proof.
  destruct curr as [i [cols|] o]; [|done].
  cbn [findMaxDepth_step columns]. f_equal. unfold findMaxDepth.
  generalize 0. induction cols as [|x cols IH]; intros prev'; [done|].
  cbn [foldl]. apply IH.
Qed.

Lemma maximum_app xs ys :
  maximum (xs ++ ys) = Nat.max (maximum xs) (maximum ys).
Proof.
  unfold maximum. induction xs as [|x xs IH]; [done|]. cbn [foldr app].
  rewrite IH. lia.
Qed.

Lemma findMaxDepth_step_le : forall curr depth prev,
  findMaxDepth_step depth prev curr
    <= Nat.max prev (maximum (leaf_depths depth curr)).
Proof.
  induction curr as [i cols o IH] using column_tree_ind. intros depth prev.
  rewrite findMaxDepth_step_unfold. cbn [columns leaf_depths].
  destruct cols as [arr|]; [|cbn; lia].
  apply Nat.max_le_compat_l. unfold findMaxDepth.
  assert (Hgen : forall prev',
    foldl (findMaxDepth_step (S depth)) prev' arr
      <= Nat.max prev' (maximum (concat (map (leaf_depths (S depth)) arr)))).
  { induction arr as [|x arr IHarr]; intros prev'; [cbn; lia|].
    apply Forall_cons in IH as [Hx Harr]. cbn [foldl map concat].
    rewrite maximum_app. specialize (IHarr Harr).
    etrans; [apply IHarr|]. specialize (Hx (S depth) prev'). lia. }
  specialize (Hgen 0). lia.
Qed.

(** X14: [findMaxDepth] never answers more than the depth of the deepest leaf. *)
Theorem findMaxDepth_le_deepest (cols : list column) (depth : nat) :
  findMaxDepth cols depth <= deepest cols depth.
Proof.
  unfold findMaxDepth, deepest.
  assert (Hgen : forall prev,
    foldl (findMaxDepth_step depth) prev cols
      <= Nat.max prev (maximum (concat (map (leaf_depths depth) cols)))).
  { induction cols as [|x cols IH]; intros prev; [cbn; lia|].
    cbn [foldl map concat]. rewrite maximum_app.
    etrans; [apply IH|].
    pose proof (findMaxDepth_step_le x depth prev). lia. }
  specialize (Hgen 0). lia.
Qed.

Lemma foldl_findMaxDepth_exact depth arr : forall seen_group prev,
  Forall (fun x => leaves_lead x = true ->
            forall sub, columns x = Some sub ->
              findMaxDepth sub (S depth) = maximum (leaf_depths depth x)) arr ->
  forallb leaves_lead arr = true ->
  leaves_before_groups seen_group arr = true ->
  seen_group = true \/ prev <= depth ->
  foldl (findMaxDepth_step depth) prev arr
    = Nat.max prev (maximum (concat (map (leaf_depths depth) arr))).
Proof.
  induction arr as [|x arr IH]; intros seen_group prev Hall Hlead Hord Hprev.
  { cbn. lia. }
  apply Forall_cons in Hall as [Hx Hall].
  cbn [forallb] in Hlead. apply andb_true_iff in Hlead as [Hlx Hlead].
  cbn [foldl map concat leaves_before_groups] in *.
  rewrite maximum_app, findMaxDepth_step_unfold.
  destruct x as [i [sub|] o]; cbn [is_leaf columns] in *.
  - rewrite (IH true) by auto. rewrite (Hx Hlx sub eq_refl). lia.
  - apply andb_true_iff in Hord as [Hseen Hord].
    destruct seen_group; [done|]. destruct Hprev as [|Hprev]; [done|].
    rewrite (IH false) by auto. cbn. lia.
Qed.

Lemma findMaxDepth_exact_column : forall x,
  leaves_lead x = true ->
  forall depth sub, columns x = Some sub ->
    findMaxDepth sub (S depth) = maximum (leaf_depths depth x).
Proof.
  induction x as [i cols o IH] using column_tree_ind.
  intros Hlead depth sub Hsub. cbn [columns] in Hsub. subst cols.
  cbn [leaves_lead] in Hlead. apply andb_true_iff in Hlead as [Hord Hlead].
  cbn [leaf_depths]. unfold findMaxDepth.
  rewrite (foldl_findMaxDepth_exact (S depth) sub false 0); [done| |done..|].
  - eapply Forall_impl; [exact IH|]. intros x Hx Hlx sub' Hsub'.
    by apply Hx.
  - right. lia.
Qed.

(** X15: where in every array the leaves come before the groups,
    [findMaxDepth] answers the depth of the deepest leaf. *)
Theorem findMaxDepth_exact (cols : list column) (depth : nat) :
  leaves_before_groups false cols = true ->
  forallb leaves_lead cols = true ->
  findMaxDepth cols depth = deepest cols depth.
Proof.
  intros Hord Hlead. unfold findMaxDepth, deepest.
  rewrite (foldl_findMaxDepth_exact depth cols false 0); [done| |done..|].
  - apply Forall_forall. intros x _ Hlx sub Hsub.
    by apply findMaxDepth_exact_column.
  - right. lia.
Qed.

(** X16: a leaf at the end of the list makes [findMaxDepth] answer the depth
    of the list itself, however deep the columns before it are nested: the
    reducer drops what it had when it meets a leaf. *)
Theorem findMaxDepth_trailing_leaf (cols : list column) i o (depth : nat) :
  findMaxDepth (cols ++ [Column i None o]) depth = depth.
Proof. unfold findMaxDepth. by rewrite foldl_app. Qed.

(** *** Concrete runs *)

Definition leaf_column (i : string) : column := Column i None [].
Definition group_column (i : string) (cols : list column) : column :=
  Column i (Some cols) [].

(** [[{ Name: [first, last] }, age, { Empty: [] }, { Info: [{ More: [visits] }] }]] *)
Definition nested_columns : list column :=
  [ group_column "Name" [leaf_column "first"; leaf_column "last"];
    leaf_column "age";
    group_column "Empty" [];
    group_column "Info" [group_column "More" [leaf_column "visits"]] ].

Example flattenColumns_sample :
  flattenColumns nested_columns
    = [leaf_column "first"; leaf_column "last"; leaf_column "age";
       leaf_column "visits"].
Proof. reflexivity. Qed.

Example findMaxDepth_sample :
  findMaxDepth nested_columns 0 = 2 /\ deepest nested_columns 0 = 2.
Proof. by split. Qed.

(** The same columns with the leaf [age] last: the answer is 0, the
    deepest leaf lies at 2. *)
Example findMaxDepth_depends_on_order :
  findMaxDepth
    [ group_column "Name" [leaf_column "first"; leaf_column "last"];
      group_column "Info" [group_column "More" [leaf_column "visits"]];
      leaf_column "age" ] 0 = 0 /\
  deepest
    [ group_column "Name" [leaf_column "first"; leaf_column "last"];
      group_column "Info" [group_column "More" [leaf_column "visits"]];
      leaf_column "age" ] 0 = 2.
Proof. by split. Qed.

Lemma findMaxDepth_exact_witness :
  findMaxDepth
    [ leaf_column "age";
      group_column "Name" [leaf_column "first"; leaf_column "last"];
      group_column "Info" [group_column "More" [leaf_column "visits"]] ] 0
  = deepest
      [ leaf_column "age";
        group_column "Name" [leaf_column "first"; leaf_column "last"];
        group_column "Info" [group_column "More" [leaf_column "visits"]] ] 0.
Proof.
  apply (findMaxDepth_exact
           [ leaf_column "age";
             group_column "Name" [leaf_column "first"; leaf_column "last"];
             group_column "Info" [group_column "More" [leaf_column "visits"]] ]
           0); reflexivity.
Defined.

End ColumnTree.

(** ** Materialized columns: what [assignColumnAccessor] and
    [linkColumnStructure] leave behind *)

Module ColumnFacts.
Import Js Columns.

(** The array [cols] of [h] holds materialized columns: each with a truthy
    id, with the parent [p] and the depth [d] of the array, its nested
    columns materialized under it, one level deeper. *)
Fixpoint well_linked (n : nat) (h : heap) (p : option loc) (d : nat)
    (cols : loc) : Prop :=
  match n with
  | O => False
  | S n' =>
      exists items,
        h !! cols = Some (CArray items) /\
        Forall (fun c =>
                  exists col,
                    h !! c = Some (CColumn col) /\
                    truthy (id col) = true /\
                    parent col = p /\ depth col = Some d /\
                    match columns col with
                    | None => True
                    | Some nested => well_linked n' h (Some c) (S d) nested
                    end) items
  end.

Lemma assignColumnAccessor_Ok col col' :
  assignColumnAccessor col = Ok col' ->
  truthy (id col') = true /\
  (forall s, accessor col' <> AccValue (VStr s)) /\
  Header col' = Header col /\ columns col' = columns col /\
  parent col' = parent col /\ depth col' = depth col /\
  others col' = others col.
Proof.
  unfold assignColumnAccessor.
  destruct (match accessor col with
            | AccValue (VStr s) => _
            | a => (id col, a)
            end) as [id1 accessor1] eqn:E.
  assert (Hacc : forall s, accessor1 <> AccValue (VStr s)).
  { destruct (accessor col) as [[]|]; by intros s'; injection E as <- <-. }
  destruct (truthy id1) eqn:Hid1; cbn [negb andb].
  - rewrite Hid1. cbn [negb andb]. by intros [= <-].
  - destruct (is_string (Header col) && truthy (Header col)) eqn:Hlab.
    + apply andb_true_iff in Hlab as [_ Hlab]. rewrite Hlab. cbn [negb andb].
      by intros [= <-].
    + rewrite Hid1. cbn [negb andb]. by destruct (bool_decide _).
Qed.

(** X17: a column [assignColumnAccessor] accepts comes back with a truthy id
    and without a string accessor, everything else as it was; passing it
    through [assignColumnAccessor] again changes nothing. *)
Theorem assignColumnAccessor_settles (col col' : column) :
  assignColumnAccessor col = Ok col' ->
  truthy (id col') = true /\
  (forall s, accessor col' <> AccValue (VStr s)) /\
  Header col' = Header col /\ columns col' = columns col /\
  parent col' = parent col /\ depth col' = depth col /\
  others col' = others col /\
  assignColumnAccessor col' = Ok col'.
Proof.
  intros H. destruct (assignColumnAccessor_Ok col col' H)
    as (Hid & Hacc & HH & Hc & Hp & Hd & Ho).
  repeat (split; [done|]).
  destruct col' as [i a hd c p d o]. cbn in Hid, Hacc.
  unfold assignColumnAccessor. cbn [accessor Columns.id Columns.Header
    Columns.columns Columns.parent Columns.depth Columns.others].
  destruct a as [v|path].
  - destruct v; try (rewrite Hid; cbn [negb andb]; rewrite ?Hid; done).
    by destruct (Hacc s).
  - rewrite Hid. cbn [negb andb]. by rewrite Hid.
Qed.

Lemma Linked_well_linked n : forall b h0 h' p d cols cols',
  Linked n b h0 h' p d cols cols' -> well_linked n h' p d cols'.
Proof.
  induction n as [|n IH]; intros b h0 h' p d cols cols'; [done|].
  cbn [Linked well_linked]. intros (items & items' & _ & _ & Hcols' & Hall).
  exists items'. split; [done|]. clear Hcols'.
  induction Hall as [|c c' items items' Hc _ IHall];
    [constructor|constructor; [|done]].
  destruct Hc as (col & col1 & _ & _ & Hassign & Hnested).
  destruct (assignColumnAccessor_Ok _ _ Hassign)
    as (Hid & _ & _ & Hcs & Hp & Hd & _).
  cbn in Hcs, Hp, Hd.
  destruct (columns col) as [nested|].
  - destruct Hnested as (nested' & Hc' & HL).
    exists (set_columns col1 (Some nested')). split; [done|].
    cbn. repeat (split; [done|]). by eapply IH.
  - exists col1. split; [done|]. repeat (split; [done|]). by rewrite Hcs.
Qed.

(** X18: on a configuration, [linkColumnStructure] returns columns that hang
    together: every column has a truthy id, the columns of the returned array
    have the given parent and depth, and the columns nested in a column have
    that column (the copy, not the caller's object) as parent and its depth
    plus one. *)
Theorem linkColumnStructure_well_linked n fuel (h : heap) cols p d :
  n <= fuel -> materializable n h cols ->
  exists h' root,
    linkColumnStructure fuel cols p d h = (h', Done root) /\
    well_linked n h' p d root.
Proof.
  intros Hn Hmat.
  destruct (linkColumnStructure_linked n fuel h h cols p d Hn) as
    (h' & root & Hrun & _ & HL); [done..|].
  exists h', root. split; [done|]. by eapply Linked_well_linked.
Qed.

(** *** Concrete runs *)

Lemma assignColumnAccessor_settles_witness :
  exists col',
    assignColumnAccessor
      (configured VUndefined (AccValue (VStr "last.name")) VUndefined None)
      = Ok col' /\
    id col' = VStr "last.name" /\
    accessor col' = AccPath ["last"; "name"] /\
    assignColumnAccessor col' = Ok col'.
Proof.
  eexists. split; [reflexivity|]. split; [reflexivity|].
  split; [reflexivity|].
  apply (assignColumnAccessor_settles
           (configured VUndefined (AccValue (VStr "last.name")) VUndefined
              None)).
  reflexivity.
Defined.

Lemma linkColumnStructure_well_linked_witness :
  exists h' root,
    linkColumnStructure 3 5 None 0 sample_configuration = (h', Done root) /\
    well_linked 2 h' None 0 root.
Proof.
  apply (linkColumnStructure_well_linked 2 3 sample_configuration 5 None 0);
    [lia|]. apply sample_configuration_materializable.
Defined.

End ColumnFacts.

(** ** Row materialization: what a pass builds *)

Module RowFacts.
Import Js Rows.

(** From [s] to [s'] nothing was taken away: the entries of [flatRows] and
    [rowsById] are there, and every row object has its identity, its
    [subRows], its values of the other columns, and a value of the column
    [cid] if it had one. *)
Definition grown (cid : string) (s s' : state) : Prop :=
  flatRows s `prefix_of` flatRows s' /\
  rowsById s ⊆ rowsById s' /\
  (forall l r, heap s !! l = Some r ->
     exists r', heap s' !! l = Some r' /\ same_identity r r' /\
       subRows r' = subRows r /\
       (forall k, k <> cid -> values r' !! k = values r !! k) /\
       (is_Some (values r !! cid) -> is_Some (values r' !! cid))).

(** [parentRows] is only pushed to. *)
Definition pushed (pr pr' : option (list loc)) : Prop :=
  match pr with
  | Some acc => exists new, pr' = Some (acc ++ new)
  | None => pr' = None
  end.

(** [flatRows] lists the row objects in the order they were made, and
    [rowsById] finds every row object under its id. *)
Definition indexed (s : state) : Prop :=
  flatRows s = seq 0 (length (heap s)) /\
  (forall l r, heap s !! l = Some r -> rowsById s !! id r = Some l).

(** The row object at [l] was made at depth [D] for an item of [ds]: it
    has that depth, and its [original] is the item at its [index]. *)
Definition made (s : state) (D : nat) (ds : list value) (l : loc) : Prop :=
  exists r, heap s !! l = Some r /\ depth r = D /\
    ds !! index r = Some (original r).

(** The rows in [subRows] are rows of the raw sub-rows, one level deeper. *)
Definition nested (s : state) : Prop :=
  forall l r subs, heap s !! l = Some r -> subRows r = Some subs ->
    exists ds, originalSubRows r = Some ds /\
      Forall (made s (S (depth r)) ds) subs.

(** The row objects from address [n] on have a value of the column. *)
Definition valued (cid : string) (n : nat) (s : state) : Prop :=
  forall l r, n <= l -> heap s !! l = Some r -> is_Some (values r !! cid).

(** *** A pass only adds *)

Lemma grown_refl cid s : grown cid s s.
Proof.
  split; [done|]. split; [done|]. intros l r Hr. exists r. split; [done|].
  split; [apply same_identity_refl|]. by repeat split.
Qed.

Lemma grown_trans cid s1 s2 s3 :
  grown cid s1 s2 -> grown cid s2 s3 -> grown cid s1 s3.
Proof.
  intros (Hf1 & Hm1 & Hh1) (Hf2 & Hm2 & Hh2).
  split; [by etrans|]. split; [by etrans|].
  intros l r Hr. destruct (Hh1 l r Hr) as (r2 & Hr2 & Hid2 & Hs2 & Hv2 & Hc2).
  destruct (Hh2 l r2 Hr2) as (r3 & Hr3 & Hid3 & Hs3 & Hv3 & Hc3).
  exists r3. split; [done|]. split; [by eapply same_identity_trans|].
  split; [congruence|]. split; [|by auto].
  intros k Hk. by rewrite Hv3, Hv2.
Qed.

Lemma grown_length cid s s' : grown cid s s' -> length (heap s) <= length (heap s').
Proof.
  intros (_ & _ & Hh).
  destruct (decide (length (heap s) <= length (heap s'))) as [|Hlt]; [done|].
  destruct (lookup_lt_is_Some_2 (heap s) (length (heap s'))) as [r Hr]; [lia|].
  destruct (Hh _ _ Hr) as (r' & Hr' & _). apply lookup_lt_Some in Hr'. lia.
Qed.

Lemma grown_created cid s r0 fl m :
  flatRows s `prefix_of` fl -> rowsById s ⊆ m ->
  grown cid s (State (heap s ++ [r0]) fl m).
Proof.
  intros Hfl Hm. split; [done|]. split; [done|]. cbn [heap].
  intros l r Hr. exists r. rewrite lookup_app_l by (by eapply lookup_lt_Some).
  split; [done|]. split; [apply same_identity_refl|]. by repeat split.
Qed.

Lemma grown_update_new cid s s' l f :
  grown cid s s' -> length (heap s) <= l -> grown cid s (update_row l f s').
Proof.
  intros (Hf & Hm & Hh) Hl. split; [done|]. split; [done|].
  intros l' r Hr. destruct (Hh l' r Hr) as (r' & Hr' & Hrest).
  exists r'. split; [|done]. unfold update_row. cbn [heap].
  rewrite list_lookup_alter_ne; [done|]. apply lookup_lt_Some in Hr. lia.
Qed.

Section Built.

Variable getRowId : value -> nat -> option row -> string.
Variable getSubRows : value -> nat -> option (list value).
Variable inherited_key : string -> bool.
Variable col : column.
Variable accessValueHooks : list (value -> row -> value).

(** The end of [accessRow] gives the row a value of the column. *)
Lemma assign_value_valued d i l s r :
  heap s !! l = Some r ->
  exists r', heap (assign_value col accessValueHooks d i l s) !! l = Some r' /\
    is_Some (values r' !! column_id col).
Proof.
  intros Hr. unfold assign_value. rewrite Hr. unfold update_row. cbn [heap].
  rewrite list_lookup_alter_eq, Hr. cbn [fmap option_fmap option_map].
  eexists. split; [done|]. unfold set_values at 1. cbn [values].
  rewrite lookup_insert_eq. by eexists.
Qed.

Lemma assign_value_other d i l s l' :
  l' <> l ->
  heap (assign_value col accessValueHooks d i l s) !! l' = heap s !! l'.
Proof.
  intros Hne. unfold assign_value. destruct (heap s !! l) as [r|]; [|done].
  unfold update_row. cbn [heap]. by rewrite list_lookup_alter_ne.
Qed.

Lemma grown_assign d i l s :
  grown (column_id col) s (assign_value col accessValueHooks d i l s).
Proof.
  destruct (only_values_assign col accessValueHooks d i l s)
    as (Hf & Hm & _ & Hh).
  split; [by rewrite Hf|]. split; [by rewrite Hm|].
  intros l' r Hr. destruct (Hh l' r Hr) as (r' & Hr' & Hid & Hsub & Hval).
  exists r'. repeat (split; [done|]). intros Hsome.
  destruct (decide (l' = l)) as [->|Hne].
  - destruct (assign_value_valued d i l s r Hr) as (r2 & Hr2 & Hv).
    congruence.
  - rewrite assign_value_other in Hr' by done. congruence.
Qed.

Lemma forEach_grown f :
  (forall d i pr s st s' pr',
     f d i pr s = (st, s', pr') ->
     grown (column_id col) s s' /\ pushed pr pr') ->
  forall ds from pr s st s' pr',
    forEach f ds from pr s = (st, s', pr') ->
    grown (column_id col) s s' /\ pushed pr pr'.
Proof.
  intros Hf. induction ds as [|d rest IH]; intros from pr s st s' pr' Hrun.
  - injection Hrun as <- <- <-. split; [apply grown_refl|].
    destruct pr as [acc|]; [|done]. exists []. by rewrite app_nil_r.
  - cbn [forEach] in Hrun.
    destruct (f d from pr s) as [[st1 s1] pr1] eqn:Hcall.
    destruct (Hf _ _ _ _ _ _ _ Hcall) as [H1 Hp1].
    destruct st1; try (by injection Hrun as <- <- <-).
    destruct (IH _ _ _ _ _ _ Hrun) as [H2 Hp2].
    split; [by eapply grown_trans|].
    destruct pr as [acc|]; cbn in *.
    + destruct Hp1 as [new1 ->]. destruct Hp2 as [new2 ->].
      exists (new1 ++ new2). by rewrite app_assoc.
    + by subst pr1.
Qed.

Lemma pushed_refl pr : pushed pr pr.
Proof. destruct pr as [acc|]; [|done]. exists []. by rewrite app_nil_r. Qed.

Lemma pushed_one acc l : pushed (Some acc) (Some (acc ++ [l])).
Proof. by exists [l]. Qed.

Lemma accessRow_grown fuel :
  forall d i depth parent pr s st s' pr',
    accessRow getRowId getSubRows inherited_key col accessValueHooks fuel d i depth parent
      pr s = (st, s', pr') ->
    grown (column_id col) s s' /\ pushed pr pr'.
Proof.
  induction fuel as [|fuel IH]; intros d i depth parent pr s st s' pr' Hrun.
  { injection Hrun as <- <- <-. split; [apply grown_refl|apply pushed_refl]. }
  cbn [accessRow] in Hrun.
  set (rid := getRowId d i (parent ≫= fun p => heap s !! p)) in *.
  destruct (rowsById s !! rid) as [l|] eqn:Hlook.
  - destruct (heap s !! l) as [r|] eqn:Hr.
    2:{ injection Hrun as <- <- <-. split; [apply grown_refl|apply pushed_refl]. }
    destruct (subRows r) as [subs|].
    + destruct (originalSubRows r) as [ds|].
      2:{ injection Hrun as <- <- <-.
          split; [apply grown_refl|apply pushed_refl]. }
      destruct (forEach _ ds 0 None s) as [[st4 s4] pr4] eqn:Hfe.
      destruct (forEach_grown _
                  (fun d1 i1 pr1 sa st1 sb pr1' =>
                     IH d1 i1 (S depth) (Some l) pr1 sa st1 sb pr1')
                  _ _ _ _ _ _ _ Hfe) as [H4 _].
      destruct st4; injection Hrun as <- <- <-;
        (split; [|apply pushed_refl]); try done.
      eapply grown_trans; [exact H4|apply grown_assign].
    + injection Hrun as <- <- <-. split; [apply grown_assign|apply pushed_refl].
  - destruct (inherited_key rid).
    { injection Hrun as <- <- <-. split; [apply grown_refl|apply pushed_refl]. }
    cbn [heap flatRows rowsById] in Hrun.
    destruct pr as [rows|].
    2:{ injection Hrun as <- <- <-. split; [|done].
        by apply grown_created. }
    rewrite update_row_alloc in Hrun.
    set (r0 := set_originalSubRows (getSubRows d i)
                 (Row rid d i depth unprepared_cells ∅ None None)) in *.
    set (s3 := State (heap s ++ [r0]) (flatRows s ++ [length (heap s)])
                 (<[rid := length (heap s)]> (rowsById s))) in *.
    assert (H3 : grown (column_id col) s s3).
    { apply grown_created; [by apply prefix_app_r|by apply insert_subseteq]. }
    destruct (getSubRows d i) as [ds|].
    + destruct (forEach _ ds 0 (Some []) s3) as [[st4 s4] pr4] eqn:Hfe.
      destruct (forEach_grown _
                  (fun d1 i1 pr1 sa st1 sb pr1' =>
                     IH d1 i1 (S depth) (Some (length (heap s))) pr1 sa st1
                       sb pr1')
                  _ _ _ _ _ _ _ Hfe) as [H4 _].
      assert (H34 : grown (column_id col) s s4) by (by eapply grown_trans).
      destruct st4; injection Hrun as <- <- <-;
        (split; [|apply pushed_one]); try done.
      eapply grown_trans; [|apply grown_assign].
      by apply grown_update_new.
    + injection Hrun as <- <- <-. split; [|apply pushed_one].
      eapply grown_trans; [exact H3|apply grown_assign].
Qed.

(** X19: whatever the state it starts from and however it ends, a pass of
    [accessRowsForColumn] takes nothing away: [flatRows], [rowsById] and
    [rows] are only added to, and every row object that was there keeps its
    id, raw item, index, depth, cells and sub-rows, and its values of the
    other columns. *)
Theorem accessRowsForColumn_only_adds (fuel : nat) (data : list value)
    (rows : list loc) (s : state) :
  grown (column_id col) s
    (accessRowsForColumn getRowId getSubRows inherited_key col
       accessValueHooks fuel data rows s).1.2 /\
  exists new,
    (accessRowsForColumn getRowId getSubRows inherited_key col
       accessValueHooks fuel data rows s).2 = Some (rows ++ new).
Proof.
  destruct (accessRowsForColumn _ _ _ _ _ fuel data rows s) as [[st s'] pr']
    eqn:Hrun.
  unfold accessRowsForColumn in Hrun.
  exact (forEach_grown _
           (fun d1 i1 pr1 sa st1 sb pr1' =>
              accessRow_grown fuel d1 i1 0 None pr1 sa st1 sb pr1')
           _ _ _ _ _ _ _ Hrun).
Qed.

(** *** What a pass that returns has built *)

(** Row objects stay, with their identity. *)
Definition kept (s s' : state) : Prop :=
  forall l r, heap s !! l = Some r ->
    exists r', heap s' !! l = Some r' /\ same_identity r r'.

Lemma kept_grown cid s s' : grown cid s s' -> kept s s'.
Proof.
  intros (_ & _ & Hh) l r Hr. destruct (Hh l r Hr) as (r' & ? & ? & _). eauto.
Qed.

Lemma kept_only_values cid s s' : only_values cid s s' -> kept s s'.
Proof.
  intros (_ & _ & _ & Hh) l r Hr. destruct (Hh l r Hr) as (r' & ? & ? & _).
  eauto.
Qed.

Lemma kept_update_row l f s :
  (forall r, same_identity r (f r)) -> kept s (update_row l f s).
Proof.
  intros Hf l' r Hr. unfold update_row. cbn [heap].
  destruct (decide (l' = l)) as [->|Hne].
  - rewrite list_lookup_alter_eq, Hr. cbn. eauto.
  - rewrite list_lookup_alter_ne by done. exists r. split; [done|].
    apply same_identity_refl.
Qed.

Lemma kept_created s r0 fl m : kept s (State (heap s ++ [r0]) fl m).
Proof.
  intros l r Hr. exists r. cbn [heap].
  rewrite lookup_app_l by (by eapply lookup_lt_Some).
  split; [done|apply same_identity_refl].
Qed.

Lemma made_kept s s' D ds l : kept s s' -> made s D ds l -> made s' D ds l.
Proof.
  intros Hk (r & Hr & Hd & Ho).
  destruct (Hk l r Hr) as (r' & Hr' & _ & Horig & Hidx & Hdep & _).
  exists r'. split; [done|]. split; [congruence|]. by rewrite <- Hidx, <- Horig.
Qed.

Lemma indexed_only_values cid s s' :
  only_values cid s s' -> indexed s -> indexed s'.
Proof.
  intros (Hf & Hm & Hl & Hh) [Hflat Hids]. split; [congruence|].
  intros l r' Hr'.
  destruct (lookup_lt_is_Some_2 (heap s) l) as [r Hr].
  { apply lookup_lt_Some in Hr'. lia. }
  destruct (Hh l r Hr) as (r2 & Hr2 & (Hid & _) & _).
  assert (r2 = r') as -> by congruence.
  rewrite Hm, <- Hid. by apply Hids.
Qed.

Lemma indexed_created s rid r0 :
  indexed s -> rowsById s !! rid = None -> id r0 = rid ->
  indexed (State (heap s ++ [r0]) (flatRows s ++ [length (heap s)])
             (<[rid := length (heap s)]> (rowsById s))).
Proof.
  intros [Hflat Hids] Hnone Hid0. split; cbn [heap flatRows rowsById].
  - rewrite length_app, Hflat. cbn [length]. by rewrite seq_app.
  - intros l r Hr. destruct (decide (l < length (heap s))) as [Hlt|Hge].
    + rewrite lookup_app_l in Hr by done. pose proof (Hids l r Hr) as Hl.
      rewrite lookup_insert_ne; [done|]. intros Heq. congruence.
    + rewrite lookup_app_r in Hr by lia.
      destruct (l - length (heap s)) as [|n] eqn:E; [|done].
      injection Hr as <-. rewrite Hid0, lookup_insert_eq. f_equal. lia.
Qed.

Lemma indexed_update_row l f s :
  (forall r, same_identity r (f r)) -> indexed s -> indexed (update_row l f s).
Proof.
  intros Hf [Hflat Hids]. unfold update_row.
  split; cbn [heap flatRows rowsById]; [by rewrite length_alter|].
  intros l' r' Hr'. destruct (decide (l' = l)) as [->|Hne].
  - rewrite list_lookup_alter_eq in Hr'.
    destruct (heap s !! l) as [r|] eqn:Hr; [|done]. injection Hr' as <-.
    destruct (Hf r) as (<- & _). by apply Hids.
  - rewrite list_lookup_alter_ne in Hr' by done. by apply Hids.
Qed.

Lemma indexed_NoDup s : indexed s -> NoDup (id <$> heap s).
Proof.
  intros [_ Hids]. apply NoDup_alt. intros i j x Hi Hj.
  rewrite list_lookup_fmap in Hi, Hj.
  destruct (heap s !! i) as [ri|] eqn:Hri; [|done].
  destruct (heap s !! j) as [rj|] eqn:Hrj; [|done].
  cbn in Hi, Hj. injection Hi as <-. injection Hj as Hj.
  pose proof (Hids i ri Hri) as H1. pose proof (Hids j rj Hrj) as H2.
  rewrite Hj in H2. congruence.
Qed.

Lemma nested_only_values cid s s' :
  only_values cid s s' -> nested s -> nested s'.
Proof.
  intros Hov Hn l r' subs Hr' Hsubs.
  pose proof (kept_only_values _ _ _ Hov) as Hk.
  destruct Hov as (_ & _ & Hl & Hh).
  destruct (lookup_lt_is_Some_2 (heap s) l) as [r Hr].
  { apply lookup_lt_Some in Hr'. lia. }
  destruct (Hh l r Hr) as (r2 & Hr2 & (_ & _ & _ & Hdep & _ & Hosr) & Hsub & _).
  assert (r2 = r') as -> by congruence.
  destruct (Hn l r subs Hr) as (ds & Hds & Hall); [congruence|].
  exists ds. split; [congruence|]. rewrite <- Hdep.
  eapply Forall_impl; [exact Hall|]. intros l'. by apply made_kept.
Qed.

Lemma nested_created s r0 fl m :
  nested s -> subRows r0 = None -> nested (State (heap s ++ [r0]) fl m).
Proof.
  intros Hn H0 l r subs Hr Hsubs. cbn [heap] in Hr.
  destruct (decide (l < length (heap s))) as [Hlt|Hge].
  - rewrite lookup_app_l in Hr by done.
    destruct (Hn l r subs Hr Hsubs) as (ds & Hds & Hall).
    exists ds. split; [done|].
    eapply Forall_impl; [exact Hall|]. intros l'.
    apply made_kept, kept_created.
  - rewrite lookup_app_r in Hr by lia.
    destruct (l - length (heap s)) as [|n]; [|done].
    injection Hr as <-. congruence.
Qed.

Lemma same_identity_set_subRows subs r : same_identity r (set_subRows subs r).
Proof. by repeat split. Qed.

Lemma nested_set_subRows s l r ds new :
  nested s -> heap s !! l = Some r -> originalSubRows r = Some ds ->
  Forall (made s (S (depth r)) ds) new ->
  nested (update_row l (set_subRows (Some new)) s).
Proof.
  intros Hn Hr Hds Hnew l' r' subs Hr' Hsubs.
  assert (Hk : kept s (update_row l (set_subRows (Some new)) s)).
  { apply kept_update_row. intros r1. apply same_identity_set_subRows. }
  unfold update_row in Hr'. cbn [heap] in Hr'.
  destruct (decide (l' = l)) as [->|Hne].
  - rewrite list_lookup_alter_eq, Hr in Hr'. cbn in Hr'. injection Hr' as <-.
    cbn in Hsubs. injection Hsubs as <-. exists ds. split; [done|]. cbn [depth].
    eapply Forall_impl; [exact Hnew|]. intros l'. by apply made_kept.
  - rewrite list_lookup_alter_ne in Hr' by done.
    destruct (Hn l' r' subs Hr' Hsubs) as (ds' & Hds' & Hall).
    exists ds'. split; [done|].
    eapply Forall_impl; [exact Hall|]. intros l2. by apply made_kept.
Qed.

Lemma valued_beyond cid n s : length (heap s) <= n -> valued cid n s.
Proof. intros Hn l r Hl Hr. apply lookup_lt_Some in Hr. lia. Qed.

Lemma valued_grown cid n s1 s2 :
  valued cid n s1 -> grown cid s1 s2 -> valued cid (length (heap s1)) s2 ->
  valued cid n s2.
Proof.
  intros H1 (_ & _ & Hh) H2 l r2 Hl Hr2.
  destruct (decide (l < length (heap s1))) as [Hlt|Hge].
  - destruct (lookup_lt_is_Some_2 (heap s1) l Hlt) as [r1 Hr1].
    destruct (Hh l r1 Hr1) as (r' & Hr' & _ & _ & _ & Hsome).
    assert (r' = r2) as -> by congruence. apply Hsome. by eapply H1.
  - eapply H2; [|done]. lia.
Qed.

(** What a call that returns leaves: the invariants hold on, the rows it
    made have a value of the column, and the rows pushed on [parentRows]
    were made at depth [D] for items of [all]. *)
Definition shaped (D : nat) (all : list value) (pr : option (list loc))
    (s s' : state) (pr' : option (list loc)) : Prop :=
  (indexed s -> indexed s') /\
  (nested s -> nested s') /\
  valued (column_id col) (length (heap s)) s' /\
  match pr with
  | Some acc =>
      exists new, pr' = Some (acc ++ new) /\ Forall (made s' D all) new
  | None => pr' = None
  end.

Lemma shaped_assign D all pr s s4 d i l :
  (indexed s -> indexed s4) -> (nested s -> nested s4) ->
  valued (column_id col) (length (heap s)) s4 ->
  shaped D all pr s (assign_value col accessValueHooks d i l s4) pr.
Proof.
  intros Hi Hn Hv.
  pose proof (only_values_assign col accessValueHooks d i l s4) as Hov.
  split; [intros H; by eapply indexed_only_values; [exact Hov|auto]|].
  split; [intros H; by eapply nested_only_values; [exact Hov|auto]|].
  split.
  - eapply valued_grown; [exact Hv|apply grown_assign|].
    apply valued_beyond. destruct Hov as (_ & _ & -> & _). done.
  - destruct pr as [acc|]; [|done]. exists []. by rewrite app_nil_r.
Qed.

Lemma forEach_shape f D all :
  (forall d i pr s s' pr',
     f d i pr s = (Returned, s', pr') -> all !! i = Some d ->
     shaped D all pr s s' pr') ->
  (forall d i pr s st s' pr',
     f d i pr s = (st, s', pr') ->
     grown (column_id col) s s' /\ pushed pr pr') ->
  forall ds from pr s s' pr',
    forEach f ds from pr s = (Returned, s', pr') ->
    (forall k d, ds !! k = Some d -> all !! (from + k) = Some d) ->
    shaped D all pr s s' pr'.
Proof.
  intros Hf Hg. induction ds as [|d rest IH]; intros from pr s s' pr' Hrun Hall.
  - injection Hrun as <- <-. split; [done|]. split; [done|].
    split; [by apply valued_beyond|].
    destruct pr as [acc|]; [|done]. exists []. by rewrite app_nil_r.
  - cbn [forEach] in Hrun.
    destruct (f d from pr s) as [[st1 s1] pr1] eqn:Hcall.
    destruct st1; try discriminate.
    destruct (Hf _ _ _ _ _ _ Hcall) as (Hi1 & Hn1 & Hv1 & Hp1).
    { rewrite <- (Nat.add_0_r from). by apply Hall. }
    destruct (forEach_grown f Hg _ _ _ _ _ _ _ Hrun) as [Hg2 _].
    destruct (IH (S from) pr1 s1 s' pr' Hrun) as (Hi2 & Hn2 & Hv2 & Hp2).
    { intros k d' Hk. rewrite Nat.add_succ_l, <- Nat.add_succ_r.
      by apply Hall. }
    split; [by auto|]. split; [by auto|].
    split; [by eapply valued_grown|].
    destruct pr as [acc|].
    + destruct Hp1 as (new1 & -> & Hm1). destruct Hp2 as (new2 & -> & Hm2).
      exists (new1 ++ new2). split; [by rewrite app_assoc|].
      apply Forall_app. split; [|done].
      eapply Forall_impl; [exact Hm1|]. intros l'.
      apply made_kept. by eapply kept_grown.
    + by subst pr1.
Qed.

Lemma accessRow_shape fuel :
  forall d i D parent pr s s' pr' all,
    accessRow getRowId getSubRows inherited_key col accessValueHooks fuel d i D parent
      pr s = (Returned, s', pr') ->
    all !! i = Some d ->
    shaped D all pr s s' pr'.
Proof.
  induction fuel as [|fuel IH]; intros d i D parent pr s s' pr' all Hrun Hd;
    [discriminate|].
  cbn [accessRow] in Hrun.
  set (rid := getRowId d i (parent ≫= fun p => heap s !! p)) in *.
  destruct (rowsById s !! rid) as [l|] eqn:Hlook.
  - destruct (heap s !! l) as [r|] eqn:Hr; [|discriminate].
    destruct (subRows r) as [subs|].
    + destruct (originalSubRows r) as [ds|]; [|discriminate].
      destruct (forEach _ ds 0 None s) as [[st4 s4] pr4] eqn:Hfe.
      destruct st4; try discriminate. injection Hrun as <- <-.
      destruct (forEach_shape _ (S D) ds
                  (fun d1 i1 pr1 sa sb pr1' =>
                     IH d1 i1 (S D) (Some l) pr1 sa sb pr1' ds)
                  (fun d1 i1 pr1 sa st1 sb pr1' =>
                     accessRow_grown fuel d1 i1 (S D) (Some l) pr1 sa st1 sb
                       pr1')
                  _ _ _ _ _ _ Hfe) as (Hi4 & Hn4 & Hv4 & _); [done|].
      by apply shaped_assign.
    + injection Hrun as <- <-. apply shaped_assign; [done..|].
      by apply valued_beyond.
  - destruct (inherited_key rid); [discriminate|].
    cbn [heap flatRows rowsById] in Hrun.
    destruct pr as [rows|]; [|discriminate].
    rewrite update_row_alloc in Hrun.
    destruct (getSubRows d i) as [ds|] eqn:Hsub.
    + set (r0 := set_originalSubRows (Some ds)
                   (Row rid d i D unprepared_cells ∅ None None)) in *.
      set (s3 := State (heap s ++ [r0]) (flatRows s ++ [length (heap s)])
                   (<[rid := length (heap s)]> (rowsById s))) in *.
      destruct (forEach _ ds 0 (Some []) s3) as [[st4 s4] pr4] eqn:Hfe.
      destruct st4; try discriminate. injection Hrun as <- <-.
      destruct (forEach_shape _ (S D) ds
                  (fun d1 i1 pr1 sa sb pr1' =>
                     IH d1 i1 (S D) (Some (length (heap s))) pr1 sa sb pr1' ds)
                  (fun d1 i1 pr1 sa st1 sb pr1' =>
                     accessRow_grown fuel d1 i1 (S D) (Some (length (heap s)))
                       pr1 sa st1 sb pr1')
                  _ _ _ _ _ _ Hfe) as (Hi4 & Hn4 & Hv4 & new & -> & Hm4);
        [done|].
      destruct (forEach_grown _
                  (fun d1 i1 pr1 sa st1 sb pr1' =>
                     accessRow_grown fuel d1 i1 (S D) (Some (length (heap s)))
                       pr1 sa st1 sb pr1')
                  _ _ _ _ _ _ _ Hfe) as [Hg4 _].
      cbn [app] in *.
      assert (H3 : heap s3 !! length (heap s) = Some r0).
      { subst s3. cbn [heap]. rewrite lookup_app_r by done.
        by rewrite Nat.sub_diag. }
      destruct Hg4 as (_ & _ & Hh4).
      destruct (Hh4 _ _ H3) as (r4 & Hr4 & Hid4 & _).
      destruct Hid4 as (Hid & Horig & Hidx & Hdep & _ & Hosr).
      cbn in Hid, Horig, Hidx, Hdep, Hosr.
      set (s5 := update_row (length (heap s)) (set_subRows (Some new)) s4).
      assert (Hr5 : heap s5 !! length (heap s)
                    = Some (set_subRows (Some new) r4)).
      { subst s5. unfold update_row. cbn [heap].
        by rewrite list_lookup_alter_eq, Hr4. }
      destruct (assign_value_valued d i (length (heap s)) s5 _ Hr5)
        as (r' & Hr' & Hval').
      pose proof (only_values_assign col accessValueHooks d i
                    (length (heap s)) s5) as Hov.
      split; [|split; [|split]].
      * intros Hi. eapply indexed_only_values; [exact Hov|].
        apply indexed_update_row; [apply same_identity_set_subRows|].
        apply Hi4. by apply indexed_created.
      * intros Hn. eapply nested_only_values; [exact Hov|].
        eapply nested_set_subRows; [|exact Hr4|by rewrite <- Hosr|].
        -- apply Hn4. by apply nested_created.
        -- by rewrite <- Hdep.
      * intros l0 r1 Hl0 Hr1.
        destruct (decide (l0 = length (heap s))) as [->|Hne].
        -- congruence.
        -- rewrite assign_value_other in Hr1 by done.
           subst s5. unfold update_row in Hr1. cbn [heap] in Hr1.
           rewrite list_lookup_alter_ne in Hr1 by done.
           eapply Hv4; [|exact Hr1]. subst s3. cbn [heap].
           rewrite length_app. cbn [length]. lia.
      * exists [length (heap s)]. split; [done|]. apply Forall_singleton.
        destruct (kept_only_values _ _ _ Hov _ _ Hr5)
          as (r2 & Hr2 & _ & Horig2 & Hidx2 & Hdep2 & _).
        cbn in Horig2, Hidx2, Hdep2.
        exists r2. split; [done|]. split; [congruence|].
        rewrite <- Hidx2, <- Horig2, <- Hidx, <- Horig. done.
    + injection Hrun as <- <-.
      set (r0 := set_originalSubRows None
                   (Row rid d i D unprepared_cells ∅ None None)) in *.
      set (s3 := State (heap s ++ [r0]) (flatRows s ++ [length (heap s)])
                   (<[rid := length (heap s)]> (rowsById s))) in *.
      assert (H3 : heap s3 !! length (heap s) = Some r0).
      { subst s3. cbn [heap]. rewrite lookup_app_r by done.
        by rewrite Nat.sub_diag. }
      destruct (assign_value_valued d i (length (heap s)) s3 _ H3)
        as (r' & Hr' & Hval').
      pose proof (only_values_assign col accessValueHooks d i
                    (length (heap s)) s3) as Hov.
      split; [|split; [|split]].
      * intros Hi. eapply indexed_only_values; [exact Hov|].
        by apply indexed_created.
      * intros Hn. eapply nested_only_values; [exact Hov|].
        by apply nested_created.
      * intros l0 r1 Hl0 Hr1.
        destruct (decide (l0 = length (heap s))) as [->|Hne]; [congruence|].
        rewrite assign_value_other in Hr1 by done.
        apply lookup_lt_Some in Hr1. subst s3. cbn [heap] in Hr1.
        rewrite length_app in Hr1. cbn [length] in Hr1. lia.
      * exists [length (heap s)]. split; [done|]. apply Forall_singleton.
        destruct (kept_only_values _ _ _ Hov _ _ H3)
          as (r2 & Hr2 & _ & Horig2 & Hidx2 & Hdep2 & _).
        cbn in Horig2, Hidx2, Hdep2.
        exists r2. split; [done|]. split; [congruence|].
        rewrite <- Hidx2, <- Horig2. done.
Qed.

Lemma accessRowsForColumn_shape fuel data rows s s' rows' :
  accessRowsForColumn getRowId getSubRows inherited_key col accessValueHooks fuel data rows s
    = (Returned, s', rows') ->
  shaped 0 data (Some rows) s s' rows'.
Proof.
  intros Hrun. unfold accessRowsForColumn in Hrun.
  eapply (forEach_shape _ 0 data
            (fun d1 i1 pr1 sa sb pr1' =>
               accessRow_shape fuel d1 i1 0 None pr1 sa sb pr1' data)
            (fun d1 i1 pr1 sa st1 sb pr1' =>
               accessRow_grown fuel d1 i1 0 None pr1 sa st1 sb pr1')
            _ _ _ _ _ _ Hrun).
  done.
Qed.

(** X20: a pass that returns keeps the row objects indexed: [flatRows] lists
    them all, once each, in the order they were made; [rowsById] finds each
    under its id; so no two row objects have one id, whatever [getRowId]
    answers. *)
Theorem accessRowsForColumn_indexes_rows (fuel : nat) (data : list value)
    (rows : list loc) (s s' : state) (rows' : option (list loc)) :
  indexed s ->
  accessRowsForColumn getRowId getSubRows inherited_key col accessValueHooks fuel data rows s
    = (Returned, s', rows') ->
  indexed s' /\ NoDup (id <$> heap s').
Proof.
  intros Hi Hrun. destruct (accessRowsForColumn_shape _ _ _ _ _ _ Hrun)
    as (Hi' & _).
  split; [by auto|]. by apply indexed_NoDup, Hi'.
Qed.

(** X21: a pass that returns nests the rows as the data is nested: the rows it
    adds to [rows] have depth 0 and are the rows of items of [data], each at
    its index; and wherever a row has [subRows], these are rows of its raw
    sub-rows, each at its index, one level deeper than the row. *)
Theorem accessRowsForColumn_nests_rows (fuel : nat) (data : list value)
    (rows : list loc) (s s' : state) (rows' : option (list loc)) :
  nested s ->
  accessRowsForColumn getRowId getSubRows inherited_key col accessValueHooks fuel data rows s
    = (Returned, s', rows') ->
  nested s' /\
  exists new, rows' = Some (rows ++ new) /\ Forall (made s' 0 data) new.
Proof.
  intros Hn Hrun. destruct (accessRowsForColumn_shape _ _ _ _ _ _ Hrun)
    as (_ & Hn' & _ & Hp).
  split; [by auto|done].
Qed.

(** X22: a pass that returns has given every row object it made a value of its
    column, also when the column has no accessor. *)
Theorem accessRowsForColumn_values_rows (fuel : nat) (data : list value)
    (rows : list loc) (s s' : state) (rows' : option (list loc)) :
  accessRowsForColumn getRowId getSubRows inherited_key col accessValueHooks fuel data rows s
    = (Returned, s', rows') ->
  forall l r, length (heap s) <= l -> heap s' !! l = Some r ->
    is_Some (values r !! column_id col).
Proof.
  intros Hrun. destruct (accessRowsForColumn_shape _ _ _ _ _ _ Hrun)
    as (_ & _ & Hv & _).
  exact Hv.
Qed.

End Built.

(** *** The pass over the sample data *)

Lemma indexed_empty : indexed empty_state.
Proof. split; [done|]. intros l r Hr. done. Qed.

Lemma nested_empty : nested empty_state.
Proof. intros l r subs Hr. done. Qed.

Lemma accessRowsForColumn_indexes_rows_witness :
  indexed pass1.1.2 /\ NoDup (id <$> heap pass1.1.2).
Proof.
  exact (accessRowsForColumn_indexes_rows pathId subRowsKey prototype_key name_column [] 5
           sample_data [] empty_state _ _ indexed_empty pass1_returned).
Defined.

Lemma accessRowsForColumn_nests_rows_witness :
  nested pass1.1.2 /\
  exists new,
    Some (default [] pass1.2) = Some ([] ++ new) /\
    Forall (made pass1.1.2 0 sample_data) new.
Proof.
  exact (accessRowsForColumn_nests_rows pathId subRowsKey prototype_key name_column [] 5
           sample_data [] empty_state _ _ nested_empty pass1_returned).
Defined.

Lemma pass1_row3 :
  exists r, heap pass1.1.2 !! 3 = Some r /\ id r = "0.1.0".
Proof. eexists. split; [vm_compute; reflexivity|reflexivity]. Qed.

Lemma accessRowsForColumn_values_rows_witness :
  exists r,
    heap pass1.1.2 !! 3 = Some r /\ is_Some (values r !! "name").
Proof.
  destruct pass1_row3 as (r & Hr & _). exists r. split; [exact Hr|].
  exact (accessRowsForColumn_values_rows pathId subRowsKey prototype_key name_column [] 5
           sample_data [] empty_state _ _ pass1_returned 3 r
           (Nat.le_0_l 3) Hr).
Defined.

End RowFacts.

(** ** The expansion walk: what it returns whatever the options *)

Module ExpansionFacts.
Import Js Expansion.

Section Marks.

Variable inherited : value -> string -> value.
Variable manualExpandedKey : string.
Variable expanded : list (string * value).

(** The row with the two marks of the walk, its [subRows] as they are. *)
Definition mark (r : row) : row :=
  Row (id r) (original r) (subRows r)
    (expanded_mark inherited manualExpandedKey expanded (id r) (original r))
    (expandable_mark (subRows r)).

Lemma handleRow_head expandSubRows r :
  exists rest,
    (handleRow inherited manualExpandedKey expanded expandSubRows r).2
      = (handleRow inherited manualExpandedKey expanded expandSubRows r).1
          :: rest.
Proof.
  destruct r as [i o subs e c]. cbn [handleRow].
  destruct (descends _ _ _ _ i o subs); [|by eexists].
  destruct subs as [l|]; by eexists.
Qed.

Lemma handleRow_again expandSubRows : forall r,
  handleRow inherited manualExpandedKey expanded expandSubRows
    (handleRow inherited manualExpandedKey expanded expandSubRows r).1
  = handleRow inherited manualExpandedKey expanded expandSubRows r.
Proof.
  induction r as [i o subs e c IH] using row_tree_ind.
  cbn [handleRow].
  destruct (descends _ _ _ _ i o subs) eqn:Hd.
  - destruct subs as [l|].
    + cbn [fst handleRow].
      assert (Hd' : descends inherited manualExpandedKey expanded
                      expandSubRows i o
                      (Some (map fst (map (handleRow inherited
                         manualExpandedKey expanded expandSubRows) l)))
                    = true).
      { rewrite <- Hd. unfold descends. by rewrite !length_map. }
      rewrite Hd'.
      assert (Hl : map (handleRow inherited manualExpandedKey expanded
                          expandSubRows)
                     (map fst (map (handleRow inherited manualExpandedKey
                                      expanded expandSubRows) l))
                   = map (handleRow inherited manualExpandedKey expanded
                            expandSubRows) l).
      { rewrite !map_map. apply map_ext_Forall. exact IH. }
      rewrite Hl. unfold expandable_mark. by rewrite !length_map.
    + cbn [fst handleRow]. by rewrite Hd.
  - cbn [fst handleRow]. by rewrite Hd.
Qed.

(** X23: walking the rows a walk has marked changes nothing: the marks are
    made of what the walk leaves alone (the raw item, the id, the number of
    sub-rows), so a second [expandRows] with the same options leaves the same
    rows and returns the same sequence. *)
Theorem expandRows_idempotent (expandSubRows : bool) (rows : list row) :
  expandRows inherited manualExpandedKey expanded expandSubRows
    (expandRows inherited manualExpandedKey expanded expandSubRows rows).1
  = expandRows inherited manualExpandedKey expanded expandSubRows rows.
Proof.
  unfold expandRows. cbn [fst].
  assert (Hl : map (handleRow inherited manualExpandedKey expanded
                      expandSubRows)
                 (map fst (map (handleRow inherited manualExpandedKey
                                  expanded expandSubRows) rows))
               = map (handleRow inherited manualExpandedKey expanded
                        expandSubRows) rows).
  { rewrite !map_map. apply map_ext. intros r. apply handleRow_again. }
  by rewrite Hl.
Qed.

(** X24: every top-level row is returned, in the order given, whatever the
    expansion state and the options: the rows under them come in between. *)
Theorem expandRows_returns_top_level (expandSubRows : bool)
    (rows : list row) :
  sublist
    (expandRows inherited manualExpandedKey expanded expandSubRows rows).1
    (expandRows inherited manualExpandedKey expanded expandSubRows rows).2 /\
  length rows
    <= length
         (expandRows inherited manualExpandedKey expanded expandSubRows rows).2.
Proof.
  assert (Hsub : sublist
    (expandRows inherited manualExpandedKey expanded expandSubRows rows).1
    (expandRows inherited manualExpandedKey expanded expandSubRows rows).2).
  { unfold expandRows. cbn [fst snd].
    induction rows as [|r rows IH]; [constructor|]. cbn [map concat].
    destruct (handleRow_head expandSubRows r) as [rest ->]. cbn [app].
    apply sublist_skip. by apply sublist_inserts_l. }
  split; [done|]. apply sublist_length in Hsub.
  unfold expandRows in Hsub. cbn [fst] in Hsub.
  by rewrite !length_map in Hsub.
Qed.

(** X25: with [expandSubRows: false] the walk never descends: it returns the
    top-level rows, marked, and leaves the rows under them unmarked. *)
Theorem expandRows_without_subRows (rows : list row) :
  expandRows inherited manualExpandedKey expanded false rows
    = (map mark rows, map mark rows).
Proof.
  unfold expandRows.
  assert (Hr : forall r,
    handleRow inherited manualExpandedKey expanded false r
      = (mark r, [mark r])).
  { by intros [i o subs e c]. }
  induction rows as [|r rows IH]; [done|]. cbn [map concat].
  rewrite Hr. cbn [fst snd app]. injection IH as -> ->. done.
Qed.

End Marks.

End ExpansionFacts.

(** ** Header groups: levels, nesting and the default column *)

Module HeaderFacts.
Import Js Headers.

(** The header rows stand on each other: the columns under the cells of a
    row are, in order, the row below. *)
Definition stacked (groups : list headerGroup) : Prop :=
  forall i upper lower,
    groups !! i = Some upper -> groups !! S i = Some lower ->
    covered (group_headers upper) = group_headers lower.

(** The same for the rows in the order the builder makes them, the leaf
    row first. *)
Definition stacked_up (levels : list headerGroup) : Prop :=
  forall i lower upper,
    levels !! i = Some lower -> levels !! S i = Some upper ->
    covered (group_headers upper) = group_headers lower.

Lemma stacked_up_snoc levels x y :
  stacked_up (levels ++ [x]) ->
  covered (group_headers y) = group_headers x ->
  stacked_up ((levels ++ [x]) ++ [y]).
Proof.
  intros Hl Hxy i lower upper Hlow Hup.
  destruct (decide (S i < length (levels ++ [x]))) as [Hlt|Hge].
  - rewrite lookup_app_l in Hlow by lia. rewrite lookup_app_l in Hup by done.
    by eapply Hl.
  - assert (Hlen : length (levels ++ [x]) = S (length levels)).
    { rewrite length_app. cbn. lia. }
    assert (S i = length (levels ++ [x])) as Hi.
    { apply lookup_lt_Some in Hup. rewrite length_app in Hup. cbn in Hup. lia. }
    rewrite lookup_app_r in Hup by lia. rewrite Hi, Nat.sub_diag in Hup.
    injection Hup as <-.
    rewrite lookup_app_l in Hlow by lia.
    rewrite lookup_app_r in Hlow by lia.
    replace (i - length levels) with 0 in Hlow by lia.
    by injection Hlow as <-.
Qed.

Lemma stacked_reverse levels : stacked_up levels -> stacked (reverse levels).
Proof.
  intros Hl i upper lower Hup Hlow.
  assert (Hi : S i < length levels).
  { apply lookup_lt_Some in Hlow. by rewrite length_reverse in Hlow. }
  rewrite reverse_lookup in Hup by lia.
  rewrite reverse_lookup in Hlow by lia.
  apply (Hl (length levels - S (S i))); [done|].
  by replace (S (length levels - S (S i))) with (length levels - S i) by lia.
Qed.

Lemma own_prop_app a b k :
  own_prop (a ++ b) k =
    match own_prop a k with
    | Some v => Some v
    | None => own_prop b k
    end.
Proof.
  induction a as [|[k' v] a IH]; [done|]. cbn [own_prop app].
  by destruct (String.eqb k' k).
Qed.

Section Levels.

Variable defaultColumn : list (string * value).
Variables fallback_Header fallback_Footer : value.

(** *** decorateColumn *)

(** X26: without the user's default column [decorateColumn] throws; with it,
    every property is looked up in the column itself, then in the user's
    default column, then in the library's, then among the two fallback
    renderers, so a decorated column always has a [Header] and a [Footer]. *)
Theorem decorateColumn_defaults (col : column)
    (userDefaultColumn : option (list (string * value))) :
  match userDefaultColumn with
  | None =>
      exists msg,
        decorateColumn defaultColumn fallback_Header fallback_Footer col None
          = Throw msg
  | Some user =>
      exists col',
        decorateColumn defaultColumn fallback_Header fallback_Footer col
          (Some user) = Ok col' /\
        id col' = id col /\ originalId col' = originalId col /\
        parent col' = parent col /\ headers col' = headers col /\
        placeholderOf col' = placeholderOf col /\
        (forall k,
           own_prop (others col') k =
             match own_prop (others col) k with
             | Some v => Some v
             | None =>
                 match own_prop user k with
                 | Some v => Some v
                 | None =>
                     match own_prop defaultColumn k with
                     | Some v => Some v
                     | None =>
                         own_prop [("Header", fallback_Header);
                                   ("Footer", fallback_Footer)] k
                     end
                 end
             end) /\
        is_Some (own_prop (others col') "Header") /\
        is_Some (own_prop (others col') "Footer")
  end.
Proof.
  destruct userDefaultColumn as [user|]; [|by eexists].
  eexists. split; [reflexivity|]. cbn [id originalId parent headers
    placeholderOf others].
  repeat (split; [done|]).
  assert (Hk : forall k,
    own_prop (others col ++ user ++ defaultColumn
                ++ [("Header", fallback_Header); ("Footer", fallback_Footer)]) k
    = match own_prop (others col) k with
      | Some v => Some v
      | None =>
          match own_prop user k with
          | Some v => Some v
          | None =>
              match own_prop defaultColumn k with
              | Some v => Some v
              | None =>
                  own_prop [("Header", fallback_Header);
                            ("Footer", fallback_Footer)] k
              end
          end
      end).
  { intros k. by rewrite !own_prop_app. }
  split; [exact Hk|].
  split; rewrite Hk;
    repeat (match goal with
            | |- context [match ?x with _ => _ end] => destruct x
            end; try done).
Qed.

(** *** The rows stand on each other *)

Lemma scanLevels_stacked fuel : forall u cols uid gs r,
  scanLevels defaultColumn fallback_Header fallback_Footer fuel u cols uid gs
    = Done r ->
  cols <> [] -> stacked_up (gs ++ [HeaderGroup cols]) -> stacked_up r.
Proof.
  induction fuel as [|fuel IH]; intros u cols uid gs r Hrun Hne Hst.
  { destruct cols; [done|discriminate]. }
  destruct cols as [|col cols]; [done|].
  apply scanLevels_step in Hrun as (fuel' & ps & uid' & [= <-] & Hscan & Hrest).
  destruct ps as [|p ps].
  { rewrite scanLevels_nil in Hrest. by injection Hrest as <-. }
  destruct (existsb has_parent (col :: cols)) eqn:Hp.
  2:{ rewrite scan_false in Hscan. discriminate. }
  destruct (scan_level_span _ _ _ _ _ _ _ _ Hp Hscan) as (_ & Hcov & _).
  eapply IH; [exact Hrest|done|]. by apply stacked_up_snoc.
Qed.

(** X27: in what [makeHeaderGroups] returns, the columns under the header
    cells of a group are exactly the headers of the group after it, in order:
    no column is left out, repeated or moved on the way up. *)
Theorem header_groups_stacked fuel allColumns u groups :
  makeHeaderGroups defaultColumn fallback_Header fallback_Footer fuel
    allColumns u = Done groups ->
  stacked groups.
Proof.
  unfold makeHeaderGroups. intros Hrun.
  destruct (scanLevels _ _ _ fuel u allColumns 0 []) as [r| |] eqn:Hr;
    try discriminate.
  injection Hrun as <-. apply stacked_reverse.
  destruct allColumns as [|col cols].
  { rewrite scanLevels_nil in Hr. injection Hr as <-. by intros i lower upper. }
  eapply scanLevels_stacked; [exact Hr|done|].
  intros i lower upper Hlow Hup. by destruct i.
Qed.

(** *** How many groups *)

Lemma scanLevels_count fuel : forall u cols uid gs r,
  scanLevels defaultColumn fallback_Header fallback_Footer fuel u cols uid gs
    = Done r ->
  cols <> [] ->
  S (length gs) <= length r /\ length r <= length gs + S (max_height cols).
Proof.
  induction fuel as [|fuel IH]; intros u cols uid gs r Hrun Hne.
  { destruct cols; [done|discriminate]. }
  destruct cols as [|col cols]; [done|].
  apply scanLevels_step in Hrun as (fuel' & ps & uid' & [= <-] & Hscan & Hrest).
  destruct ps as [|p ps].
  { rewrite scanLevels_nil in Hrest. injection Hrest as <-.
    rewrite length_app. cbn [length]. lia. }
  destruct (existsb has_parent (col :: cols)) eqn:Hp.
  2:{ rewrite scan_false in Hscan. discriminate. }
  destruct (scan_level_span _ _ _ _ _ _ _ _ Hp Hscan) as (_ & _ & Hmax).
  pose proof (has_parent_height _ Hp) as Hge.
  destruct (IH _ _ _ _ _ Hrest) as [Hlo Hhi]; [done|].
  rewrite length_app in Hlo, Hhi. cbn [length] in Hlo, Hhi. lia.
Qed.

(** X28: there are at most as many groups as the deepest column has levels. *)
Theorem header_groups_count fuel allColumns u groups :
  makeHeaderGroups defaultColumn fallback_Header fallback_Footer fuel
    allColumns u = Done groups ->
  allColumns <> [] ->
  1 <= length groups <= S (max_height allColumns).
Proof.
  unfold makeHeaderGroups. intros Hrun Hne.
  destruct (scanLevels _ _ _ fuel u allColumns 0 []) as [r| |] eqn:Hr;
    try discriminate.
  injection Hrun as <-. rewrite length_reverse.
  destruct (scanLevels_count _ _ _ _ _ _ Hr Hne) as [Hlo Hhi].
  cbn [length] in Hlo, Hhi. lia.
Qed.

(** *** When the default column is needed *)

Lemma scan_uniform u m cols : forall ps uid ps' uid',
  scan defaultColumn fallback_Header fallback_Footer u true cols (ps, uid)
    = Ok (ps', uid') ->
  Forall (fun p => height p = m) ps ->
  Forall (fun c => height c = S m) cols ->
  Forall (fun p => height p = m) ps'.
Proof.
  induction cols as [|col cols IH]; intros ps uid ps' uid' Hscan Hps Hcols.
  { by injection Hscan as <- <-. }
  apply Forall_cons in Hcols as [Hcol Hcols]. cbn [scan] in Hscan.
  destruct (scanColumn _ _ _ u true (ps, uid) col) as [[ps1 uid1]|msg] eqn:Hc;
    [|discriminate].
  eapply IH; [exact Hscan| |done].
  destruct (scanColumn_true _ _ _ _ _ _ _ _ Hc)
    as (np & Hnp & _ & [(front & latest & -> & _ & Hacc)|[_ Hacc]]);
    cbn [fst] in Hacc; subst ps1.
  - apply Forall_app in Hps as [Hfront Hlatest].
    apply Forall_app. split; [done|]. apply Forall_singleton.
    rewrite Forall_singleton in Hlatest. by rewrite height_push_header.
  - apply Forall_app. split; [done|]. apply Forall_singleton.
    destruct (newParent_facts _ _ _ _ _ _ _ Hnp) as (_ & _ & ->).
    by rewrite Hcol.
Qed.

Lemma uniform_has_parent m cols :
  Forall (fun c => height c = S m) cols ->
  Forall (fun c => has_parent c = true) cols.
Proof.
  intros H. eapply Forall_impl; [exact H|].
  intros [i oi [p|] h ph o] Hc; [done|discriminate].
Qed.

Lemma uniform_no_parent cols :
  Forall (fun c => height c = 0) cols -> existsb has_parent cols = false.
Proof.
  induction 1 as [|c cols Hc _ IH]; [done|]. cbn [existsb]. rewrite IH.
  by destruct c as [i oi [p|] h ph o].
Qed.

Lemma scanLevels_uniform m : forall fuel u cols uid gs,
  Forall (fun c => height c = m) cols -> cols <> [] -> m < fuel ->
  exists r,
    scanLevels defaultColumn fallback_Header fallback_Footer fuel u cols uid gs
      = Done r /\
    length r = length gs + S m.
Proof.
  induction m as [|m IH]; intros fuel u cols uid gs Hcols Hne Hfuel;
    (destruct fuel as [|fuel]; [lia|]);
    (destruct cols as [|col cols]; [done|]); cbn [scanLevels].
  - rewrite (uniform_no_parent _ Hcols), scan_false, scanLevels_nil.
    eexists. split; [done|]. rewrite length_app. cbn [length]. lia.
  - pose proof (uniform_has_parent _ _ Hcols) as Hpar.
    assert (Hp : existsb has_parent (col :: cols) = true).
    { cbn [existsb]. apply Forall_cons in Hpar as [-> _]. done. }
    rewrite Hp.
    destruct (scan_defined defaultColumn fallback_Header fallback_Footer u
                true (col :: cols) ([], uid)) as [[ps uid'] Hscan];
      [by right|].
    rewrite Hscan.
    pose proof (scan_uniform _ _ _ _ _ _ _ Hscan (Forall_nil_2 _) Hcols) as Hps.
    destruct (scan_level_span _ _ _ _ _ _ _ _ Hp Hscan) as (_ & Hcov & _).
    assert (Hps_ne : ps <> []) by (by intros ->).
    destruct (IH fuel u ps uid' (gs ++ [HeaderGroup (col :: cols)]) Hps Hps_ne)
      as (r & Hr & Hlen); [lia|].
    exists r. split; [done|]. rewrite Hlen, length_app. cbn [length]. lia.
Qed.

(** X29: columns that all lie equally deep need no placeholders: with or
    without a default column, [makeHeaderGroups] returns one group for the
    columns and one for each level above them. In particular, columns without
    parents come back as a single group. *)
Theorem header_groups_uniform_depth fuel allColumns u m :
  Forall (fun c => height c = m) allColumns -> allColumns <> [] ->
  m < fuel ->
  exists groups,
    makeHeaderGroups defaultColumn fallback_Header fallback_Footer fuel
      allColumns u = Done groups /\
    length groups = S m.
Proof.
  intros Hcols Hne Hfuel. unfold makeHeaderGroups.
  destruct (scanLevels_uniform m fuel u allColumns 0 [] Hcols Hne Hfuel)
    as (r & -> & Hlen).
  eexists. split; [done|]. by rewrite length_reverse.
Qed.

Lemma scan_throws cols : forall acc,
  Exists (fun c => has_parent c = false) cols ->
  scan defaultColumn fallback_Header fallback_Footer None true cols acc
    = Throw "".
Proof.
  induction cols as [|col cols IH]; intros [ps uid] Hex.
  { by apply Exists_nil in Hex. }
  cbn [scan scanColumn]. unfold newParent, has_parent in *.
  destruct (parent col) as [p|] eqn:Hp.
  - apply Exists_cons in Hex as [Hcol|Hex]; [by rewrite Hp in Hcol|].
    destruct (last ps) as [latest|];
      [destruct (bool_decide _)|]; by apply IH.
  - reflexivity.
Qed.

(** X30: without a default column, a column without parent beside columns with
    parents stops the builder: the placeholder it asks for cannot be
    decorated, and [makeHeaderGroups] throws. *)
Theorem header_groups_need_default fuel allColumns :
  existsb has_parent allColumns = true ->
  Exists (fun c => has_parent c = false) allColumns ->
  makeHeaderGroups defaultColumn fallback_Header fallback_Footer (S fuel)
    allColumns None = Thrown "".
Proof.
  intros Hp Hex. unfold makeHeaderGroups.
  destruct allColumns as [|col cols]; [done|]. cbn [scanLevels].
  by rewrite Hp, scan_throws.
Qed.

End Levels.

(** *** The sample columns *)

Lemma header_groups_stacked_witness :
  exists groups, sample_groups = Done groups /\ stacked groups.
Proof.
  eexists. split; [reflexivity|].
  apply (header_groups_stacked [] (VFun 0) (VFun 1) 3 sample_columns (Some [])).
  reflexivity.
Defined.

Lemma header_groups_count_witness :
  exists groups,
    sample_groups = Done groups /\ 1 <= length groups <= 3.
Proof.
  eexists. split; [reflexivity|].
  apply (header_groups_count [] (VFun 0) (VFun 1) 3 sample_columns (Some []));
    [reflexivity|done].
Defined.

Lemma header_groups_uniform_depth_witness :
  exists groups,
    makeHeaderGroups [] (VFun 0) (VFun 1) 2
      [leaf "firstName" (Some info_column); leaf "age" (Some info_column)]
      None = Done groups /\
    length groups = 2.
Proof.
  apply (header_groups_uniform_depth [] (VFun 0) (VFun 1) 2
           [leaf "firstName" (Some info_column); leaf "age" (Some info_column)]
           None 1); [by repeat constructor|done|lia].
Defined.

Lemma header_groups_need_default_witness :
  makeHeaderGroups [] (VFun 0) (VFun 1) 3 sample_columns None = Thrown "".
Proof.
  apply (header_groups_need_default [] (VFun 0) (VFun 1) 2 sample_columns);
    [reflexivity|].
  repeat (first [by apply Exists_cons_hd | apply Exists_cons_tl]).
Defined.

End HeaderFacts.
